(** * Workflow execution engine: expression resolver, trigger dedup,
    action-tree executor and workflow update validation.

  Shallow embedding of
    - apps/runner/src/utils/input.utils.ts
    - apps/runner/src/services/runner.service.ts
    - apps/api/src/workflows/services/workflow.service.ts
    - the OAuth strategy factory of the API
    - the metadata document of the action "Create a post"
  JavaScript strings are modelled as Rocq strings: a character stands for
  a code unit below 256, so the model covers Latin-1 text.  JavaScript
  objects are association lists of their own enumerable properties in
  enumeration order; numbers are the safe integers.  The libraries the
  code calls (the expression evaluator of mathjs, [_.get] of lodash, the
  operation runner) are parameters. *)

From Stdlib Require Import ZArith Ascii String List Bool Lia.
From stdpp Require Import base option list strings gmap pretty.

Local Open Scope Z_scope.
Local Open Scope nat_scope.

(* ===================================================================== *)
(** ** JavaScript strings *)
(* ===================================================================== *)

Module JsString.

(** [s.length] *)
Definition len (s : string) : nat := String.length s.

(** [s.substring(0, n)] for [0 <= n]. *)
Fixpoint substringTo (n : nat) (s : string) : string :=
  match n, s with
  | S n', String c s' => String c (substringTo n' s')
  | _, _ => EmptyString
  end.

(** [s.substring(n)] for [0 <= n]. *)
Fixpoint substringFrom (n : nat) (s : string) : string :=
  match n, s with
  | S n', String _ s' => substringFrom n' s'
  | _, _ => s
  end.

Fixpoint rev_onto (s acc : string) : string :=
  match s with
  | EmptyString => acc
  | String c s' => rev_onto s' (String c acc)
  end.

Definition rev (s : string) : string := rev_onto s EmptyString.

(** WhiteSpace and LineTerminator code points below 256: TAB, LF, VT, FF,
    CR, SPACE and NO-BREAK SPACE.  These are the characters matched by
    [\s] and removed by [String.prototype.trim]. *)
Definition isWhiteSpace (c : ascii) : bool :=
  let n := nat_of_ascii c in
  (Nat.leb 9 n && Nat.leb n 13) || Nat.eqb n 32 || Nat.eqb n 160.

(** LineTerminator code points below 256 (not matched by [.]). *)
Definition isLineTerminator (c : ascii) : bool :=
  let n := nat_of_ascii c in Nat.eqb n 10 || Nat.eqb n 13.

Fixpoint trimStart (s : string) : string :=
  match s with
  | String c s' => if isWhiteSpace c then trimStart s' else s
  | EmptyString => EmptyString
  end.

Definition trimEnd (s : string) : string := rev (trimStart (rev s)).

(** [s.trim()] *)
Definition trim (s : string) : string := trimEnd (trimStart s).

(** [s.startsWith(p)] *)
Fixpoint startsWith (p s : string) : bool :=
  match p, s with
  | EmptyString, _ => true
  | String a p', String b s' => Ascii.eqb a b && startsWith p' s'
  | String _ _, EmptyString => false
  end.

(** [s.indexOf(p)], [None] standing for [-1]. *)
Fixpoint indexOf (p s : string) : option nat :=
  if startsWith p s then Some 0
  else match s with
       | EmptyString => None
       | String _ s' => S <$> indexOf p s'
       end.

Definition isDigit (c : ascii) : bool :=
  let n := nat_of_ascii c in Nat.leb 48 n && Nat.leb n 57.

Definition digitVal (c : ascii) : nat := nat_of_ascii c - 48.

(** The abstract operation GetSubstitution of ECMA-262 with no named
    captures: expands [$$], [$&], [$`], [$'], [$n] and [$nn] in a
    replacement template.  [captures] are the numbered groups; a group that
    did not take part in the match is [None]. *)
Fixpoint getSubstitution (matched before after : string)
         (captures : list (option string)) (template : string) : string :=
  match template with
  | EmptyString => EmptyString
  | String "$" (String "$" rest) =>
      String "$" (getSubstitution matched before after captures rest)
  | String "$" (String "&" rest) =>
      matched +:+ getSubstitution matched before after captures rest
  | String "$" (String "`" rest) =>
      before +:+ getSubstitution matched before after captures rest
  | String "$" (String "'" rest) =>
      after +:+ getSubstitution matched before after captures rest
  | String "$" (String d1 rest1 as tail1) =>
      if isDigit d1 then
        let one :=
          let i := digitVal d1 in
          if Nat.leb 1 i && Nat.leb i (length captures) then
            default EmptyString (mjoin (captures !! (i - 1)))
            +:+ getSubstitution matched before after captures rest1
          else
            String "$" (String d1
              (getSubstitution matched before after captures rest1)) in
        match rest1 with
        | String d2 rest2 =>
            if isDigit d2 then
              let i := 10 * digitVal d1 + digitVal d2 in
              if Nat.leb 1 i && Nat.leb i (length captures) then
                default EmptyString (mjoin (captures !! (i - 1)))
                +:+ getSubstitution matched before after captures rest2
              else one
            else one
        | EmptyString => one
        end
      else String "$" (getSubstitution matched before after captures tail1)
  | String c rest =>
      String c (getSubstitution matched before after captures rest)
  end.

(** [s.replace(pattern, replacement)] with a string pattern: only the first
    occurrence is replaced, and the replacement is a template. *)
Definition replace (s pattern replacement : string) : string :=
  match indexOf pattern s with
  | None => s
  | Some i =>
      let before := substringTo i s in
      let after := substringFrom (i + len pattern) s in
      before +:+ getSubstitution pattern before after [] replacement +:+ after
  end.

(** Number of characters of [s] satisfying [p]. *)
Fixpoint count (p : ascii -> bool) (s : string) : nat :=
  match s with
  | EmptyString => 0
  | String c s' => (if p c then 1 else 0) + count p s'
  end.

End JsString.

(* ===================================================================== *)
(** ** A backtracking matcher for the regular expressions of the source *)
(* ===================================================================== *)

Module Regex.
Import JsString.

(** The fragment of the pattern language used by the source: character
    classes, concatenation, greedy [*] (so [r+] is [r r*]) and numbered
    capturing groups. *)
Inductive regex : Type :=
| Eps
| Chr (p : ascii -> bool)
| Seq (r1 r2 : regex)
| Star (r : regex)
| Group (n : nat) (r : regex).

Definition Plus (r : regex) : regex := Seq r (Star r).

Fixpoint Lit (s : string) : regex :=
  match s with
  | EmptyString => Eps
  | String c s' => Seq (Chr (Ascii.eqb c)) (Lit s')
  end.

(** Captures are kept as a finite map from group number to the text last
    captured by that group. *)
Definition captures := list (nat * string).

Definition setCapture (n : nat) (t : string) (cs : captures) : captures :=
  (n, t) :: List.filter (fun c => negb (Nat.eqb (fst c) n)) cs.

Fixpoint getCapture (n : nat) (cs : captures) : option string :=
  match cs with
  | [] => None
  | (m, t) :: cs' => if Nat.eqb m n then Some t else getCapture n cs'
  end.

(** The loop of a greedy [*]: try one more iteration of the body [m1] as
    long as it consumes input, and fall back to the continuation [k].  An
    iteration that consumes nothing is rejected, and [fuel] (the length of
    the input suffices) bounds the number of iterations. *)
Fixpoint starLoop {A : Type}
         (m1 : string -> captures -> (string -> captures -> option A) -> option A)
         (k : string -> captures -> option A)
         (fuel : nat) (s : string) (cs : captures) : option A :=
  match fuel with
  | O => k s cs
  | S fuel' =>
      match m1 s cs
              (fun s' cs' =>
                 if Nat.ltb (len s') (len s)
                 then starLoop m1 k fuel' s' cs' else None) with
      | Some a => Some a
      | None => k s cs
      end
  end.

(** [rmatch r s cs k] matches [r] against a prefix of [s] and hands the
    rest of the input to the continuation [k]; alternatives are tried in
    the order prescribed by ECMA-262 (greedy, leftmost).  A group keeps the
    text of its last iteration; the source never reads a group that sits
    under a [*]. *)
Fixpoint rmatch {A : Type} (r : regex) (s : string) (cs : captures)
         (k : string -> captures -> option A) {struct r} : option A :=
  match r with
  | Eps => k s cs
  | Chr p =>
      match s with
      | String c s' => if p c then k s' cs else None
      | EmptyString => None
      end
  | Seq r1 r2 => rmatch r1 s cs (fun s' cs' => rmatch r2 s' cs' k)
  | Star r1 => starLoop (rmatch r1) k (len s) s cs
  | Group n r1 =>
      rmatch r1 s cs
        (fun s' cs' => k s' (setCapture n (substringTo (len s - len s') s) cs'))
  end.

(** One match: where it starts, the matched text and the groups. *)
Record Match : Type := mkMatch {
  index : nat;
  text : string;
  groups : captures
}.

(** Match anchored at the start of [s]; [idx] is the position of [s] in
    the whole subject. *)
Definition matchHere (r : regex) (idx : nat) (s : string) : option Match :=
  rmatch r s []
    (fun s' cs => Some (mkMatch idx (substringTo (len s - len s') s) cs)).

(** [RegExp.prototype.exec] without the [g] flag: the leftmost match. *)
Fixpoint execFrom (r : regex) (idx : nat) (s : string) : option Match :=
  match matchHere r idx s with
  | Some m => Some m
  | None =>
      match s with
      | EmptyString => None
      | String _ s' => execFrom r (S idx) s'
      end
  end.

Definition exec (r : regex) (s : string) : option Match := execFrom r 0 s.

(** [s.matchAll(r)] for a global [r]: successive leftmost matches, the
    search resuming where the previous match ended (one character further
    after an empty match). *)
Fixpoint matchAllFrom (r : regex) (fuel idx : nat) (s : string)
  : list Match :=
  match fuel with
  | O => []
  | S fuel' =>
      match matchHere r idx s with
      | Some m =>
          let n := len (text m) in
          m :: match n, s with
               | O, EmptyString => []
               | O, String _ s' => matchAllFrom r fuel' (S idx) s'
               | _, _ => matchAllFrom r fuel' (idx + n) (substringFrom n s)
               end
      | None =>
          match s with
          | EmptyString => []
          | String _ s' => matchAllFrom r fuel' (S idx) s'
          end
      end
  end.

Definition matchAll (r : regex) (s : string) : list Match :=
  matchAllFrom r (S (len s)) 0 s.

(** Numbered captures [1..n] in the shape GetSubstitution expects. *)
Definition captureList (n : nat) (cs : captures) : list (option string) :=
  map (fun i => getCapture i cs) (seq 1 n).

(** [s.replace(r, replacement)] for a regular expression without the [g]
    flag and with [ngroups] capturing groups. *)
Definition replaceFirst (r : regex) (ngroups : nat)
           (s replacement : string) : string :=
  match exec r s with
  | None => s
  | Some m =>
      let before := substringTo (index m) s in
      let after := substringFrom (index m + len (text m)) s in
      before
      +:+ getSubstitution (text m) before after
            (captureList ngroups (groups m)) replacement
      +:+ after
  end.

(** Character classes of the source's patterns. *)
Definition isWordChar (c : ascii) : bool :=
  let n := nat_of_ascii c in
  (Nat.leb 48 n && Nat.leb n 57) || (Nat.leb 65 n && Nat.leb n 90)
  || (Nat.leb 97 n && Nat.leb n 122) || Nat.eqb n 95.

Definition isChar (a : ascii) : ascii -> bool := Ascii.eqb a.

Definition notChar (a : ascii) (c : ascii) : bool := negb (Ascii.eqb a c).

(** [.] without the [s] flag. *)
Definition dot (c : ascii) : bool := negb (isLineTerminator c).

End Regex.

(* ===================================================================== *)
(** ** JavaScript values and exceptions *)
(* ===================================================================== *)

Module Js.
Import JsString.

(** Exceptions raised by the modelled code. *)
Inductive exn : Type :=
| TypeError (msg : string)
| SyntaxError (msg : string)
| Error (msg : string)
| NotFoundException (msg : string)
| BadRequestException (msg : string)
| InternalServerErrorException (msg : string).

(** Result of a call that may throw. *)
Inductive result (A : Type) : Type :=
| Ok (a : A)
| Throw (e : exn).
Arguments Ok {A} a.
Arguments Throw {A} e.

Definition bind {A B : Type} (r : result A) (f : A -> result B) : result B :=
  match r with
  | Ok a => f a
  | Throw e => Throw e
  end.

(** Values.  [JNum n] stands for the number [n] when [n] is a safe
    integer (see [safeNumbers]); a [JDate] is a valid date and carries its
    ISO-8601 text ([toISOString]) and its [toString] text; objects list
    their own enumerable properties in enumeration order, and the
    prototype of an object is not part of the model. *)
#[warnings="-register-all"] Inductive value : Type :=
| JUndefined
| JNull
| JBool (b : bool)
| JNum (n : Z)
| JStr (s : string)
| JDate (iso text : string)
| JArr (items : list value)
| JObj (fields : list (string * value)).

Inductive jstype : Type :=
| TUndefined | TObject | TBoolean | TNumber | TString.

(** [typeof v] *)
Definition typeof (v : value) : jstype :=
  match v with
  | JUndefined => TUndefined
  | JBool _ => TBoolean
  | JNum _ => TNumber
  | JStr _ => TString
  | JNull | JDate _ _ | JArr _ | JObj _ => TObject
  end.

(** ToBoolean: [!v] is [negb (truthy v)]. *)
Definition truthy (v : value) : bool :=
  match v with
  | JUndefined | JNull => false
  | JBool b => b
  | JNum n => negb (Z.eqb n 0)
  | JStr s => negb (String.eqb s EmptyString)
  | JDate _ _ | JArr _ | JObj _ => true
  end.

(** Truthiness of an optional string field ([undefined] when [None]). *)
Definition truthyStr (o : option string) : bool :=
  match o with
  | None => false
  | Some s => negb (String.eqb s EmptyString)
  end.

Fixpoint join (sep : string) (l : list string) : string :=
  match l with
  | [] => EmptyString
  | [x] => x
  | x :: l' => x +:+ sep +:+ join sep l'
  end.

(** [Number.isSafeInteger]: the integers that a number holds exactly
    and prints with all their decimal digits. *)
Definition isSafeInteger (n : Z) : bool :=
  Z.leb (Z.abs n) 9007199254740991%Z.

(** Every number inside the value is a safe integer. *)
Fixpoint safeNumbers (v : value) : bool :=
  match v with
  | JNum n => isSafeInteger n
  | JArr items =>
      (fix all (xs : list value) : bool :=
         match xs with
         | [] => true
         | x :: xs' => safeNumbers x && all xs'
         end) items
  | JObj fields =>
      (fix all (fs : list (string * value)) : bool :=
         match fs with
         | [] => true
         | (_, x) :: fs' => safeNumbers x && all fs'
         end) fields
  | _ => true
  end.

(** ToString, as applied by template literals and by the coercion of a
    non-string replacement value.  A number is printed with its decimal
    digits, which is what JavaScript prints for a safe integer (larger
    numbers are printed rounded or in exponent form). *)
Fixpoint toString (v : value) : string :=
  match v with
  | JUndefined => "undefined"
  | JNull => "null"
  | JBool true => "true"
  | JBool false => "false"
  | JNum n => pretty n
  | JStr s => s
  | JDate _ text => text
  | JArr items =>
      join ","
        (map (fun x => match x with
                       | JUndefined | JNull => EmptyString
                       | _ => toString x
                       end) items)
  | JObj _ => "[object Object]"
  end.

Definition hexDigit (n : nat) : ascii :=
  ascii_of_nat (if Nat.ltb n 10 then 48 + n else 87 + n).

(** QuoteJSONString *)
Fixpoint quoteBody (s : string) : string :=
  match s with
  | EmptyString => EmptyString
  | String c s' =>
      let n := nat_of_ascii c in
      (if Nat.eqb n 34 then String "\" (String c EmptyString)
       else if Nat.eqb n 92 then String "\" (String "\" EmptyString)
       else if Nat.eqb n 8 then String "\" (String "b" EmptyString)
       else if Nat.eqb n 9 then String "\" (String "t" EmptyString)
       else if Nat.eqb n 10 then String "\" (String "n" EmptyString)
       else if Nat.eqb n 12 then String "\" (String "f" EmptyString)
       else if Nat.eqb n 13 then String "\" (String "r" EmptyString)
       else if Nat.ltb n 32 then
         String "\" (String "u" (String "0" (String "0"
           (String (hexDigit (n / 16)) (String (hexDigit (n mod 16))
              EmptyString)))))
       else String c EmptyString)
      +:+ quoteBody s'
  end.

Definition dquote : string := String (ascii_of_nat 34) EmptyString.

Definition quoteJSON (s : string) : string :=
  dquote +:+ quoteBody s +:+ dquote.

(** [JSON.stringify(v)]; [None] is the result [undefined].  A property
    whose value is [undefined] is left out of an object, and printed as
    [null] inside an array. *)
Fixpoint jsonStringify (v : value) : option string :=
  match v with
  | JUndefined => None
  | JNull => Some "null"
  | JBool true => Some "true"
  | JBool false => Some "false"
  | JNum n => Some (pretty n)
  | JStr s => Some (quoteJSON s)
  | JDate iso _ => Some (quoteJSON iso)
  | JArr items =>
      Some ("[" +:+ join "," (map (fun x => default "null" (jsonStringify x))
                                 items) +:+ "]")
  | JObj fields =>
      Some ("{" +:+
            join ","
              ((fix props (fs : list (string * value)) : list string :=
                  match fs with
                  | [] => []
                  | (k, x) :: fs' =>
                      match jsonStringify x with
                      | Some t => (quoteJSON k +:+ ":" +:+ t) :: props fs'
                      | None => props fs'
                      end
                  end) fields)
            +:+ "}")
  end.

(** Own-property lookup on an object's property list. *)
Fixpoint getField (k : string) (fs : list (string * value)) : option value :=
  match fs with
  | [] => None
  | (k', v) :: fs' => if String.eqb k' k then Some v else getField k fs'
  end.

(** Definition of the own property [k], as done by an object literal
    [{ ...obj, [k]: v }] or a spread: overwrite in place, or add as the
    last property. *)
Fixpoint setField (k : string) (v : value) (fs : list (string * value))
  : list (string * value) :=
  match fs with
  | [] => [(k, v)]
  | (k', v') :: fs' =>
      if String.eqb k' k then (k', v) :: fs' else (k', v') :: setField k v fs'
  end.

(** [Object.keys] *)
Definition keys (fs : list (string * value)) : list string := map fst fs.

(** [Object.hasOwn(obj, k)] *)
Definition hasField (k : string) (fs : list (string * value)) : bool :=
  match getField k fs with Some _ => true | None => false end.

(** The key whose assignment sets the prototype of an object. *)
Definition protoKey : string := "__proto__".

(** [obj[k] = v] on an ordinary object: the own property is written, or
    added as the last property; except that, without an own property of
    that name, assigning to [__proto__] reaches the setter inherited from
    [Object.prototype], which changes the prototype at most and creates no
    own property. *)
Definition assignField (k : string) (v : value) (fs : list (string * value))
  : list (string * value) :=
  if String.eqb k protoKey && negb (hasField k fs) then fs
  else setField k v fs.

(** The keys that an assignment can create on an object without an own
    property [__proto__]. *)
Definition assignable (k : string) : bool := negb (String.eqb k protoKey).

End Js.

#[global] Instance result_bind : MBind Js.result :=
  fun A B f r => Js.bind r f.
#[global] Instance result_ret : MRet Js.result := @Js.Ok.
#[global] Instance result_fmap : FMap Js.result :=
  fun A B f r => Js.bind r (fun a => Js.Ok (f a)).

(* ===================================================================== *)
(** ** lodash's [_.get] *)
(* ===================================================================== *)

(** [_.get] belongs to the lodash library, not to the repository, and the
    resolver takes it as a parameter.  This module is a sample of it, used
    where a property is shown on given inputs: it follows lodash for the
    paths the resolver hands to it (word characters, dots, square
    brackets, surrounding white space) and reads own properties only (not
    the members inherited from a prototype, such as [constructor]). *)
Module Lodash.
Import JsString Js.

Definition isPathDelim (c : ascii) : bool :=
  Ascii.eqb c "." || Ascii.eqb c "[" || Ascii.eqb c "]".

(** Longest prefix of characters satisfying [p], and the rest. *)
Fixpoint span (p : ascii -> bool) (s : string) : string * string :=
  match s with
  | String c s' =>
      if p c then let '(a, b) := span p s' in (String c a, b)
      else (EmptyString, s)
  | EmptyString => (EmptyString, EmptyString)
  end.

(** [\[(-?\d+(?:\.\d+)?)\]] restricted to unsigned numbers, at the start of
    [s]: the number text and what follows the closing bracket. *)
Definition bracketNumber (s : string) : option (string * string) :=
  match s with
  | String "[" s1 =>
      let '(int, s2) := span isDigit s1 in
      if Nat.eqb (len int) 0 then None
      else match s2 with
           | String "]" s3 => Some (int, s3)
           | String "." s3 =>
               let '(frac, s4) := span isDigit s3 in
               if Nat.eqb (len frac) 0 then None
               else match s4 with
                    | String "]" s5 => Some (int +:+ "." +:+ frac, s5)
                    | _ => None
                    end
           | _ => None
           end
  | _ => None
  end.

(** The look-ahead [(?=(?:\.|\[\])(?:\.|\[\]|$))]. *)
Definition emptyKeyAhead (s : string) : bool :=
  let after (t : string) : bool :=
    match t with
    | EmptyString => true
    | String "." _ => true
    | String "[" (String "]" _) => true
    | _ => false
    end in
  match s with
  | String "." t => after t
  | String "[" (String "]" t) => after t
  | _ => false
  end.

(** The scan of [stringToPath] with [rePropName]. *)
Fixpoint propNames (fuel : nat) (s : string) : list string :=
  match fuel with
  | O => []
  | S fuel' =>
      match s with
      | EmptyString => []
      | String c s' =>
          if isPathDelim c then
            match bracketNumber s with
            | Some (num, rest) => num :: propNames fuel' rest
            | None =>
                if emptyKeyAhead s then EmptyString :: propNames fuel' s'
                else propNames fuel' s'
            end
          else
            let '(key, rest) := span (fun x => negb (isPathDelim x)) s in
            key :: propNames fuel' rest
      end
  end.

Definition stringToPath (s : string) : list string :=
  (match s with
   | String "." _ => [EmptyString]
   | _ => []
   end) ++ propNames (S (len s)) s.

(** [reIsDeepProp]: a dot, or a bracket pair with no bracket in between. *)
Fixpoint isDeepProp (s : string) : bool :=
  match s with
  | EmptyString => false
  | String c s' =>
      Ascii.eqb c "."
      || (Ascii.eqb c "["
          && (let '(_, rest) :=
                span (fun x => negb (Ascii.eqb x "[" || Ascii.eqb x "]")) s' in
              match rest with String "]" _ => true | _ => false end))
      || isDeepProp s'
  end.

(** [isKey(path, object)] and [castPath]. *)
Definition castPath (path : string) (object : value) : list string :=
  let inObject :=
    match object with
    | JObj fs => hasField path fs
    | _ => false
    end in
  if negb (isDeepProp path) || inObject then [path] else stringToPath path.

(** An array index in canonical form. *)
Definition arrayIndex (k : string) : option nat :=
  if Nat.ltb 0 (len k) && Nat.eqb (count isDigit k) (len k)
     && (String.eqb k "0" || negb (startsWith "0" k))
  then Some (fold_left (fun acc c => 10 * acc + digitVal c)
               (list_ascii_of_string k) 0)
  else None.

(** [object[key]] *)
Definition getProp (object : value) (key : string) : value :=
  match object with
  | JObj fs => default JUndefined (getField key fs)
  | JArr items =>
      if String.eqb key "length" then JNum (Z.of_nat (length items))
      else match arrayIndex key with
           | Some i => default JUndefined (items !! i)
           | None => JUndefined
           end
  | JStr s =>
      if String.eqb key "length" then JNum (Z.of_nat (len s))
      else match arrayIndex key with
           | Some i =>
               if Nat.ltb i (len s) then JStr (substringTo 1 (substringFrom i s))
               else JUndefined
           | None => JUndefined
           end
  | _ => JUndefined
  end.

Definition isNullish (v : value) : bool :=
  match v with JUndefined | JNull => true | _ => false end.

(** [baseGet]: walk the path while the current object is not nullish. *)
Fixpoint walk (object : value) (path : list string) : value :=
  match path with
  | [] => object
  | k :: path' =>
      if isNullish object then JUndefined else walk (getProp object k) path'
  end.

(** [_.get(object, path)] *)
Definition get (object : value) (path : string) : value :=
  if isNullish object then JUndefined
  else match castPath path object with
       | [] => JUndefined
       | ks => walk object ks
       end.

End Lodash.

(* ===================================================================== *)
(** ** apps/runner/src/utils/input.utils.ts *)
(* ===================================================================== *)

Module InputUtils.
Import JsString Js Regex.

(** [/{{\s*([^}]+)\s*}}/] *)
Definition variableRegex : regex :=
  Seq (Lit "{{")
    (Seq (Star (Chr isWhiteSpace))
       (Seq (Group 1 (Plus (Chr (notChar "}"))))
          (Seq (Star (Chr isWhiteSpace)) (Lit "}}")))).

(** The class [[\w[\]]]. *)
Definition isPathChar (c : ascii) : bool :=
  isWordChar c || Ascii.eqb c "[" || Ascii.eqb c "]".

(** [/[\w[\]]+\.[\w[\]]+(\.[\w[\]]+)*/g] *)
Definition operatorsRegex : regex :=
  Seq (Plus (Chr isPathChar))
    (Seq (Chr (isChar "."))
       (Seq (Plus (Chr isPathChar))
          (Star (Group 1 (Seq (Chr (isChar ".")) (Plus (Chr isPathChar))))))).

(** The class of the two quote characters, single and double. *)
Definition isQuote (c : ascii) : bool :=
  Ascii.eqb c "'" || Nat.eqb (nat_of_ascii c) 34.

(** [_.isPlainObject] *)
Definition isPlainObject (v : value) : bool :=
  match v with JObj _ => true | _ => false end.

(** [_.isDate] *)
Definition isDate (v : value) : bool :=
  match v with JDate _ _ => true | _ => false end.

(** [stringifyInput]: the result is a string for plain objects, dates and
    nullish values, and the input itself otherwise. *)
Definition stringifyInput (input : value) : value :=
  match input with
  | JObj _ => JStr (default "undefined" (jsonStringify input))
  | JDate iso _ => JStr iso
  | JUndefined | JNull => JStr EmptyString
  | _ => input
  end.

(** The [extract] function registered in the expression parser. *)
Section Extract.

(** [/[.*+?^${}()|[\]\\]/] *)
Definition isRegExpSpecial (c : ascii) : bool :=
  existsb (Ascii.eqb c)
    (list_ascii_of_string ".*+?^${}()|[]\").

(** [template.replace(/[.*+?^${}()|[\]\\]/g, '\\$&')] *)
Fixpoint escapeTemplate (template : string) : string :=
  match template with
  | EmptyString => EmptyString
  | String c t =>
      if isRegExpSpecial c then String "\" (String c (escapeTemplate t))
      else String c (escapeTemplate t)
  end.

(** [escaped.replace(/\\\*\\\*\\\*+/g, '(.+)')]: every leftmost occurrence
    of backslash-star three times, followed by any further stars, becomes
    the text of a capturing group.  [inStars] says that the scan is inside
    the trailing [\*+] of an occurrence. *)
Fixpoint wildcards (inStars : bool) (escaped : string) : string :=
  match escaped with
  | EmptyString => EmptyString
  | String c rest =>
      let otherwise :=
        if inStars && Ascii.eqb c "*" then wildcards true rest
        else String c (wildcards false rest) in
      match rest with
      | String c2 (String c3 (String c4 (String c5 (String c6 rest')))) =>
          if Ascii.eqb c "\" && Ascii.eqb c2 "*" && Ascii.eqb c3 "\"
             && Ascii.eqb c4 "*" && Ascii.eqb c5 "\" && Ascii.eqb c6 "*"
          then "(.+)" +:+ wildcards true rest'
          else otherwise
      | _ => otherwise
      end
  end.

(** [new RegExp(source)] for the sources [wildcards] produces: an escaped
    syntax character, the group [(.+)], or an ordinary character.  Any other
    source is a [SyntaxError]. *)
Fixpoint parseRegExp (ngroups : nat) (source : string)
  : option (regex * nat) :=
  match source with
  | EmptyString => Some (Eps, ngroups)
  | String c rest =>
      if Ascii.eqb c "\" then
        match rest with
        | String c' rest' =>
            if isRegExpSpecial c' then
              '(r, n) ← parseRegExp ngroups rest';
              Some (Seq (Chr (isChar c')) r, n)
            else None
        | EmptyString => None
        end
      else if Ascii.eqb c "(" then
        match rest with
        | String c2 (String c3 (String c4 rest')) =>
            if Ascii.eqb c2 "." && Ascii.eqb c3 "+" && Ascii.eqb c4 ")" then
              '(r, n) ← parseRegExp (S ngroups) rest';
              Some (Seq (Group (S ngroups) (Plus (Chr dot))) r, n)
            else None
        | _ => None
        end
      else if isRegExpSpecial c then None
      else '(r, n) ← parseRegExp ngroups rest; Some (Seq (Chr (isChar c)) r, n)
  end.

Definition templateSource (template : string) : string :=
  wildcards false (escapeTemplate template).

(** [str.match(regex)] is not [null]. *)
Definition templateMatches (template str : string) : bool :=
  match parseRegExp 0 (templateSource template) with
  | Some (re, _) => bool_decide (is_Some (exec re str))
  | None => false
  end.

(** [extract(str, template, replace)] *)
Definition extract (str template replace : string) : result string :=
  let escaped := escapeTemplate template in
  let regex := wildcards false escaped in
  match parseRegExp 0 regex with
  | None => Throw (SyntaxError "Invalid regular expression")
  | Some (re, ngroups) =>
      match exec re str with
      | Some _ => Ok (replaceFirst re ngroups str replace)
      | None => Ok EmptyString
      end
  end.

End Extract.

Section Resolver.

(** [_.get] of the lodash library, taken as a parameter. *)
Variable get : value -> string -> value.

(** [mathjs.parser().evaluate], with the functions [substring],
    [lowercase], [uppercase] and [extract] registered: the evaluator of the
    mathjs library, taken as a parameter. *)
Variable evaluate : string -> result value.

(** One step of the [operators.reduce] of [calculateExpression]. *)
Definition substituteOperator (input : string) (references : value)
           (prev : string) (operatorMatch : Match) : string :=
  let quoteCount := count isQuote (substringTo (index operatorMatch) input) in
  let isBetweenQuotes := Nat.ltb 0 quoteCount && Nat.eqb (quoteCount mod 2) 1 in
  if isBetweenQuotes then prev
  else
    let value := get references (text operatorMatch) in
    let value :=
      match typeof value with
      | TString | TObject =>
          JStr (dquote +:+ toString (stringifyInput value) +:+ dquote)
      | _ => value
      end in
    replace prev (text operatorMatch) (toString value).

(** The [expression] handed to the evaluator. *)
Definition substituteOperators (input : string) (references : value) : string :=
  fold_left (substituteOperator input references)
    (matchAll operatorsRegex input) input.

Definition calculateExpression (input : string) (references : value)
  : result value :=
  let operators := matchAll operatorsRegex input in
  match operators with
  | [op] =>
      if String.eqb (text op) (trim input)
      then Ok (get references input)
      else evaluate (substituteOperators input references)
  | _ => evaluate (substituteOperators input references)
  end.

(** Text of capturing group 1 of a match of [variableRegex]. *)
Definition group1 (m : Match) : string :=
  default EmptyString (getCapture 1 (groups m)).

(** The [variables.reduce] of [parseInput]. *)
Fixpoint replaceVariables (variables : list Match) (outputs : value)
         (prev : string) : result string :=
  match variables with
  | [] => Ok prev
  | variableMatch :: rest =>
      v ← calculateExpression (trim (group1 variableMatch)) outputs;
      replaceVariables rest outputs
        (replace prev (text variableMatch) (toString (stringifyInput v)))
  end.

Definition parseString (input : string) (outputs : value) : result value :=
  let variables := matchAll variableRegex input in
  match variables with
  | [v] =>
      if String.eqb (trim input) (text v)
      then calculateExpression (trim (group1 v)) outputs
      else JStr <$> replaceVariables variables outputs input
  | _ => JStr <$> replaceVariables variables outputs input
  end.

(** Modelled from the spec: [isEmptyObj] of libs/common/src/utils/object.utils
    is not part of the sources at hand; per the resolver's rule "an object
    that resolves to an empty object" it holds of an object without own
    enumerable properties. *)
Definition isEmptyObj (v : value) : bool :=
  match v with
  | JObj [] => true
  | JDate _ _ => true
  | _ => false
  end.

(** [Object.entries(v)] *)
Definition entries (v : value) : list (string * value) :=
  match v with
  | JObj fs => fs
  | _ => []
  end.

Fixpoint parseInput (input : value) (outputs : value) {struct input}
  : result value :=
  if negb (truthy input) then Ok input
  else
    match input with
    | JStr s => parseString s outputs
    | JArr items =>
        JArr <$>
          (fix each (xs : list value) : result (list value) :=
             match xs with
             | [] => Ok []
             | x :: xs' =>
                 y ← parseInput x outputs; ys ← each xs'; Ok (y :: ys)
             end) items
    | JObj fields =>
        if isEmptyObj input then Ok JUndefined
        else
          JObj <$>
            (fix each (fs prev : list (string * value))
               : result (list (string * value)) :=
               match fs with
               | [] => Ok prev
               | (key, x) :: fs' =>
                   y ← parseInput x outputs; each fs' (assignField key y prev)
               end) fields []
    | JDate _ _ =>
        if isEmptyObj input then Ok JUndefined else Ok (JObj [])
    | _ => Ok input
    end.

(** The loop of [parseStepInputs] over [Object.entries(inputs)]. *)
Fixpoint parseEntries (fs : list (string * value)) (outputs : value)
         (parsedInputs : list (string * value))
  : result (list (string * value)) :=
  match fs with
  | [] => Ok parsedInputs
  | (key, x) :: fs' =>
      y ← parseInput x outputs;
      parseEntries fs' outputs (assignField key y parsedInputs)
  end.

Definition parseStepInputs (inputs : list (string * value)) (outputs : value)
  : result (list (string * value)) :=
  parseEntries inputs outputs [].

End Resolver.

End InputUtils.

(* ===================================================================== *)
(** ** apps/runner/src/services/runner.service.ts *)
(* ===================================================================== *)

Module RunnerModel.
Import Js.

(** *** Entities (identifiers are the text of their ObjectIds) *)

Record Integration : Type := {
  integration_name : string;
  integration_key : string;
  integration_parentKey : option string
}.

Record IntegrationAction : Type := {
  ia_key : string;
  ia_name : string;
  ia_integration : string
}.

Record TriggerPopulate : Type := {
  tp_operationId : option string;
  tp_inputs : list (string * value)
}.

Record IntegrationTrigger : Type := {
  it_id : string;
  it_name : string;
  it_integration : string;
  it_idKey : option string;
  it_triggerPopulate : option TriggerPopulate
}.

Record IntegrationAccount : Type := {
  iacc_key : string
}.

Record AccountCredential : Type := {
  ac_encryptedCredentials : string;
  ac_fields : list (string * value);
  ac_integrationAccount : option string
}.

Record Workflow : Type := {
  wf_id : string;
  wf_owner : string;
  wf_name : string;
  wf_runOnFailure : option string
}.

(** An edge [{ action, condition? }] of [nextActions]. *)
Record WorkflowNextAction : Type := {
  na_action : string;
  na_condition : option string
}.

Record WorkflowAction : Type := {
  wa_id : string;
  wa_owner : string;
  wa_workflow : string;
  wa_integrationAction : string;
  wa_inputs : list (string * value);
  wa_credentials : option string;
  wa_isRootAction : bool;
  wa_nextActions : option (list WorkflowNextAction)
}.

Record WorkflowTrigger : Type := {
  wt_id : string;
  wt_owner : string;
  wt_workflow : string;
  wt_integrationTrigger : string;
  wt_inputs : list (string * value);
  wt_credentials : option string;
  wt_lastId : option string
}.

Record WorkflowRun : Type := { run_id : nat }.

(** The per-action record returned by [addRunningAction]. *)
Record WorkflowRunAction : Type := {
  ra_workflowAction : string;
  ra_integrationName : string;
  ra_operationName : string
}.

Record WorkflowSleep : Type := {
  ws_workflowRun : nat;
  ws_workflowAction : string;
  ws_nextActionInputs : option (list (string * value));
  ws_sleepUntil : string
}.

Inductive StartedBy : Type := ByUser | ByTrigger | ByWorkflowFailure.

(** An item the trigger poll returned, with the value of its [idKey]. *)
Inductive ItemId : Type :=
| IdString (s : string)
| IdNumber (n : Z).

(** [id.toString()] *)
Definition idToString (i : ItemId) : string :=
  match i with
  | IdString s => s
  | IdNumber n => pretty n
  end.

Record TriggerItem : Type := {
  ti_id : ItemId;
  ti_item : list (string * value)
}.

(** *** The operation invoker *)

Inductive Operation : Type :=
| OfTrigger (t : IntegrationTrigger)
| OfAction (a : IntegrationAction).

Record OperationRunOptions : Type := {
  ro_definition : string;
  ro_integration : Integration;
  ro_integrationAccount : option IntegrationAccount;
  ro_operation : Operation;
  ro_inputs : list (string * value);
  ro_credentials : list (string * value);
  ro_accountCredential : option AccountCredential
}.

Record RunResponse : Type := {
  rr_outputs : list (string * value);
  rr_condition : value;
  rr_sleepUntil : option string
}.

(** An operation either answers or fails with a message and, possibly, the
    text of the raw response. *)
Inductive OperationResult : Type :=
| Answer (r : RunResponse)
| Failure (message : string) (responseText : option string).

(** *** Collaborators: stores that the engine reads, and external calls *)

Record World : Type := {
  integrations : gmap string Integration;
  integrationActions : gmap string IntegrationAction;
  (** [integrationActionService.findOne({ key })] *)
  integrationActionByKey : option string -> option IntegrationAction;
  integrationTriggers : gmap string IntegrationTrigger;
  integrationAccounts : gmap string IntegrationAccount;
  accountCredentials : gmap string AccountCredential;
  workflows : gmap string Workflow;
  workflowActions : list WorkflowAction;
  (** [configService.get('CREDENTIALS_AES_KEY')] *)
  credentialsAesKey : option string;
  (** [JSON.parse(CryptoJS.AES.decrypt(blob, key).toString(Utf8))] *)
  decryptCredentials : string -> string -> result (list (string * value));
  (** [operationRunnerService.run(definition, opts)] *)
  runOperation : OperationRunOptions -> OperationResult;
  (** [_.get] and the expression evaluator used by [parseStepInputs] *)
  lodashGet : value -> string -> value;
  evaluate : string -> result value;
  (** [extractTriggerItems(idKey, outputs)] of utils/trigger.utils *)
  extractTriggerItems : string -> list (string * value) -> list TriggerItem
}.

(** *** Effects: what the engine persists, logs and invokes *)

Inductive LogLevel : Type := LDebug | LLog | LError.

Inductive Event : Type :=
| Logged (level : LogLevel) (message : string)
| CreatedRun (run : WorkflowRun) (workflow : string) (startedBy : StartedBy)
             (trigger : option string)
| MarkedTriggerAsCompleted (run : WorkflowRun) (success : bool)
                           (triggerIds : list string)
| MarkedTriggerAsFailed (run : WorkflowRun) (message : string)
                        (response : option string)
| UpdatedTriggerLastId (trigger : string) (lastId : string)
| AddedRunningAction (run : WorkflowRun) (action : WorkflowRunAction)
| MarkedActionAsCompleted (run : WorkflowRun) (action : WorkflowRunAction)
| MarkedActionAsFailed (run : WorkflowRun) (action : WorkflowRunAction)
                       (message : string) (response : option string)
| RanOperation (opts : OperationRunOptions)
| SleptWorkflowRun (sleep : WorkflowSleep)
| WokeUpWorkflowRun (run : WorkflowRun)
| MarkedWorkflowRunAsCompleted (run : WorkflowRun).

(** The engine's view of persistence: the calls made so far (oldest first),
    the number of runs created, and the cursor of every trigger. *)
Record State : Type := {
  events : list Event;
  runsCreated : nat;
  cursors : gmap string string
}.

Definition initialState : State :=
  {| events := []; runsCreated := 0; cursors := ∅ |}.

(** Outcome of an asynchronous call: it resolves, it rejects, or the model
    ran out of fuel before either. *)
Inductive outcome (A : Type) : Type :=
| Resolved (a : A) (st : State)
| Rejected (e : exn) (st : State)
| OutOfFuel.
Arguments Resolved {A} a st.
Arguments Rejected {A} e st.
Arguments OutOfFuel {A}.

Definition M (A : Type) : Type := State -> outcome A.

Definition ret {A : Type} (a : A) : M A := fun st => Resolved a st.

Definition bindM {A B : Type} (m : M A) (f : A -> M B) : M B :=
  fun st =>
    match m st with
    | Resolved a st' => f a st'
    | Rejected e st' => Rejected e st'
    | OutOfFuel => OutOfFuel
    end.

Definition throw {A : Type} (e : exn) : M A := fun st => Rejected e st.

(** [try { m } catch (e) { handler(e) }] *)
Definition tryCatch {A : Type} (m : M A) (handler : exn -> M A) : M A :=
  fun st =>
    match m st with
    | Rejected e st' => handler e st'
    | o => o
    end.

Definition emit (e : Event) : M unit :=
  fun st =>
    Resolved tt {| events := events st ++ [e];
                   runsCreated := runsCreated st;
                   cursors := cursors st |}.

Definition lift {A : Type} (r : result A) : M A :=
  match r with
  | Ok a => ret a
  | Throw e => throw e
  end.

End RunnerModel.

#[global] Instance runner_bind : MBind RunnerModel.M :=
  fun A B f m => RunnerModel.bindM m f.
#[global] Instance runner_ret : MRet RunnerModel.M := @RunnerModel.ret.

Module RunnerService.
Import Js RunnerModel.

Section Service.

Variable w : World.

Definition exnMessage (e : exn) : string :=
  match e with
  | TypeError m | SyntaxError m | Error m | NotFoundException m
  | BadRequestException m | InternalServerErrorException m => m
  end.

(** [{ ...a, ...b }] *)
Definition spread (a b : list (string * value)) : list (string * value) :=
  fold_left (fun acc kv => setField (fst kv) (snd kv) acc) b a.

(** Modelled from the spec: [workflowRunService.createOne] is not part of
    the sources at hand; it creates one run record and returns it. *)
Definition createRun (workflow : string) (startedBy : StartedBy)
           (trigger : option string) : M WorkflowRun :=
  fun st =>
    let run := {| run_id := runsCreated st |} in
    Resolved run
      {| events := events st ++ [CreatedRun run workflow startedBy trigger];
         runsCreated := S (runsCreated st);
         cursors := cursors st |}.

(** Modelled from the spec: [workflowRunService.findById] is not part of the
    sources at hand; a run is found when it has been created. *)
Definition findRunById (id : nat) : M (option WorkflowRun) :=
  fun st =>
    Resolved (if Nat.ltb id (runsCreated st) then Some {| run_id := id |}
              else None) st.

(** Modelled from the spec: [workflowTriggerService.updateOne(id, { lastId })]
    is not part of the sources at hand; it stores the trigger's cursor. *)
Definition updateTriggerLastId (trigger lastId : string) : M unit :=
  fun st =>
    Resolved tt
      {| events := events st ++ [UpdatedTriggerLastId trigger lastId];
         runsCreated := runsCreated st;
         cursors := <[trigger := lastId]> (cursors st) |}.

(** [workflowActionService.findById] *)
Definition findWorkflowActionById (id : string) : option WorkflowAction :=
  List.find (fun a => String.eqb (wa_id a) id) (workflowActions w).

(** [workflowActionService.find({ workflow, isRootAction: true })] *)
Definition findRootActions (workflow : string) : list WorkflowAction :=
  List.filter (fun a => String.eqb (wa_workflow a) workflow && wa_isRootAction a)
    (workflowActions w).

(** [workflowActionService.findByIds] *)
Definition findWorkflowActionsByIds (ids : list string) : list WorkflowAction :=
  List.filter (fun a => existsb (String.eqb (wa_id a)) ids) (workflowActions w).

(** [Promise.all] over calls started in list order.  The calls run
    concurrently; the model follows one schedule, in which each call runs
    to its end before the next one starts.  A rejection does not cancel
    the calls started with it: the aggregate rejects with the first
    rejection of the schedule, and the state of the rejected aggregate is
    the state once all the calls have finished (in JavaScript the caller
    is resumed at the first rejection, while the other calls go on). *)
Fixpoint promiseAll (promises : list (M unit)) : M unit :=
  fun st =>
    match promises with
    | [] => Resolved tt st
    | p :: rest =>
        match p st with
        | Resolved _ st' => promiseAll rest st'
        | Rejected e st' =>
            match promiseAll rest st' with
            | Resolved _ st'' | Rejected _ st'' => Rejected e st''
            | OutOfFuel => OutOfFuel
            end
        | OutOfFuel => OutOfFuel
        end
    end.

(** [for (const x of xs) { await body(x) }] *)
Fixpoint forEach {A : Type} (xs : list A) (body : A -> M unit) : M unit :=
  match xs with
  | [] => ret tt
  | x :: xs' => _ ← body x; forEach xs' body
  end.

Definition getCredentialsAndIntegrationAccount
           (credentialsId : option string) (onError : M unit)
  : M (list (string * value) * option AccountCredential
       * option IntegrationAccount) :=
  if truthyStr credentialsId then
    match accountCredentials w !! default EmptyString credentialsId with
    | None =>
        _ ← onError;
        throw (NotFoundException "Account credentials not found")
    | Some accountCredential =>
        if truthyStr (credentialsAesKey w) then
          unencryptedCredentials ←
            lift (decryptCredentials w
                    (ac_encryptedCredentials accountCredential)
                    (default EmptyString (credentialsAesKey w)));
          let credentials :=
            spread (ac_fields accountCredential) unencryptedCredentials in
          let integrationAccount :=
            if truthyStr (ac_integrationAccount accountCredential)
            then integrationAccounts w
                   !! default EmptyString (ac_integrationAccount accountCredential)
            else None in
          ret (credentials, Some accountCredential, integrationAccount)
        else throw (InternalServerErrorException "Credentials key not set")
    end
  else ret ([], None, None).

(** [e.response?.text || undefined] *)
Definition responseText (r : option string) : option string :=
  if truthyStr r then r else None.

(** [onTriggerFailure], given the failure cascade. *)
Definition onTriggerFailure (runWorkflowOnFailure : string -> M unit)
           (workflowId : string) (workflowRun : WorkflowRun)
           (errorMessage : string) (errorResponse : option string) : M unit :=
  _ ← emit (MarkedTriggerAsFailed workflowRun errorMessage errorResponse);
  runWorkflowOnFailure workflowId.

(** [onActionFailure], given the failure cascade. *)
Definition onActionFailure (runWorkflowOnFailure : string -> M unit)
           (workflowId : string) (workflowRun : WorkflowRun)
           (workflowAction : WorkflowRunAction)
           (errorMessage : string) (errorResponse : option string) : M unit :=
  _ ← emit (MarkedActionAsFailed workflowRun workflowAction
              errorMessage errorResponse);
  runWorkflowOnFailure workflowId.

(** The filter "actions with conditions not met" of [runWorkflowActionsTree]. *)
Definition conditionMet (runResponse : RunResponse)
           (nextAction : WorkflowNextAction) : bool :=
  if negb (truthyStr (na_condition nextAction)) then true
  else String.eqb (default EmptyString (na_condition nextAction))
         (toString (rr_condition runResponse)).

Definition definitionKey (integration : Integration) : string :=
  default (integration_key integration) (integration_parentKey integration).

(** The three mutually recursive calls of the executor.  [fuel] bounds the
    depth of the call chain: the action graph may contain a cycle and
    failure workflows may refer to each other. *)
Fixpoint runWorkflowActionsTree (fuel : nat) (workflowAction : WorkflowAction)
         (previousOutputs : list (string * value)) (workflowRun : WorkflowRun)
         {struct fuel} : M unit :=
  match fuel with
  | O => fun _ => OutOfFuel
  | S fuel' =>
      _ ← emit (Logged LLog ("Running workflow action " +:+ wa_id workflowAction
                             +:+ " for workflow " +:+ wa_workflow workflowAction));
      match integrationActions w !! wa_integrationAction workflowAction with
      | None =>
          throw (NotFoundException
                   ("IntegrationAction " +:+ wa_integrationAction workflowAction
                    +:+ " not found"))
      | Some integrationAction =>
      match integrations w !! ia_integration integrationAction with
      | None =>
          throw (NotFoundException
                   ("Integration " +:+ ia_integration integrationAction
                    +:+ " not found"))
      | Some integration =>
          let workflowRunAction :=
            {| ra_workflowAction := wa_id workflowAction;
               ra_integrationName := integration_name integration;
               ra_operationName := ia_name integrationAction |} in
          _ ← emit (AddedRunningAction workflowRun workflowRunAction);
          '(credentials, accountCredential, integrationAccount) ←
            getCredentialsAndIntegrationAccount (wa_credentials workflowAction)
              (onActionFailure (runWorkflowOnFailure fuel')
                 (wa_workflow workflowAction) workflowRun workflowRunAction
                 "Credentials not found" None);
          match InputUtils.parseStepInputs (lodashGet w) (evaluate w)
                  (wa_inputs workflowAction) (JObj previousOutputs) with
          | Throw e =>
              _ ← onActionFailure (runWorkflowOnFailure fuel')
                    (wa_workflow workflowAction) workflowRun workflowRunAction
                    ("Invalid inputs (" +:+ exnMessage e +:+ ")") None;
              emit (Logged LError
                      ("Parse step inputs for " +:+ wa_id workflowAction
                       +:+ " failed with error " +:+ exnMessage e))
          | Ok inputs =>
              let opts :=
                {| ro_definition := definitionKey integration;
                   ro_integration := integration;
                   ro_integrationAccount := integrationAccount;
                   ro_operation := OfAction integrationAction;
                   ro_inputs := inputs;
                   ro_credentials := credentials;
                   ro_accountCredential := accountCredential |} in
              _ ← emit (RanOperation opts);
              match runOperation w opts with
              | Failure message response =>
                  _ ← onActionFailure (runWorkflowOnFailure fuel')
                        (wa_workflow workflowAction) workflowRun
                        workflowRunAction message (responseText response);
                  emit (Logged LError
                          ("Run WorkflowAction " +:+ wa_id workflowAction
                           +:+ " failed with error "
                           +:+ default "undefined" response))
              | Answer runResponse =>
                  _ ← emit (MarkedActionAsCompleted workflowRun workflowRunAction);
                  let nextActionInputs :=
                    setField (wa_id workflowAction)
                      (JObj (rr_outputs runResponse)) previousOutputs in
                  match rr_sleepUntil runResponse with
                  | Some sleepUntil =>
                      emit (SleptWorkflowRun
                              {| ws_workflowRun := run_id workflowRun;
                                 ws_workflowAction := wa_id workflowAction;
                                 ws_nextActionInputs := Some nextActionInputs;
                                 ws_sleepUntil := sleepUntil |})
                  | None =>
                      let nextActions :=
                        List.filter (conditionMet runResponse)
                          (default [] (wa_nextActions workflowAction)) in
                      forEach nextActions
                        (fun workflowNextAction =>
                           match findWorkflowActionById
                                   (na_action workflowNextAction) with
                           | None =>
                               throw (Error
                                        ("WorkflowAction "
                                         +:+ na_action workflowNextAction
                                         +:+ " not found"))
                           | Some nextAction =>
                               runWorkflowActionsTree fuel' nextAction
                                 nextActionInputs workflowRun
                           end)
                  end
              end
          end
      end
      end
  end

with runWorkflowActions (fuel : nat) (rootActions : list WorkflowAction)
       (triggerOutputsList : list (list (string * value)))
       (workflowRun : WorkflowRun) {struct fuel} : M unit :=
  match fuel with
  | O => fun _ => OutOfFuel
  | S fuel' =>
      _ ← forEach triggerOutputsList
            (fun triggerOutputs =>
               promiseAll
                 (map (fun action =>
                         runWorkflowActionsTree fuel' action triggerOutputs
                           workflowRun) rootActions));
      emit (MarkedWorkflowRunAsCompleted workflowRun)
  end

with runWorkflowOnFailure (fuel : nat) (workflowId : string)
       {struct fuel} : M unit :=
  match fuel with
  | O => fun _ => OutOfFuel
  | S fuel' =>
      match workflows w !! workflowId with
      | Some workflow =>
          if truthyStr (wf_runOnFailure workflow) then
            let target := default EmptyString (wf_runOnFailure workflow) in
            workflowRun ← createRun target ByWorkflowFailure None;
            (* startWorkflowRun(target, {}, workflowRun) *)
            runWorkflowActions fuel' (findRootActions target) [[]] workflowRun
          else ret tt
      | None => ret tt
      end
  end.

(** [startWorkflowRun] *)
Definition startWorkflowRun (fuel : nat) (workflowId : string)
           (triggerOutputs : list (string * value)) (workflowRun : WorkflowRun)
  : M unit :=
  runWorkflowActions fuel (findRootActions workflowId) [triggerOutputs]
    workflowRun.

(** [populateTrigger]: outputs of the populate operation of the
    x-triggerPopulate extension. *)
Definition populateTrigger (definition : string)
           (outputs : list (string * value)) (opts : OperationRunOptions)
  : M (list (string * value)) :=
  let triggerPopulate :=
    match ro_operation opts with
    | OfTrigger t => it_triggerPopulate t
    | OfAction _ => None
    end in
  match triggerPopulate,
        integrationActionByKey w (triggerPopulate ≫= tp_operationId) with
  | Some tp, Some integrationAction =>
      parsedInputs ←
        lift (InputUtils.parseStepInputs (lodashGet w) (evaluate w)
                (tp_inputs tp)
                (JObj [("inputs", JObj (ro_inputs opts));
                       ("outputs", JObj outputs)]));
      let opts' :=
        {| ro_definition := ro_definition opts;
           ro_integration := ro_integration opts;
           ro_integrationAccount := ro_integrationAccount opts;
           ro_operation := OfAction integrationAction;
           ro_inputs := parsedInputs;
           ro_credentials := ro_credentials opts;
           ro_accountCredential := ro_accountCredential opts |} in
      _ ← emit (RanOperation opts');
      match runOperation w opts' with
      | Answer populateOutputs => ret (rr_outputs populateOutputs)
      | Failure message _ => throw (Error message)
      end
  | _, _ => ret []
  end.

(** [triggerIds.indexOf(id)], [None] standing for [-1]. *)
Fixpoint indexOfId (id : string) (triggerIds : list string) : option nat :=
  match triggerIds with
  | [] => None
  | x :: rest => if String.eqb x id then Some 0 else S <$> indexOfId id rest
  end.

(** The dedup step of [runWorkflowTriggerCheck]: the items of the poll
    (newest first) that are new with respect to the cursor [lastId]. *)
Definition selectNewItems (lastId : option string)
           (triggerItems : list TriggerItem) : list TriggerItem :=
  let triggerIds := map (fun item => idToString (ti_id item)) triggerItems in
  if truthyStr lastId then
    match indexOfId (default EmptyString lastId) triggerIds with
    | None => triggerItems
    | Some lastItemIndex => take lastItemIndex triggerItems
    end
  else take 1 triggerItems.

(** The loop that enriches every new item when x-triggerPopulate is set. *)
Fixpoint populateItems (definition : string) (opts : OperationRunOptions)
         (newItems : list TriggerItem) : M (list TriggerItem) :=
  match newItems with
  | [] => ret []
  | newItem :: rest =>
      populatedOutputs ← populateTrigger definition (ti_item newItem) opts;
      rest' ← populateItems definition opts rest;
      ret ({| ti_id := ti_id newItem;
              ti_item := spread populatedOutputs (ti_item newItem) |} :: rest')
  end.

Definition runWorkflowTriggerCheck (fuel : nat)
           (workflowTrigger : WorkflowTrigger) (startedBy : StartedBy)
  : M unit :=
  _ ← emit (Logged LDebug ("Checking for trigger " +:+ wt_id workflowTrigger));
  let rootActions := findRootActions (wt_workflow workflowTrigger) in
  match rootActions with
  | [] =>
      emit (Logged LDebug ("Trigger " +:+ wt_id workflowTrigger
                           +:+ " doesn't have first action"))
  | _ :: _ =>
  match integrationTriggers w !! wt_integrationTrigger workflowTrigger with
  | None =>
      throw (NotFoundException
               ("IntegrationTrigger " +:+ wt_integrationTrigger workflowTrigger
                +:+ " not found"))
  | Some integrationTrigger =>
  if negb (truthyStr (it_idKey integrationTrigger)) then
    throw (Error ("Tried to run an integration trigger without idKey (id: "
                  +:+ it_id integrationTrigger +:+ ")"))
  else
  match integrations w !! it_integration integrationTrigger with
  | None =>
      throw (NotFoundException
               ("Integration " +:+ it_integration integrationTrigger
                +:+ " not found"))
  | Some integration =>
      workflowRun ← createRun (wt_workflow workflowTrigger) startedBy
                      (Some (wt_id workflowTrigger));
      '(credentials, accountCredential, integrationAccount) ←
        getCredentialsAndIntegrationAccount (wt_credentials workflowTrigger)
          (onTriggerFailure (runWorkflowOnFailure fuel)
             (wt_workflow workflowTrigger) workflowRun
             "Credentials not found" None);
      match InputUtils.parseStepInputs (lodashGet w) (evaluate w)
              (wt_inputs workflowTrigger) (JObj []) with
      | Throw e =>
          _ ← onTriggerFailure (runWorkflowOnFailure fuel)
                (wt_workflow workflowTrigger) workflowRun
                ("Invalid inputs (" +:+ exnMessage e +:+ ")") None;
          emit (Logged LError
                  ("Parse step inputs for " +:+ wt_id workflowTrigger
                   +:+ " failed with error " +:+ exnMessage e))
      | Ok inputs =>
          let definition := definitionKey integration in
          let opts :=
            {| ro_definition := definition;
               ro_integration := integration;
               ro_integrationAccount := integrationAccount;
               ro_operation := OfTrigger integrationTrigger;
               ro_inputs := inputs;
               ro_credentials := credentials;
               ro_accountCredential := accountCredential |} in
          _ ← emit (RanOperation opts);
          match runOperation w opts with
          | Failure message response =>
              _ ← onTriggerFailure (runWorkflowOnFailure fuel)
                    (wt_workflow workflowTrigger) workflowRun message
                    (responseText response);
              emit (Logged LError
                      ("Run WorkflowTrigger " +:+ wt_id workflowTrigger
                       +:+ " failed with error "
                       +:+ default "undefined" response))
          | Answer runResponse =>
              let triggerItems :=
                extractTriggerItems w
                  (default EmptyString (it_idKey integrationTrigger))
                  (rr_outputs runResponse) in
              let triggerIds :=
                map (fun item => idToString (ti_id item)) triggerItems in
              let newItems :=
                selectNewItems (wt_lastId workflowTrigger) triggerItems in
              match newItems with
              | [] =>
                  _ ← emit (Logged LDebug
                              ("Trigger condition not satisfied for trigger "
                               +:+ wt_id workflowTrigger));
                  emit (MarkedTriggerAsCompleted workflowRun false
                          (take 1 triggerIds))
              | _ :: _ =>
                  _ ← emit (Logged LLog
                              ("Trigger condition satisfied for trigger "
                               +:+ wt_id workflowTrigger));
                  newItems ←
                    (if truthyStr (it_triggerPopulate integrationTrigger
                                   ≫= tp_operationId)
                     then populateItems definition opts newItems
                     else ret newItems);
                  _ ← emit (MarkedTriggerAsCompleted workflowRun true triggerIds);
                  _ ← match triggerIds with
                      | newest :: _ =>
                          updateTriggerLastId (wt_id workflowTrigger) newest
                      | [] => ret tt
                      end;
                  let triggerOutputsList :=
                    map (fun data =>
                           [(wt_id workflowTrigger, JObj (ti_item data))])
                      (reverse newItems) in
                  runWorkflowActions fuel rootActions triggerOutputsList
                    workflowRun
              end
          end
      end
  end
  end
  end.

Definition wakeUpWorkflowRun (fuel : nat) (workflowSleep : WorkflowSleep)
  : M unit :=
  workflowRun ← findRunById (ws_workflowRun workflowSleep);
  match workflowRun, findWorkflowActionById (ws_workflowAction workflowSleep) with
  | Some workflowRun, Some workflowAction =>
      _ ← emit (WokeUpWorkflowRun workflowRun);
      let nextActionInputs := default [] (ws_nextActionInputs workflowSleep) in
      match wa_nextActions workflowAction with
      | None =>
          throw (TypeError "Cannot read properties of undefined (reading 'map')")
      | Some nextActions =>
          let actions := findWorkflowActionsByIds (map na_action nextActions) in
          _ ← promiseAll
                (map (fun action =>
                        runWorkflowActionsTree fuel action nextActionInputs
                          workflowRun) actions);
          emit (MarkedWorkflowRunAsCompleted workflowRun)
      end
  | _, _ => ret tt
  end.

End Service.

End RunnerService.

(* ===================================================================== *)
(** ** apps/api/src/workflows/services/workflow.service.ts *)
(* ===================================================================== *)

Module WorkflowService.
Import Js RunnerModel.

(** The fields of a [DeepPartial<Workflow>] that an update may carry. *)
Record WorkflowUpdate : Type := {
  up_name : option string;
  up_runOnFailure : option string
}.

(** The workflow collection, keyed by identifier. *)
Definition Store : Type := gmap string Workflow.

(** [findById(id, opts)]; the options may carry a filter. *)
Definition findById (id : string) (opts : option (Workflow -> bool))
           (store : Store) : option Workflow :=
  match store !! id with
  | Some workflow =>
      if default (fun _ => true) opts workflow then Some workflow else None
  | None => None
  end.

Definition applyUpdate (record : WorkflowUpdate) (workflow : Workflow)
  : Workflow :=
  {| wf_id := wf_id workflow;
     wf_owner := wf_owner workflow;
     wf_name := default (wf_name workflow) (up_name record);
     wf_runOnFailure :=
       match up_runOnFailure record with
       | Some target => Some target
       | None => wf_runOnFailure workflow
       end |}.

(** Modelled from the spec: [BaseService.updateOne] is not part of the
    sources at hand; it writes the fields of the update into the stored
    record and returns the updated record. *)
Definition superUpdateOne (id : string) (record : WorkflowUpdate)
           (opts : option (Workflow -> bool)) (store : Store)
  : result Workflow * Store :=
  match findById id opts store with
  | Some workflow =>
      let updated := applyUpdate record workflow in
      (Ok updated, <[id := updated]> store)
  | None => (Throw (NotFoundException "Unable to find Workflow"), store)
  end.

(** [WorkflowService.updateOne]: the outcome and the collection afterwards. *)
Definition updateOne (id : string) (record : WorkflowUpdate)
           (opts : option (Workflow -> bool)) (store : Store)
  : result Workflow * Store :=
  match findById id opts store with
  | None => (Throw (NotFoundException "Not Found"), store)
  | Some workflow =>
      if bool_decide (up_runOnFailure record = Some (wf_id workflow)) then
        (Throw (BadRequestException
                  "Run On Failure cannot be set with the same workflow ID."),
         store)
      else superUpdateOne id record opts store
  end.

End WorkflowService.

(* ===================================================================== *)
(** ** Further string and array operations of JavaScript *)
(* ===================================================================== *)

Module JsText.
Import JsString.

(** Upper case of a character: the letters a to z, and the accented
    letters of Latin-1 other than the division sign.  The upper case of
    the micro sign, of the sharp s and of y with diaeresis is not a code
    unit below 256: text with these three letters is outside the model of
    [toUpperCase]. *)
Definition toUpperChar (c : ascii) : ascii :=
  let n := nat_of_ascii c in
  if (Nat.leb 97 n && Nat.leb n 122)
     || (Nat.leb 224 n && Nat.leb n 254 && negb (Nat.eqb n 247))
  then ascii_of_nat (n - 32) else c.

Definition toLowerChar (c : ascii) : ascii :=
  let n := nat_of_ascii c in
  if (Nat.leb 65 n && Nat.leb n 90)
     || (Nat.leb 192 n && Nat.leb n 222 && negb (Nat.eqb n 215))
  then ascii_of_nat (n + 32) else c.

Fixpoint mapChars (f : ascii -> ascii) (s : string) : string :=
  match s with
  | EmptyString => EmptyString
  | String c s' => String (f c) (mapChars f s')
  end.

(** [s.toUpperCase()] and [s.toLowerCase()] *)
Definition toUpperCase (s : string) : string := mapChars toUpperChar s.

Definition toLowerCase (s : string) : string := mapChars toLowerChar s.

(** [s.includes(p)] *)
Definition includes (p s : string) : bool :=
  match indexOf p s with Some _ => true | None => false end.

(** [s.split(sep)] for a separator of one character: the pieces between
    the separators, at least one. *)
Fixpoint split (sep : ascii) (s : string) : list string :=
  match s with
  | EmptyString => [EmptyString]
  | String c s' =>
      if Ascii.eqb c sep then EmptyString :: split sep s'
      else match split sep s' with
           | piece :: pieces => String c piece :: pieces
           | [] => [String c EmptyString]
           end
  end.

(** [arr.pop()], as a read of the last element. *)
Definition pop {A : Type} (arr : list A) : option A := last arr.

(** [arr.includes(x)] on strings. *)
Definition arrayIncludes (arr : list string) (x : string) : bool :=
  existsb (String.eqb x) arr.

(** [Array.from(new Set(arr))]: the first occurrence of every element, in
    order. *)
Fixpoint uniqueFrom (seen arr : list string) : list string :=
  match arr with
  | [] => []
  | x :: arr' =>
      if arrayIncludes seen x then uniqueFrom seen arr'
      else x :: uniqueFrom (x :: seen) arr'
  end.

Definition unique (arr : list string) : list string := uniqueFrom [] arr.

End JsText.

(* ===================================================================== *)
(** ** workflow.service.ts: template settings *)
(* ===================================================================== *)

Module WorkflowTemplates.
Import JsString JsText Js Regex InputUtils.

(** The fields of a [Workflow] that [updateTemplateSettings] reads; the
    schema is a JSON Schema object. *)
Record TemplateWorkflow : Type := {
  tw_id : string;
  tw_isTemplate : option bool;
  tw_templateSchema : option (list (string * value))
}.

(** The update handed to [updateById]. *)
Record TemplatePatch : Type := {
  patch_isTemplate : bool;
  patch_templateSchema : list (string * value)
}.

(** The template fields named by the placeholders of one string value. *)
Definition fieldsOfValue (value : string) : list string :=
  map (fun m => replace (trim (group1 m)) "template." EmptyString)
    (List.filter (fun m => includes "template." (group1 m))
       (matchAll variableRegex value)).

(** The inner function [getTemplateFields]. *)
Definition getTemplateFields (inputs : list (string * value)) : list string :=
  unique
    (fold_left
       (fun acc kv =>
          match snd kv with
          | JStr value => acc ++ fieldsOfValue value
          | _ => acc
          end) inputs []).

(** [delete obj[k]] *)
Definition deleteField (k : string) (fs : list (string * value))
  : list (string * value) :=
  List.filter (fun kv => negb (String.eqb (fst kv) k)) fs.

(** [schema.properties ?? {}]; when present, [properties] is an object. *)
Definition schemaProperties (schema : list (string * value))
  : list (string * value) :=
  match getField "properties" schema with
  | Some (JObj properties) => properties
  | _ => []
  end.

Definition deletedTemplateFields (newTemplateFields oldTemplateFields : list string)
  : list string :=
  List.filter (fun value => negb (arrayIncludes newTemplateFields value))
    oldTemplateFields.

Definition addedTemplateFields (newTemplateFields oldTemplateFields : list string)
  : list string :=
  List.filter (fun value => negb (arrayIncludes oldTemplateFields value))
    newTemplateFields.

(** The properties of the schema after the two [forEach] loops. *)
Definition updatedProperties (newTemplateFields oldTemplateFields : list string)
           (properties : list (string * value)) : list (string * value) :=
  fold_left
    (fun props field =>
       assignField field (JObj [("type", JStr "string")]) props)
    (addedTemplateFields newTemplateFields oldTemplateFields)
    (fold_left (fun props field => deleteField field props)
       (deletedTemplateFields newTemplateFields oldTemplateFields)
       properties).

(** [updateTemplateSettings]: the value returned, and the call of
    [updateById] when there is one. *)
Definition updateTemplateSettings (workflow : TemplateWorkflow)
           (inputs : list (string * value))
           (oldInputs : option (list (string * value)))
  : bool * option (string * TemplatePatch) :=
  let newTemplateFields := getTemplateFields inputs in
  let oldTemplateFields := getTemplateFields (default [] oldInputs) in
  if negb (default false (tw_isTemplate workflow))
     && Nat.eqb (length newTemplateFields) 0
  then (false, None)
  else if Nat.eqb (length newTemplateFields) (length oldTemplateFields)
          && forallb (arrayIncludes oldTemplateFields) newTemplateFields
  then (false, None)
  else
    let schema :=
      default [("type", JStr "object")] (tw_templateSchema workflow) in
    let properties :=
      updatedProperties newTemplateFields oldTemplateFields
        (schemaProperties schema) in
    let schema := setField "properties" (JObj properties) schema in
    (true,
     Some (tw_id workflow,
           {| patch_isTemplate := true; patch_templateSchema := schema |})).

End WorkflowTemplates.

(* ===================================================================== *)
(** ** The OAuth strategy factory *)
(* ===================================================================== *)

Module OAuthStrategyFactory.
Import JsString JsText Js Regex.

Inductive IntegrationAuthType : Type := oauth1 | oauth2 | otherAuthType.

(** [securitySchema.flows.authorizationCode] *)
Record AuthorizationCode : Type := {
  authorizationUrl : option string;
  tokenUrl : option string;
  scopes : option (list (string * string))
}.

Record SecuritySchema : Type := {
  x_requestTokenURL : option string;
  x_accessTokenURL : option string;
  x_userAuthorizationURL : option string;
  x_signatureMethod : option string;
  x_credentialsKey : option string;
  flows_authorizationCode : option AuthorizationCode
}.

Record IntegrationAccount : Type := {
  account_key : string;
  account_authType : IntegrationAuthType;
  account_customStrategyKey : option string;
  account_securitySchema : option SecuritySchema;
  account_authParams : option (list (string * value))
}.

(** What a custom strategy module exports: the strategy class, by name,
    and whether it has an [afterAuthHook]. *)
Record CustomStrategyModule : Type := {
  cs_Strategy : option string;
  cs_afterAuthHook : bool
}.

(** A strategy object: the class it was built from ([None] for the class
    of the passport library) and the options given to the constructor. *)
Inductive Strategy : Type :=
| OAuth1Strategy (class : option string)
    (requestTokenURL accessTokenURL userAuthorizationURL : string)
    (consumerKey consumerSecret signatureMethod callbackURL : string)
    (account : IntegrationAccount)
| OAuth2Strategy (class : option string)
    (authorizationURL tokenURL clientID clientSecret : string)
    (scope : list string) (callbackURL : string)
    (authorizationParams : option (list (string * value)))
    (account : IntegrationAccount).

Inductive LogLevel : Type := LLog | LError.

(** The factory's cache with the registries of passport and of
    passport-oauth2-refresh, and the lines logged. *)
Record Factory : Type := {
  integrationStrategies : gmap string IntegrationAccount;
  passport : gmap string Strategy;
  refresh : gmap string Strategy;
  logged : list (LogLevel * string)
}.

Definition emptyFactory : Factory :=
  {| integrationStrategies := ∅; passport := ∅; refresh := ∅; logged := [] |}.

Section Factory.

(** [process.env] *)
Variable env : gmap string string.

(** [integrationAccountService.findOne({ key })] *)
Variable findOne : string -> option IntegrationAccount.

(** [import(`./integration-strategies/${customStrategyKey}-auth`)] *)
Variable importStrategy : string -> result CustomStrategyModule.

Definition log (level : LogLevel) (line : string) (st : Factory) : Factory :=
  {| integrationStrategies := integrationStrategies st;
     passport := passport st;
     refresh := refresh st;
     logged := logged st ++ [(level, line)] |}.

(** [getOAuthStrategyName] *)
Definition getOAuthStrategyName (integrationAccountKey : string) : string :=
  "integration-" +:+ integrationAccountKey.

(** [key.toUpperCase().replace(/-/, '_')] *)
Definition envPrefix (key : string) : string :=
  replaceFirst (Lit "-") 0 (toUpperCase key) "_".

(** [passport.use(name, strategy)] *)
Definition passportUse (name : string) (strategy : Strategy) (st : Factory)
  : Factory :=
  {| integrationStrategies := integrationStrategies st;
     passport := <[name := strategy]> (passport st);
     refresh := refresh st;
     logged := logged st |}.

(** [refresh.use(name, strategy)] *)
Definition refreshUse (name : string) (strategy : Strategy) (st : Factory)
  : Factory :=
  {| integrationStrategies := integrationStrategies st;
     passport := passport st;
     refresh := <[name := strategy]> (refresh st);
     logged := logged st |}.

(** [this.integrationStrategies.set(key, account)] *)
Definition cacheSet (integrationAccountKey : string)
           (integrationAccount : IntegrationAccount) (st : Factory) : Factory :=
  {| integrationStrategies :=
       <[integrationAccountKey := integrationAccount]> (integrationStrategies st);
     passport := passport st;
     refresh := refresh st;
     logged := logged st |}.

(** The text a template literal prints for an optional string. *)
Definition interpolate (o : option string) : string := default "undefined" o.

Definition registerOauth1Strategy (integrationAccountKey : string)
           (integrationAccount : IntegrationAccount)
           (customStrategyClass : option CustomStrategyModule)
           (st : Factory) : Factory :=
  let consumerKey :=
    env !! (envPrefix (account_key integrationAccount) +:+ "_CONSUMER_KEY") in
  let consumerSecret :=
    env !! (envPrefix (account_key integrationAccount) +:+ "_CONSUMER_SECRET") in
  let requestTokenURL :=
    account_securitySchema integrationAccount ≫= x_requestTokenURL in
  let accessTokenURL :=
    account_securitySchema integrationAccount ≫= x_accessTokenURL in
  let userAuthorizationURL :=
    account_securitySchema integrationAccount ≫= x_userAuthorizationURL in
  let signatureMethod :=
    account_securitySchema integrationAccount ≫= x_signatureMethod in
  if negb (truthyStr consumerKey) || negb (truthyStr consumerSecret) then
    log LError ("Consumer key or consumer secret not defined for "
                +:+ integrationAccountKey) st
  else if negb (truthyStr requestTokenURL) || negb (truthyStr accessTokenURL)
          || negb (truthyStr userAuthorizationURL)
          || negb (truthyStr signatureMethod) then
    log LError ("requestTokenURL, accessTokenURL, userAuthorizationURL or "
                +:+ "signatureMethod not defined for " +:+ integrationAccountKey)
      st
  else
    let strategy :=
      OAuth1Strategy (customStrategyClass ≫= cs_Strategy)
        (default EmptyString requestTokenURL)
        (default EmptyString accessTokenURL)
        (default EmptyString userAuthorizationURL)
        (default EmptyString consumerKey)
        (default EmptyString consumerSecret)
        (default EmptyString signatureMethod)
        (interpolate (env !! "API_ENDPOINT") +:+ "/account-credentials/oauth/"
         +:+ integrationAccountKey +:+ "/callback")
        integrationAccount in
    log LLog ("OAuth1 strategy for " +:+ integrationAccountKey +:+ " created")
      (cacheSet integrationAccountKey integrationAccount
         (passportUse (getOAuthStrategyName integrationAccountKey) strategy st)).

Definition registerOauth2Strategy (integrationAccountKey : string)
           (integrationAccount : IntegrationAccount)
           (customStrategyClass : option CustomStrategyModule)
           (st : Factory) : Factory :=
  let authCode :=
    account_securitySchema integrationAccount ≫= flows_authorizationCode in
  if truthyStr (authCode ≫= authorizationUrl)
     && truthyStr (authCode ≫= tokenUrl) then
    let credentialsKey :=
      default (account_key integrationAccount)
        (account_securitySchema integrationAccount ≫= x_credentialsKey) in
    let clientId := env !! (envPrefix credentialsKey +:+ "_CLIENT_ID") in
    let clientSecret := env !! (envPrefix credentialsKey +:+ "_CLIENT_SECRET") in
    if negb (truthyStr clientId) || negb (truthyStr clientSecret) then
      log LError ("Client ID or client secret not defined for "
                  +:+ integrationAccountKey) st
    else
      let strategyName := getOAuthStrategyName integrationAccountKey in
      let strategy :=
        OAuth2Strategy (customStrategyClass ≫= cs_Strategy)
          (default EmptyString (authCode ≫= authorizationUrl))
          (default EmptyString (authCode ≫= tokenUrl))
          (default EmptyString clientId)
          (default EmptyString clientSecret)
          (map fst (default [] (authCode ≫= scopes)))
          (interpolate (env !! "API_ENDPOINT") +:+ "/account-credentials/oauth/"
           +:+ credentialsKey +:+ "/callback")
          (account_authParams integrationAccount)
          integrationAccount in
      log LLog ("OAuth2 strategy for " +:+ integrationAccountKey +:+ " created")
        (cacheSet integrationAccountKey integrationAccount
           (refreshUse strategyName strategy
              (passportUse strategyName strategy st)))
  else
    log LError ("OAuth2 missing authorizationUrl or tokenUrl for "
                +:+ integrationAccountKey) st.

(** [getCustomStrategy] *)
Definition getCustomStrategy (customStrategyKey : option string)
  : result (option CustomStrategyModule) :=
  if negb (truthyStr customStrategyKey) then Ok None
  else Some <$> importStrategy (default EmptyString customStrategyKey).

(** [ensureStrategy]: the outcome and the factory afterwards. *)
Definition ensureStrategy (integrationAccountKey : string) (st : Factory)
  : result IntegrationAccount * Factory :=
  if negb (truthyStr (env !! "API_ENDPOINT")) then
    (Throw (Error "Endpoint not configured"), st)
  else
    match integrationStrategies st !! integrationAccountKey with
    | Some cachedIntegrationAccount => (Ok cachedIntegrationAccount, st)
    | None =>
        let st :=
          log LLog ("Creating oauth strategy for " +:+ integrationAccountKey)
            st in
        match findOne integrationAccountKey with
        | None =>
            (Throw (BadRequestException
                      ("Integration account " +:+ integrationAccountKey
                       +:+ " not found")), st)
        | Some integrationAccount =>
            match getCustomStrategy
                    (account_customStrategyKey integrationAccount) with
            | Throw e => (Throw e, st)
            | Ok customStrategyClass =>
                let st :=
                  match account_authType integrationAccount with
                  | oauth1 =>
                      registerOauth1Strategy integrationAccountKey
                        integrationAccount customStrategyClass st
                  | oauth2 =>
                      registerOauth2Strategy integrationAccountKey
                        integrationAccount customStrategyClass st
                  | otherAuthType => st
                  end in
                (Ok integrationAccount, st)
            end
        end
    end.

(** A sequence of calls of [ensureStrategy], whatever their outcomes. *)
Definition ensureStrategies (integrationAccountKeys : list string)
           (st : Factory) : Factory :=
  fold_left (fun st key => snd (ensureStrategy key st))
    integrationAccountKeys st.

End Factory.

End OAuthStrategyFactory.

(* ===================================================================== *)
(** ** The action "Create a post": the metadata document *)
(* ===================================================================== *)

Module CreatePostAction.
Import JsString JsText Js Regex.

Record PostInputs : Type := {
  in_content : option string;
  in_imageUrl : option string
}.

Record PostCredentials : Type := {
  cred_refreshToken : option string;
  cred_profileId : option string;
  cred_handle : option string
}.

Record Media : Type := {
  media_item : string;
  media_type : option string;
  media_altTag : string
}.

(** The fields of [data] that depend on the inputs. *)
Record Metadata : Type := {
  metadata_id : string;
  description : string;
  content : string;
  external_url : string;
  image : option string;
  imageMimeType : option string;
  name : string;
  tags : list string;
  mainContentFocus : string;
  media : list Media;
  createdOn : string
}.

Definition isAlphaNum (c : ascii) : bool :=
  let n := nat_of_ascii c in
  (Nat.leb 97 n && Nat.leb n 122) || (Nat.leb 65 n && Nat.leb n 90)
  || (Nat.leb 48 n && Nat.leb n 57).

(** [/#[a-zA-Z0-9]+/g] *)
Definition tagRegex : regex := Seq (Chr (isChar "#")) (Plus (Chr isAlphaNum)).

(** [(content.match(/#[a-zA-Z0-9]+/g) ?? []).map((tag) => tag.slice(1))] *)
Definition tagsOf (content : string) : list string :=
  map (fun m => substringFrom 1 (text m)) (matchAll tagRegex content).

(** The two statements that compute [imageMimeType]. *)
Definition mimeTypeOf (imageUrl : option string) : option string :=
  let imageMimeType :=
    if truthyStr imageUrl then
      Some ("image/"
            +:+ default "undefined" (pop (split "." (default EmptyString imageUrl))))
    else None in
  if negb (truthyStr imageMimeType)
     || negb (existsb (Nat.eqb (len (default EmptyString imageMimeType)))
                [3; 4])
  then if truthyStr imageUrl then Some "image/jpeg" else None
  else imageMimeType.

(** The part of [run] that builds the document sent to the storage
    network; [uuid] is the result of [uuidv4()] and [now] the text of
    [new Date().toISOString()]. *)
Definition buildMetadata (uuid now : string) (inputs : PostInputs)
           (credentials : option PostCredentials) : result Metadata :=
  if negb (truthyStr (credentials ≫= cred_refreshToken))
     || negb (truthyStr (credentials ≫= cred_profileId)) then
    Throw (Error "Authentication is expired, please connect the profile again")
  else if negb (truthyStr (in_content inputs)) then
    Throw (Error "Content is required")
  else
    let content := substringTo 1000 (default EmptyString (in_content inputs)) in
    let imageUrl := in_imageUrl inputs in
    let imageMimeType := mimeTypeOf imageUrl in
    let handle := credentials ≫= cred_handle in
    Ok {| metadata_id := uuid;
          description := content;
          content := content;
          external_url :=
            if truthyStr handle
            then "https://lenster.xyz/u/" +:+ default EmptyString handle
            else "https://chainjet.io";
          image := if truthyStr imageUrl then imageUrl else None;
          imageMimeType := imageMimeType;
          name :=
            if truthyStr handle
            then "New Post by @" +:+ default EmptyString handle
            else "New Post";
          tags := tagsOf content;
          mainContentFocus := if truthyStr imageUrl then "IMAGE" else "TEXT_ONLY";
          media :=
            if truthyStr imageUrl
            then [ {| media_item := default EmptyString imageUrl;
                      media_type := imageMimeType;
                      media_altTag := EmptyString |} ]
            else [];
          createdOn := now |}.

End CreatePostAction.

(* ===================================================================== *)
(** ** Sample data used to exercise the definitions *)
(* ===================================================================== *)

Module Fixtures.
Import JsString Js RunnerModel.

Definition sampleWorkflow : Workflow :=
  {| wf_id := "wf1"; wf_owner := "u1"; wf_name := "Daily digest";
     wf_runOnFailure := None |}.

(** A stand-in evaluator that knows one subtraction and rejects every other
    expression. *)
Definition sampleEvaluate (expression : string) : result value :=
  if String.eqb expression "5 - 3" then Ok (JNum 2)
  else Throw (Error ("Cannot evaluate " +:+ expression)).

(** The bag [{ foo: { bar: 5, baz: 3 } }]. *)
Definition fooBag : value :=
  JObj [("foo", JObj [("bar", JNum 5); ("baz", JNum 3)])].

(** A small installation: one integration with four operations, one
    polling trigger, and four workflows.
    - wf1: A, then B (whose stored credentials are gone) and C;
    - wf2: D, then E (whose operation fails) and F;
    - wf3: S (whose operation asks to sleep), then T;
    - wf4: K (whose operation answers the condition [true]), then K1 on
      "true", K2 on "false" and K3 unconditionally. *)
Definition slack : Integration :=
  {| integration_name := "Slack"; integration_key := "slack";
     integration_parentKey := None |}.

Definition operation (key : string) : IntegrationAction :=
  {| ia_key := key; ia_name := key; ia_integration := "slack-id" |}.

Definition action (id workflow operationId : string)
           (credentials : option string) (isRoot : bool)
           (next : list WorkflowNextAction) : WorkflowAction :=
  {| wa_id := id; wa_owner := "user-1"; wa_workflow := workflow;
     wa_integrationAction := operationId; wa_inputs := [];
     wa_credentials := credentials; wa_isRootAction := isRoot;
     wa_nextActions := Some next |}.

Definition edge (target : string) (condition : option string)
  : WorkflowNextAction :=
  {| na_action := target; na_condition := condition |}.

Definition pollTrigger : IntegrationTrigger :=
  {| it_id := "poll-id"; it_name := "New message";
     it_integration := "slack-id"; it_idKey := Some "items[].id";
     it_triggerPopulate := None |}.

(** What the polling trigger answers: three messages, newest first. *)
Definition polledResponse : RunResponse :=
  {| rr_outputs :=
       [("items", JArr [JObj [("id", JStr "m3")];
                        JObj [("id", JStr "m2")];
                        JObj [("id", JStr "m1")]])];
     rr_condition := JUndefined; rr_sleepUntil := None |}.

Definition sampleRunOperation (opts : OperationRunOptions) : OperationResult :=
  match ro_operation opts with
  | OfTrigger _ => Answer polledResponse
  | OfAction a =>
      if String.eqb (ia_key a) "broken" then Failure "Request failed" None
      else if String.eqb (ia_key a) "delay" then
        Answer {| rr_outputs := [("waited", JBool true)];
                  rr_condition := JUndefined;
                  rr_sleepUntil := Some "2030-01-01T00:00:00.000Z" |}
      else if String.eqb (ia_key a) "check" then
        Answer {| rr_outputs := [("found", JBool true)];
                  rr_condition := JBool true; rr_sleepUntil := None |}
      else
        Answer {| rr_outputs := [("ok", JBool true)];
                  rr_condition := JUndefined; rr_sleepUntil := None |}
  end.

(** Items of the array under "items", identified by their "id". *)
Definition sampleExtractTriggerItems (idKey : string)
           (outputs : list (string * value)) : list TriggerItem :=
  match getField "items" outputs with
  | Some (JArr items) =>
      omap (fun item =>
              match item with
              | JObj fs =>
                  match getField "id" fs with
                  | Some (JStr s) => Some {| ti_id := IdString s; ti_item := fs |}
                  | Some (JNum n) => Some {| ti_id := IdNumber n; ti_item := fs |}
                  | _ => None
                  end
              | _ => None
              end) items
  | _ => []
  end.

Definition nodeA : WorkflowAction :=
  action "A" "wf1" "send-id" None true [edge "B" None; edge "C" None].
Definition nodeB : WorkflowAction :=
  action "B" "wf1" "send-id" (Some "cred-gone") false [].
Definition nodeC : WorkflowAction := action "C" "wf1" "send-id" None false [].
Definition nodeD : WorkflowAction :=
  action "D" "wf2" "send-id" None true [edge "E" None; edge "F" None].
Definition nodeE : WorkflowAction := action "E" "wf2" "broken-id" None false [].
Definition nodeF : WorkflowAction := action "F" "wf2" "send-id" None false [].
Definition nodeS : WorkflowAction :=
  action "S" "wf3" "delay-id" None true [edge "T" (Some "never")].
Definition nodeT : WorkflowAction := action "T" "wf3" "send-id" None false [].
Definition nodeK : WorkflowAction :=
  action "K" "wf4" "check-id" None true
    [edge "K1" (Some "true"); edge "K2" (Some "false"); edge "K3" None].
Definition nodeK1 : WorkflowAction := action "K1" "wf4" "send-id" None false [].
Definition nodeK2 : WorkflowAction := action "K2" "wf4" "send-id" None false [].
Definition nodeK3 : WorkflowAction := action "K3" "wf4" "send-id" None false [].

Definition sampleWorld : World :=
  {| integrations := {[ "slack-id" := slack ]};
     integrationActions :=
       list_to_map [("send-id", operation "send"); ("broken-id", operation "broken");
                    ("delay-id", operation "delay"); ("check-id", operation "check")];
     integrationActionByKey := fun _ => None;
     integrationTriggers := {[ "poll-id" := pollTrigger ]};
     integrationAccounts := ∅;
     accountCredentials := ∅;
     workflows := ∅;
     workflowActions :=
       [ nodeA; nodeB; nodeC; nodeD; nodeE; nodeF; nodeS; nodeT;
         nodeK; nodeK1; nodeK2; nodeK3 ];
     credentialsAesKey := Some "key";
     decryptCredentials := fun _ _ => Ok [];
     runOperation := sampleRunOperation;
     lodashGet := Lodash.get;
     evaluate := Fixtures.sampleEvaluate;
     extractTriggerItems := sampleExtractTriggerItems |}.


Definition run0 : WorkflowRun := {| run_id := 0 |}.

(** A state in which [run0] has been created. *)
Definition started : State :=
  {| events := []; runsCreated := 1; cursors := ∅ |}.

(** The three messages the sample poll returns, newest first. *)
Definition polled : list TriggerItem :=
  [ {| ti_id := IdString "m3"; ti_item := [("id", JStr "m3")] |};
    {| ti_id := IdString "m2"; ti_item := [("id", JStr "m2")] |};
    {| ti_id := IdString "m1"; ti_item := [("id", JStr "m1")] |} ].

(** No credentials, as resolved for a node without credentials. *)
Definition noCredentials
  : list (string * value) * option AccountCredential
    * option IntegrationAccount :=
  ([], None, None).

(** Log line, per-action record and operation call of a node of the sample
    world that runs the operation [key] without inputs or credentials. *)
Definition startedNode (node : WorkflowAction) (key : string) : list Event :=
  [ Logged LLog ("Running workflow action " +:+ wa_id node
                 +:+ " for workflow " +:+ wa_workflow node);
    AddedRunningAction run0
      {| ra_workflowAction := wa_id node; ra_integrationName := "Slack";
         ra_operationName := key |};
    RanOperation
      {| ro_definition := "slack"; ro_integration := slack;
         ro_integrationAccount := None;
         ro_operation := OfAction (operation key);
         ro_inputs := []; ro_credentials := [];
         ro_accountCredential := None |} ].

(** The same, followed by the completion of the node. *)
Definition completedNode (node : WorkflowAction) (key : string) : list Event :=
  startedNode node key
  ++ [ MarkedActionAsCompleted run0
         {| ra_workflowAction := wa_id node; ra_integrationName := "Slack";
            ra_operationName := key |} ].

Definition sampleTrigger (lastId : option string) : WorkflowTrigger :=
  {| wt_id := "trigger-1"; wt_owner := "user-1"; wt_workflow := "wf4";
     wt_integrationTrigger := "poll-id"; wt_inputs := [];
     wt_credentials := None; wt_lastId := lastId |}.

End Fixtures.

Module MoreFixtures.
Import JsString Js RunnerModel Fixtures.

(** A workflow that names itself as its failure workflow, with one root
    action whose stored credentials are gone. *)
Definition selfHealing : Workflow :=
  {| wf_id := "wf9"; wf_owner := "user-1"; wf_name := "Self healing";
     wf_runOnFailure := Some "wf9" |}.

Definition nodeL : WorkflowAction :=
  action "L" "wf9" "send-id" (Some "cred-gone") true [].

Definition loopWorld : World :=
  {| integrations := integrations sampleWorld;
     integrationActions := integrationActions sampleWorld;
     integrationActionByKey := integrationActionByKey sampleWorld;
     integrationTriggers := integrationTriggers sampleWorld;
     integrationAccounts := integrationAccounts sampleWorld;
     accountCredentials := accountCredentials sampleWorld;
     workflows := {[ "wf9" := selfHealing ]};
     workflowActions := [nodeL];
     credentialsAesKey := credentialsAesKey sampleWorld;
     decryptCredentials := decryptCredentials sampleWorld;
     runOperation := runOperation sampleWorld;
     lodashGet := lodashGet sampleWorld;
     evaluate := evaluate sampleWorld;
     extractTriggerItems := extractTriggerItems sampleWorld |}.

(** A stored credential with two plain fields, one of which is also part
    of the encrypted fields. *)
Definition storedCredential : AccountCredential :=
  {| ac_encryptedCredentials := "blob";
     ac_fields := [("token", JStr "stale"); ("region", JStr "eu")];
     ac_integrationAccount := None |}.

Definition vaultWorld : World :=
  {| integrations := integrations sampleWorld;
     integrationActions := integrationActions sampleWorld;
     integrationActionByKey := integrationActionByKey sampleWorld;
     integrationTriggers := integrationTriggers sampleWorld;
     integrationAccounts := integrationAccounts sampleWorld;
     accountCredentials := {[ "cred-1" := storedCredential ]};
     workflows := workflows sampleWorld;
     workflowActions := workflowActions sampleWorld;
     credentialsAesKey := credentialsAesKey sampleWorld;
     decryptCredentials := fun _ _ => Ok [("token", JStr "fresh")];
     runOperation := runOperation sampleWorld;
     lodashGet := lodashGet sampleWorld;
     evaluate := evaluate sampleWorld;
     extractTriggerItems := extractTriggerItems sampleWorld |}.

(** Two messages newer than the three of [polled]. *)
Definition fresh : list TriggerItem :=
  [ {| ti_id := IdString "m5"; ti_item := [("id", JStr "m5")] |};
    {| ti_id := IdString "m4"; ti_item := [("id", JStr "m4")] |} ].

(** A polling trigger whose items are completed by the operation "send",
    in an installation that knows this operation by its key. *)
Definition populatingTrigger : IntegrationTrigger :=
  {| it_id := "poll-id"; it_name := "New message";
     it_integration := "slack-id"; it_idKey := Some "items[].id";
     it_triggerPopulate :=
       Some {| tp_operationId := Some "send"; tp_inputs := [] |} |}.

Definition populateWorld : World :=
  {| integrations := integrations sampleWorld;
     integrationActions := integrationActions sampleWorld;
     integrationActionByKey :=
       fun key =>
         if bool_decide (key = Some "send") then Some (operation "send")
         else None;
     integrationTriggers := {[ "poll-id" := populatingTrigger ]};
     integrationAccounts := integrationAccounts sampleWorld;
     accountCredentials := accountCredentials sampleWorld;
     workflows := workflows sampleWorld;
     workflowActions := workflowActions sampleWorld;
     credentialsAesKey := credentialsAesKey sampleWorld;
     decryptCredentials := decryptCredentials sampleWorld;
     runOperation := runOperation sampleWorld;
     lodashGet := lodashGet sampleWorld;
     evaluate := evaluate sampleWorld;
     extractTriggerItems := extractTriggerItems sampleWorld |}.

Definition populateOptions : OperationRunOptions :=
  {| ro_definition := "slack"; ro_integration := slack;
     ro_integrationAccount := None;
     ro_operation := OfTrigger populatingTrigger;
     ro_inputs := []; ro_credentials := [];
     ro_accountCredential := None |}.

(** An OAuth2 account whose key has a hyphen, with its client identifier
    and secret in the environment. *)
Definition githubAccount : OAuthStrategyFactory.IntegrationAccount :=
  {| OAuthStrategyFactory.account_key := "git-hub";
     OAuthStrategyFactory.account_authType := OAuthStrategyFactory.oauth2;
     OAuthStrategyFactory.account_customStrategyKey := None;
     OAuthStrategyFactory.account_securitySchema :=
       Some {| OAuthStrategyFactory.x_requestTokenURL := None;
               OAuthStrategyFactory.x_accessTokenURL := None;
               OAuthStrategyFactory.x_userAuthorizationURL := None;
               OAuthStrategyFactory.x_signatureMethod := None;
               OAuthStrategyFactory.x_credentialsKey := None;
               OAuthStrategyFactory.flows_authorizationCode :=
                 Some {| OAuthStrategyFactory.authorizationUrl :=
                           Some "https://git.example/authorize";
                         OAuthStrategyFactory.tokenUrl :=
                           Some "https://git.example/token";
                         OAuthStrategyFactory.scopes :=
                           Some [("repo", "Repositories")] |} |};
     OAuthStrategyFactory.account_authParams := None |}.

Definition sampleEnv : gmap string string :=
  list_to_map [ ("API_ENDPOINT", "https://api.example");
                ("GIT_HUB_CLIENT_ID", "client");
                ("GIT_HUB_CLIENT_SECRET", "secret") ].

Definition sampleFindOne (key : string)
  : option OAuthStrategyFactory.IntegrationAccount :=
  if String.eqb key "git-hub" then Some githubAccount else None.

Definition sampleImportStrategy (key : string)
  : result OAuthStrategyFactory.CustomStrategyModule :=
  Throw (Error ("Cannot find module " +:+ key)).

End MoreFixtures.

(* ===================================================================== *)
(** ** Predicates used to state the properties *)
(* ===================================================================== *)

Module Specs.
Import JsString Js Regex InputUtils.

(** [Accepts r a]: the pattern [r] matches the whole of the text [a]. *)
Inductive Accepts : regex -> string -> Prop :=
| accepts_eps : Accepts Eps EmptyString
| accepts_chr (p : ascii -> bool) (c : ascii) :
    p c = true -> Accepts (Chr p) (String c EmptyString)
| accepts_seq (r1 r2 : regex) (a b : string) :
    Accepts r1 a -> Accepts r2 b -> Accepts (Seq r1 r2) (a +:+ b)
| accepts_star_done (r : regex) : Accepts (Star r) EmptyString
| accepts_star_more (r : regex) (a b : string) :
    Accepts r a -> a <> EmptyString -> Accepts (Star r) b ->
    Accepts (Star r) (a +:+ b)
| accepts_group (n : nat) (r : regex) (a : string) :
    Accepts r a -> Accepts (Group n r) a.

(** Every character of [s] satisfies [p]. *)
Fixpoint allChars (p : ascii -> bool) (s : string) : bool :=
  match s with
  | EmptyString => true
  | String c s' => p c && allChars p s'
  end.

(** [s] does not start with a character satisfying [p]. *)
Definition headFails (p : ascii -> bool) (s : string) : Prop :=
  match s with
  | EmptyString => True
  | String c _ => p c = false
  end.

(** What a greedy [*] over a character class does: go as far as the class
    allows, then try the continuation at ever shorter prefixes. *)
Fixpoint greedyClass {A : Type} (p : ascii -> bool)
         (k : string -> captures -> option A) (s : string) (cs : captures)
  : option A :=
  match s with
  | String c s' =>
      if p c then
        match greedyClass p k s' cs with
        | Some a => Some a
        | None => k s cs
        end
      else k s cs
  | EmptyString => k s cs
  end.

(** [r] matches somewhere in [s]. *)
Definition MatchesIn (r : regex) (s : string) : Prop :=
  exists before a after, s = before +:+ a +:+ after /\ Accepts r a.

(** The pattern [new RegExp] builds for a template ([Eps] stands for a
    source that does not compile, which never happens). *)
Definition templateRegex (template : string) : regex :=
  match parseRegExp 0 (templateSource template) with
  | Some (re, _) => re
  | None => Eps
  end.

(** The text [escapeTemplate] produces: ordinary characters, and syntax
    characters each preceded by a backslash. *)
Inductive EscapedSource : string -> Prop :=
| escaped_nil : EscapedSource EmptyString
| escaped_plain (c : ascii) (s : string) :
    isRegExpSpecial c = false -> EscapedSource s ->
    EscapedSource (String c s)
| escaped_special (c : ascii) (s : string) :
    isRegExpSpecial c = true -> EscapedSource s ->
    EscapedSource (String "\" (String c s)).

(** The pattern sources [parseRegExp] understands. *)
Inductive PatternSource : string -> Prop :=
| source_nil : PatternSource EmptyString
| source_plain (c : ascii) (s : string) :
    isRegExpSpecial c = false -> PatternSource s ->
    PatternSource (String c s)
| source_escaped (c : ascii) (s : string) :
    isRegExpSpecial c = true -> PatternSource s ->
    PatternSource (String "\" (String c s))
| source_group (s : string) :
    PatternSource s -> PatternSource ("(.+)" +:+ s).

End Specs.

Module RunnerSpecs.
Import Js RunnerModel RunnerService.

(** What [getCredentialsAndIntegrationAccount] returns when it does not
    fail: nothing without a credentials identifier; otherwise the stored
    fields overridden by the decrypted ones, the stored record and its
    integration account. *)
Definition resolvedCredentials (w : World) (credentialsId : option string)
  : option (list (string * value) * option AccountCredential
            * option IntegrationAccount) :=
  if truthyStr credentialsId then
    match accountCredentials w !! default EmptyString credentialsId with
    | None => None
    | Some accountCredential =>
        if truthyStr (credentialsAesKey w) then
          match decryptCredentials w (ac_encryptedCredentials accountCredential)
                  (default EmptyString (credentialsAesKey w)) with
          | Ok unencrypted =>
              Some (spread (ac_fields accountCredential) unencrypted,
                    Some accountCredential,
                    if truthyStr (ac_integrationAccount accountCredential)
                    then integrationAccounts w
                           !! default EmptyString
                                (ac_integrationAccount accountCredential)
                    else None)
          | Throw _ => None
          end
        else None
    end
  else Some ([], None, None).

(** The state after a list of further persistence calls and log lines. *)
Definition withEvents (st : State) (new : list Event) : State :=
  {| events := events st ++ new;
     runsCreated := runsCreated st;
     cursors := cursors st |}.

(** The options with which the operation of an action is invoked. *)
Definition actionRunOptions (integration : Integration)
           (integrationAction : IntegrationAction)
           (inputs : list (string * value))
           (resolved : list (string * value) * option AccountCredential
                       * option IntegrationAccount)
  : OperationRunOptions :=
  {| ro_definition := definitionKey integration;
     ro_integration := integration;
     ro_integrationAccount := resolved.2;
     ro_operation := OfAction integrationAction;
     ro_inputs := inputs;
     ro_credentials := resolved.1.1;
     ro_accountCredential := resolved.1.2 |}.

(** The per-action record of a node. *)
Definition runActionOf (integration : Integration)
           (integrationAction : IntegrationAction)
           (workflowAction : WorkflowAction) : WorkflowRunAction :=
  {| ra_workflowAction := wa_id workflowAction;
     ra_integrationName := integration_name integration;
     ra_operationName := ia_name integrationAction |}.

(** What a node logs and persists up to the completion of its operation. *)
Definition completedNodeEvents (integration : Integration)
           (integrationAction : IntegrationAction)
           (workflowAction : WorkflowAction) (workflowRun : WorkflowRun)
           (opts : OperationRunOptions) : list Event :=
  [ Logged LLog ("Running workflow action " +:+ wa_id workflowAction
                 +:+ " for workflow " +:+ wa_workflow workflowAction);
    AddedRunningAction workflowRun
      (runActionOf integration integrationAction workflowAction);
    RanOperation opts;
    MarkedActionAsCompleted workflowRun
      (runActionOf integration integrationAction workflowAction) ].

(** An edge has a condition when its [condition] is a non-empty string
    (the test [!nextAction.condition] of the source). *)
Definition hasCondition (edge : WorkflowNextAction) : bool :=
  truthyStr (na_condition edge).

(** A trigger has a cursor when its [lastId] is a non-empty string (the
    test [if (workflowTrigger.lastId)] of the source). *)
Definition hasCursor (workflowTrigger : WorkflowTrigger) : bool :=
  truthyStr (wt_lastId workflowTrigger).

(** The identifiers of polled items, newest first. *)
Definition triggerIdsOf (triggerItems : list TriggerItem) : list string :=
  map (fun item => idToString (ti_id item)) triggerItems.

(** The options with which the operation of a trigger is invoked. *)
Definition triggerRunOptions (integration : Integration)
           (integrationTrigger : IntegrationTrigger)
           (inputs : list (string * value))
           (resolved : list (string * value) * option AccountCredential
                       * option IntegrationAccount)
  : OperationRunOptions :=
  {| ro_definition := definitionKey integration;
     ro_integration := integration;
     ro_integrationAccount := resolved.2;
     ro_operation := OfTrigger integrationTrigger;
     ro_inputs := inputs;
     ro_credentials := resolved.1.1;
     ro_accountCredential := resolved.1.2 |}.

(** A trigger check reaches the end of its poll: the workflow has a root
    action, the trigger definition exists and has an [idKey], its
    integration exists, credentials and inputs resolve, and the trigger
    operation answers [runResponse]. *)
Definition polls (w : World) (workflowTrigger : WorkflowTrigger)
           (integrationTrigger : IntegrationTrigger)
           (integration : Integration)
           (resolved : list (string * value) * option AccountCredential
                       * option IntegrationAccount)
           (inputs : list (string * value)) (runResponse : RunResponse)
  : Prop :=
  findRootActions w (wt_workflow workflowTrigger) <> []
  /\ integrationTriggers w !! wt_integrationTrigger workflowTrigger
     = Some integrationTrigger
  /\ truthyStr (it_idKey integrationTrigger) = true
  /\ integrations w !! it_integration integrationTrigger = Some integration
  /\ resolvedCredentials w (wt_credentials workflowTrigger) = Some resolved
  /\ InputUtils.parseStepInputs (lodashGet w) (evaluate w)
       (wt_inputs workflowTrigger) (JObj []) = Ok inputs
  /\ runOperation w
       (triggerRunOptions integration integrationTrigger inputs resolved)
     = Answer runResponse.

(** The state of a check at the end of its poll: the first log line, the
    creation of the run and the call of the trigger operation are on
    record; no cursor has been written. *)
Definition polledState (workflowTrigger : WorkflowTrigger)
           (startedBy : StartedBy) (opts : OperationRunOptions) (st : State)
  : State :=
  {| events :=
       events st
       ++ [ Logged LDebug ("Checking for trigger " +:+ wt_id workflowTrigger);
            CreatedRun {| run_id := runsCreated st |}
              (wt_workflow workflowTrigger) startedBy
              (Some (wt_id workflowTrigger));
            RanOperation opts ];
     runsCreated := S (runsCreated st);
     cursors := cursors st |}.

(** The trigger outputs handed to the root actions for one new item. *)
Definition triggerOutputsOf (workflowTrigger : WorkflowTrigger)
           (data : TriggerItem) : list (string * value) :=
  [(wt_id workflowTrigger, JObj (ti_item data))].

(** The state of a check once the poll of at least one new item has been
    recorded and the cursor written. *)
Definition recordedState (workflowTrigger : WorkflowTrigger)
           (workflowRun : WorkflowRun) (triggerIds : list string)
           (newest : string) (st : State) : State :=
  {| events :=
       events st
       ++ [ MarkedTriggerAsCompleted workflowRun true triggerIds;
            UpdatedTriggerLastId (wt_id workflowTrigger) newest ];
     runsCreated := runsCreated st;
     cursors := <[wt_id workflowTrigger := newest]> (cursors st) |}.

(** A call leaves the cursors of all triggers as they were. *)
Definition keepsCursors {A : Type} (m : M A) : Prop :=
  forall st,
    match m st with
    | Resolved _ st' | Rejected _ st' => cursors st' = cursors st
    | OutOfFuel => True
    end.

End RunnerSpecs.

Module MoreSpecs.
Import JsString JsText Js Regex InputUtils.

(** Values the resolver has nothing to do on: no string holds two opening
    braces in a row, no object is empty or a date, no object has an own
    property [__proto__] (which the copy of the resolver would not get),
    and the keys of every object are distinct (as they are in
    JavaScript). *)
Fixpoint placeholderFree (v : value) : bool :=
  match v with
  | JStr s => negb (includes "{{" s)
  | JDate _ _ => false
  | JArr items =>
      (fix all (xs : list value) : bool :=
         match xs with
         | [] => true
         | x :: xs' => placeholderFree x && all xs'
         end) items
  | JObj fields =>
      negb (bool_decide (fields = []))
      && bool_decide (NoDup (keys fields))
      && negb (hasField protoKey fields)
      && (fix all (fs : list (string * value)) : bool :=
            match fs with
            | [] => true
            | (_, x) :: fs' => placeholderFree x && all fs'
            end) fields
  | _ => true
  end.

End MoreSpecs.

Module MoreRunnerSpecs.
Import Js RunnerModel RunnerService.

(** A call leaves the cursor of every trigger other than [trigger] as it
    was. *)
Definition keepsOtherCursors {A : Type} (trigger : string) (m : M A) : Prop :=
  forall st,
    match m st with
    | Resolved _ st' | Rejected _ st' =>
        forall other, other <> trigger ->
          cursors st' !! other = cursors st !! other
    | OutOfFuel => True
    end.

(** The root action of a failure workflow cannot run: its definition
    exists, and it refers to stored credentials that are gone. *)
Definition credentialsGone (w : World) (a : WorkflowAction) : Prop :=
  (exists integrationAction integration,
      integrationActions w !! wa_integrationAction a = Some integrationAction
      /\ integrations w !! ia_integration integrationAction = Some integration)
  /\ exists credentialsId,
       wa_credentials a = Some credentialsId
       /\ credentialsId <> EmptyString
       /\ accountCredentials w !! credentialsId = None.

End MoreRunnerSpecs.

Module WorkflowSpecs.
Import Js RunnerModel WorkflowService.

(** No stored workflow names itself as its failure workflow. *)
Definition noSelfTarget (store : Store) : Prop :=
  forall id workflow,
    store !! id = Some workflow ->
    wf_runOnFailure workflow <> Some (wf_id workflow).

(** The collection after a sequence of calls of [updateOne], whatever
    their outcomes. *)
Definition updateAll
           (calls : list (string * WorkflowUpdate * option (Workflow -> bool)))
           (store : Store) : Store :=
  fold_left (fun store call => snd (updateOne call.1.1 call.1.2 call.2 store))
    calls store.

End WorkflowSpecs.

Module OAuthSpecs.
Import JsString JsText Js Regex OAuthStrategyFactory.

(** The account a strategy was built for. *)
Definition strategyAccount (strategy : Strategy) : IntegrationAccount :=
  match strategy with
  | OAuth1Strategy _ _ _ _ _ _ _ _ account => account
  | OAuth2Strategy _ _ _ _ _ _ _ _ account => account
  end.

(** Every cached account has its strategy: an OAuth1 or OAuth2 account
    whose strategy is registered with passport under the name of its key
    and, for OAuth2, with the token refresher as well. *)
Definition cacheIsRegistered (st : Factory) : Prop :=
  forall key account,
    integrationStrategies st !! key = Some account ->
    (account_authType account = oauth1 \/ account_authType account = oauth2)
    /\ exists strategy,
         passport st !! getOAuthStrategyName key = Some strategy
         /\ strategyAccount strategy = account
         /\ (account_authType account = oauth2 ->
             refresh st !! getOAuthStrategyName key = Some strategy).

End OAuthSpecs.

(* ===================================================================== *)
(** * Properties *)
(* ===================================================================== *)

(** ** Workflow update validation *)

Section WorkflowUpdateValidation.
Import Js RunnerModel WorkflowService Fixtures.

(** C8.  Updating a workflow so that its [runOnFailure] target is the
    workflow's own identifier is rejected with a [BadRequestException], and
    the workflow collection is the same after the rejected update. *)
Theorem updateOne_rejects_own_id_as_failure_target
        (id : string) (record : WorkflowUpdate)
        (opts : option (Workflow -> bool)) (store : Store)
        (workflow : Workflow) :
  findById id opts store = Some workflow ->
  up_runOnFailure record = Some (wf_id workflow) ->
  updateOne id record opts store
  = (Throw (BadRequestException
              "Run On Failure cannot be set with the same workflow ID."),
     store).
Proof.
  intros Hfound Hself. unfold updateOne. rewrite Hfound.
  rewrite bool_decide_eq_true_2 by exact Hself. reflexivity.
Qed.

(** A rejected update never reaches the persistence layer: whatever the
    reason of the rejection, the collection is unchanged. *)
Lemma updateOne_throw_keeps_store
      (id : string) (record : WorkflowUpdate)
      (opts : option (Workflow -> bool)) (store : Store) (e : exn)
      (store' : Store) :
  updateOne id record opts store = (Throw e, store') -> store' = store.
Proof.
  unfold updateOne, superUpdateOne.
  destruct (findById id opts store) as [workflow|]; [|congruence].
  destruct (bool_decide _); congruence.
Qed.

(** An update to another target goes through and stores the new target. *)
Lemma updateOne_accepts_other_target
      (id target : string) (record : WorkflowUpdate)
      (opts : option (Workflow -> bool)) (store : Store)
      (workflow : Workflow) :
  findById id opts store = Some workflow ->
  up_runOnFailure record = Some target ->
  target <> wf_id workflow ->
  exists updated,
    updateOne id record opts store = (Ok updated, <[id := updated]> store)
    /\ wf_runOnFailure updated = Some target.
Proof.
  intros Hfound Htarget Hne. unfold updateOne, superUpdateOne.
  rewrite Hfound. rewrite bool_decide_eq_false_2 by congruence.
  eexists. split; [reflexivity|]. simpl. rewrite Htarget. reflexivity.
Qed.


Lemma updateOne_rejects_own_id_witness :
  updateOne "wf1" {| up_name := None; up_runOnFailure := Some "wf1" |} None
    (<["wf1" := sampleWorkflow]> ∅)
  = (Throw (BadRequestException
              "Run On Failure cannot be set with the same workflow ID."),
     <["wf1" := sampleWorkflow]> ∅).
Proof.
  apply (updateOne_rejects_own_id_as_failure_target "wf1" _ None _
           sampleWorkflow).
  - reflexivity.
  - reflexivity.
Defined.

End WorkflowUpdateValidation.

(** ** The pattern matcher against its specification *)

Section Matcher.
Import JsString Js Regex InputUtils Specs.

Lemma append_cons (c : ascii) (a b : string) :
  String c a +:+ b = String c (a +:+ b).
Proof. reflexivity. Qed.

Lemma append_nil_l (b : string) : EmptyString +:+ b = b.
Proof. reflexivity. Qed.

Lemma append_assoc (a b c : string) : (a +:+ b) +:+ c = a +:+ (b +:+ c).
Proof.
  induction a as [|x a IH]; [reflexivity|].
  rewrite !append_cons, IH. reflexivity.
Qed.

Lemma len_append (a b : string) : len (a +:+ b) = len a + len b.
Proof.
  induction a as [|x a IH]; [reflexivity|].
  rewrite append_cons. unfold len in *. simpl. rewrite IH. reflexivity.
Qed.

Lemma len_cons (c : ascii) (a : string) : len (String c a) = S (len a).
Proof. reflexivity. Qed.

Lemma len_pos (a : string) : a <> EmptyString -> 0 < len a.
Proof. destruct a; [congruence|]. intros _. rewrite len_cons. lia. Qed.

Lemma starLoop_complete {A : Type} (m1 : string -> captures -> (string -> captures -> option A) -> option A)
      (r1 : regex) :
  (forall a, Accepts r1 a ->
     forall rest cs k, (forall cs', is_Some (k rest cs')) ->
       is_Some (m1 (a +:+ rest) cs k)) ->
  forall w, Accepts (Star r1) w ->
    forall k rest, (forall cs', is_Some (k rest cs')) ->
      forall fuel cs, len (w +:+ rest) <= fuel ->
        is_Some (starLoop m1 k fuel (w +:+ rest) cs).
Proof.
  intros Hm1 w Hw. remember (Star r1) as r eqn:Hr.
  induction Hw as [| | | r|r a b Ha _ Hne Hb IH|]; try discriminate;
    injection Hr as ->; intros k rest Hk fuel cs Hfuel.
  - rewrite append_nil_l. destruct fuel as [|fuel]; simpl; [apply Hk|].
    destruct (m1 rest cs _); [eauto|apply Hk].
  - specialize (IH eq_refl k rest Hk).
    pose proof (len_pos a Hne) as Hpos.
    rewrite append_assoc, len_append in Hfuel.
    destruct fuel as [|fuel]; [lia|].
    cbn [starLoop]. rewrite append_assoc.
    destruct (Hm1 a Ha (b +:+ rest) cs
                (fun s' cs' =>
                   if Nat.ltb (len s') (len (a +:+ (b +:+ rest)))
                   then starLoop m1 k fuel s' cs' else None)) as [x Hx].
    { intros cs'. rewrite (len_append a).
      assert (Hlt : Nat.ltb (len (b +:+ rest)) (len a + len (b +:+ rest)) = true)
        by (apply Nat.ltb_lt; lia).
      rewrite Hlt. apply IH. lia. }
    rewrite Hx. eauto.
Qed.

Lemma rmatch_complete (r : regex) :
  forall a, Accepts r a ->
    forall (A : Type) rest cs (k : string -> captures -> option A),
      (forall cs', is_Some (k rest cs')) ->
      is_Some (rmatch r (a +:+ rest) cs k).
Proof.
  induction r as [|p|r1 IH1 r2 IH2|r1 IH1|n r1 IH1]; intros a Ha A rest cs k Hk.
  - inversion Ha; subst. rewrite append_nil_l. simpl. apply Hk.
  - inversion Ha as [|p' c Hp| | | |]; subst.
    rewrite append_cons, append_nil_l. simpl. rewrite Hp. apply Hk.
  - inversion Ha; subst. cbn [rmatch]. rewrite append_assoc.
    apply IH1; [assumption|]. intros cs'. apply IH2; assumption.
  - cbn [rmatch]. eapply starLoop_complete; eauto.
  - inversion Ha; subst. cbn [rmatch]. apply IH1; [assumption|].
    intros cs'. apply Hk.
Qed.

Lemma starLoop_sound {A : Type}
      (m1 : string -> captures -> (string -> captures -> option A) -> option A)
      (r1 : regex) :
  (forall s cs k x, m1 s cs k = Some x ->
     exists a rest cs', s = a +:+ rest /\ Accepts r1 a /\ k rest cs' = Some x) ->
  forall k fuel s cs x,
    starLoop m1 k fuel s cs = Some x ->
    exists w rest cs', s = w +:+ rest /\ Accepts (Star r1) w /\ k rest cs' = Some x.
Proof.
  intros Hm1 k fuel. induction fuel as [|fuel IH]; intros s cs x Hx.
  - simpl in Hx. exists EmptyString, s, cs. repeat split; [constructor|exact Hx].
  - cbn [starLoop] in Hx.
    destruct (m1 s cs _) as [y|] eqn:Hy.
    + injection Hx as ->.
      apply Hm1 in Hy as (a & rest & cs' & -> & Ha & Hk).
      destruct (Nat.ltb (len rest) (len (a +:+ rest))) eqn:Hlt; [|discriminate].
      apply IH in Hk as (w & rest' & cs'' & -> & Hw & Hk).
      exists (a +:+ w), rest', cs''. rewrite append_assoc.
      repeat split; [|exact Hk].
      constructor; [exact Ha| |exact Hw].
      intros ->. rewrite append_nil_l in Hlt. apply Nat.ltb_lt in Hlt. lia.
    + exists EmptyString, s, cs. repeat split; [constructor|exact Hx].
Qed.

Lemma rmatch_sound (r : regex) :
  forall (A : Type) s cs (k : string -> captures -> option A) x,
    rmatch r s cs k = Some x ->
    exists a rest cs', s = a +:+ rest /\ Accepts r a /\ k rest cs' = Some x.
Proof.
  induction r as [|p|r1 IH1 r2 IH2|r1 IH1|n r1 IH1]; intros A s cs k x Hx.
  - exists EmptyString, s, cs. repeat split; [constructor|exact Hx].
  - simpl in Hx. destruct s as [|c s]; [discriminate|].
    destruct (p c) eqn:Hp; [|discriminate].
    exists (String c EmptyString), s, cs. repeat split; [constructor; exact Hp|exact Hx].
  - cbn [rmatch] in Hx.
    apply IH1 in Hx as (a & rest & cs' & -> & Ha & Hx).
    apply IH2 in Hx as (b & rest' & cs'' & -> & Hb & Hx).
    exists (a +:+ b), rest', cs''. rewrite append_assoc.
    repeat split; [constructor; assumption|exact Hx].
  - cbn [rmatch] in Hx. eapply starLoop_sound in Hx; [exact Hx|].
    intros. eapply IH1. eassumption.
  - cbn [rmatch] in Hx.
    apply IH1 in Hx as (a & rest & cs' & -> & Ha & Hx).
    eexists a, rest, _. repeat split; [constructor; exact Ha|exact Hx].
Qed.

Lemma matchHere_None (r : regex) (idx : nat) (s : string) :
  matchHere r idx s = None
  <-> ~ exists a rest, s = a +:+ rest /\ Accepts r a.
Proof.
  unfold matchHere. split.
  - intros Hm (a & rest & -> & Ha).
    match type of Hm with
    | rmatch _ _ _ ?k = _ =>
        destruct (rmatch_complete r a Ha _ rest [] k) as [x Hx]; [eauto|]
    end.
    congruence.
  - intros Hno.
    match goal with
    | |- ?m = None => destruct m as [x|] eqn:Hm; [|reflexivity]
    end.
    exfalso. apply Hno.
    apply rmatch_sound in Hm as (a & rest & cs' & Hs & Ha & _). eauto.
Qed.

Lemma execFrom_None (r : regex) (s : string) :
  forall idx, execFrom r idx s = None <-> ~ MatchesIn r s.
Proof.
  induction s as [|c s IH]; intros idx; cbn [execFrom].
  - destruct (matchHere r idx EmptyString) as [m|] eqn:Hm.
    + split; [discriminate|]. intros Hno. exfalso.
      assert (Hsome : matchHere r idx EmptyString <> None) by congruence.
      apply Hsome, matchHere_None. intros (a & rest & Hs & Ha).
      apply Hno. exists EmptyString, a, rest. split; assumption.
    + split; [|reflexivity]. intros _ (before & a & after & Hs & Ha).
      apply matchHere_None in Hm. apply Hm.
      destruct before; [|rewrite append_cons in Hs; discriminate].
      rewrite append_nil_l in Hs. exists a, after. split; assumption.
  - destruct (matchHere r idx (String c s)) as [m|] eqn:Hm.
    + split; [discriminate|]. intros Hno. exfalso.
      assert (Hsome : matchHere r idx (String c s) <> None) by congruence.
      apply Hsome, matchHere_None. intros (a & rest & Hs & Ha).
      apply Hno. exists EmptyString, a, rest. split; assumption.
    + rewrite (IH (S idx)). apply matchHere_None in Hm. split.
      * intros Hrest (before & a & after & Hs & Ha).
        destruct before as [|c' before].
        -- apply Hm. rewrite append_nil_l in Hs.
           exists a, after. split; assumption.
        -- rewrite append_cons in Hs. injection Hs as <- Hs.
           apply Hrest. exists before, a, after. split; assumption.
      * intros Hno (before & a & after & Hs & Ha). apply Hno.
        exists (String c before), a, after. rewrite append_cons, <- Hs.
        split; [reflexivity|exact Ha].
Qed.

Lemma exec_None (r : regex) (s : string) :
  exec r s = None <-> ~ MatchesIn r s.
Proof. apply execFrom_None. Qed.

Lemma execFrom_Some (r : regex) (s : string) :
  forall idx m, execFrom r idx s = Some m -> MatchesIn r s.
Proof.
  assert (Hhere : forall idx s m,
             matchHere r idx s = Some m -> MatchesIn r s).
  { intros idx s0 m Hm. unfold matchHere in Hm.
    apply rmatch_sound in Hm as (a & rest & cs' & Hs & Ha & _).
    exists EmptyString, a, rest. split; assumption. }
  induction s as [|c s IH]; intros idx m; cbn [execFrom].
  - destruct (matchHere r idx EmptyString) as [m'|] eqn:Hm; [|discriminate].
    intros _. eapply Hhere, Hm.
  - destruct (matchHere r idx (String c s)) as [m'|] eqn:Hm.
    + intros _. eapply Hhere, Hm.
    + intros Hrest. apply IH in Hrest as (before & a & after & Hs & Ha).
      exists (String c before), a, after. rewrite append_cons, <- Hs.
      split; [reflexivity|exact Ha].
Qed.

Lemma exec_Some (r : regex) (s : string) (m : Match) :
  exec r s = Some m -> MatchesIn r s.
Proof. apply execFrom_Some. Qed.

(** *** Greedy loops over a character class, and the placeholder pattern *)

Lemma starLoop_class {A : Type} (p : ascii -> bool)
      (k : string -> captures -> option A) (s : string) :
  forall fuel cs, len s <= fuel ->
    starLoop (rmatch (Chr p)) k fuel s cs = greedyClass p k s cs.
Proof.
  induction s as [|c s IH]; intros fuel cs Hfuel.
  - destruct fuel; reflexivity.
  - rewrite len_cons in Hfuel. destruct fuel as [|fuel]; [lia|].
    cbn [starLoop rmatch greedyClass]. destruct (p c); [|reflexivity].
    rewrite len_cons.
    assert (Hlt : Nat.ltb (len s) (S (len s)) = true) by (apply Nat.ltb_lt; lia).
    rewrite Hlt. rewrite IH by lia. reflexivity.
Qed.

Lemma greedyClass_stop {A : Type} (p : ascii -> bool)
      (k : string -> captures -> option A) (tail : string) (cs : captures) :
  headFails p tail -> greedyClass p k tail cs = k tail cs.
Proof.
  destruct tail as [|c tail]; simpl; [reflexivity|]. intros ->. reflexivity.
Qed.

Lemma greedyClass_longest {A : Type} (p : ascii -> bool)
      (k : string -> captures -> option A) (run tail : string)
      (cs : captures) (x : A) :
  allChars p run = true -> headFails p tail -> k tail cs = Some x ->
  greedyClass p k (run +:+ tail) cs = Some x.
Proof.
  intros Hrun Htail Hk. induction run as [|c run IH].
  - rewrite append_nil_l, greedyClass_stop; assumption.
  - simpl in Hrun. apply andb_prop in Hrun as [Hc Hrun].
    rewrite append_cons. cbn [greedyClass]. rewrite Hc, (IH Hrun). reflexivity.
Qed.

Lemma greedyClass_one_back {A : Type} (p : ascii -> bool)
      (k : string -> captures -> option A) (run tail : string) (c : ascii)
      (cs : captures) (x : A) :
  allChars p run = true -> p c = true -> headFails p tail ->
  k tail cs = None -> k (String c tail) cs = Some x ->
  greedyClass p k (run +:+ String c tail) cs = Some x.
Proof.
  intros Hrun Hc Htail Hnone Hk. induction run as [|c' run IH].
  - rewrite append_nil_l. cbn [greedyClass]. rewrite Hc.
    rewrite greedyClass_stop, Hnone by assumption. exact Hk.
  - simpl in Hrun. apply andb_prop in Hrun as [Hc' Hrun].
    rewrite append_cons. cbn [greedyClass]. rewrite Hc', (IH Hrun). reflexivity.
Qed.

Lemma rmatch_Lit {A : Type} (lit s : string) (cs : captures)
      (k : string -> captures -> option A) :
  rmatch (Lit lit) (lit +:+ s) cs k = k s cs.
Proof.
  induction lit as [|c lit IH]; [reflexivity|].
  rewrite append_cons. cbn [Lit rmatch]. rewrite Ascii.eqb_refl. exact IH.
Qed.

Lemma rmatch_star_class {A : Type} (p : ascii -> bool) (s : string)
      (cs : captures) (k : string -> captures -> option A) :
  rmatch (Star (Chr p)) s cs k = greedyClass p k s cs.
Proof. cbn [rmatch]. apply starLoop_class. lia. Qed.

(** Splitting a text into its leading white space and the rest. *)
Lemma trimStart_split (s : string) :
  exists w, s = w +:+ trimStart s /\ allChars isWhiteSpace w = true
            /\ headFails isWhiteSpace (trimStart s).
Proof.
  induction s as [|c s (w & Hs & Hw & Hh)].
  - exists EmptyString. repeat split.
  - simpl. destruct (isWhiteSpace c) eqn:Hc.
    + exists (String c w). rewrite append_cons, <- Hs. simpl. rewrite Hc.
      repeat split; assumption.
    + exists EmptyString. repeat split. exact Hc.
Qed.

Lemma append_nil_r (a : string) : a +:+ EmptyString = a.
Proof.
  induction a as [|x a IH]; [reflexivity|]. rewrite append_cons, IH. reflexivity.
Qed.

Lemma rmatch_Seq {A : Type} (r1 r2 : regex) (s : string) (cs : captures)
      (k : string -> captures -> option A) :
  rmatch (Seq r1 r2) s cs k = rmatch r1 s cs (fun s' cs' => rmatch r2 s' cs' k).
Proof. reflexivity. Qed.

Lemma rmatch_Group {A : Type} (n : nat) (r : regex) (s : string) (cs : captures)
      (k : string -> captures -> option A) :
  rmatch (Group n r) s cs k
  = rmatch r s cs
      (fun s' cs' => k s' (setCapture n (substringTo (len s - len s') s) cs')).
Proof. reflexivity. Qed.

Lemma rmatch_Chr_cons {A : Type} (p : ascii -> bool) (c : ascii) (s : string)
      (cs : captures) (k : string -> captures -> option A) :
  rmatch (Chr p) (String c s) cs k = if p c then k s cs else None.
Proof. reflexivity. Qed.

Lemma rmatch_Plus_class {A : Type} (p : ascii -> bool) (c : ascii) (s : string)
      (cs : captures) (k : string -> captures -> option A) :
  rmatch (Plus (Chr p)) (String c s) cs k
  = if p c then greedyClass p k s cs else None.
Proof.
  unfold Plus. rewrite rmatch_Seq, rmatch_Chr_cons.
  destruct (p c); [apply rmatch_star_class|reflexivity].
Qed.

Lemma substringTo_prefix (a b : string) : substringTo (len a) (a +:+ b) = a.
Proof.
  induction a as [|x a IH]; [destruct b; reflexivity|].
  rewrite append_cons, len_cons. cbn [substringTo]. rewrite IH. reflexivity.
Qed.

Lemma len_minus_append (a b : string) : len (a +:+ b) - len b = len a.
Proof. rewrite len_append. lia. Qed.

Lemma string_snoc (s : string) :
  s <> EmptyString -> exists s' c, s = s' +:+ String c EmptyString.
Proof.
  induction s as [|c s IH]; [congruence|]. intros _.
  destruct s as [|c' s].
  - exists EmptyString, c. reflexivity.
  - destruct (IH ltac:(discriminate)) as (s' & d & Hs).
    exists (String c s'), d. rewrite append_cons, <- Hs. reflexivity.
Qed.

Lemma allChars_append (p : ascii -> bool) (a b : string) :
  allChars p (a +:+ b) = allChars p a && allChars p b.
Proof.
  induction a as [|x a IH]; [reflexivity|].
  rewrite append_cons. simpl. rewrite IH, andb_assoc. reflexivity.
Qed.

Lemma trimStart_all_white (w : string) :
  allChars isWhiteSpace w = true -> trimStart w = EmptyString.
Proof.
  induction w as [|c w IH]; [reflexivity|]. simpl.
  intros H. apply andb_prop in H as [-> H]. auto.
Qed.

Lemma trimStart_headFails (s : string) :
  headFails isWhiteSpace s -> trimStart s = s.
Proof. destruct s as [|c s]; [reflexivity|]. simpl. intros ->. reflexivity. Qed.

Lemma white_not_brace_l (c : ascii) : isWhiteSpace c = true -> Ascii.eqb c "{" = false.
Proof.
  intros H. destruct (Ascii.eqb_spec c "{") as [->|]; [discriminate|reflexivity].
Qed.

(** Where a placeholder starts, the pattern matches it, and the group holds
    its body up to white space. *)
Lemma matchHere_placeholder (idx : nat) (body rest : string) :
  body <> EmptyString ->
  allChars (notChar "}") body = true ->
  exists m,
    matchHere variableRegex idx ("{{" +:+ body +:+ "}}" +:+ rest) = Some m
    /\ index m = idx
    /\ text m = "{{" +:+ body +:+ "}}"
    /\ trim (group1 m) = trim body.
Proof.
  intros Hne Hbody. unfold matchHere, variableRegex.
  set (whole := "{{" +:+ body +:+ "}}" +:+ rest).
  set (K := fun (s' : string) (cs : captures) =>
              Some (mkMatch idx (substringTo (len whole - len s') whole) cs)).
  assert (Htext : substringTo (len whole - len rest) whole
                  = "{{" +:+ body +:+ "}}").
  { subst whole.
    replace ("{{" +:+ body +:+ "}}" +:+ rest)
      with (("{{" +:+ body +:+ "}}") +:+ rest)
      by (rewrite !append_assoc; reflexivity).
    rewrite len_minus_append. apply substringTo_prefix. }
  assert (Hclose : forall cs,
             rmatch (Seq (Star (Chr isWhiteSpace)) (Lit "}}"))
               ("}}" +:+ rest) cs K = K rest cs).
  { intros cs. rewrite rmatch_Seq, rmatch_star_class.
    rewrite greedyClass_stop by reflexivity. apply rmatch_Lit. }
  subst whole. rewrite rmatch_Seq, rmatch_Lit, rmatch_Seq, rmatch_star_class.
  destruct (trimStart_split body) as (w & Hsplit & Hw & Hhead).
  destruct (trimStart body) as [|c t] eqn:Htrim.
  - (* the body is white space only: the group takes its last character *)
    rewrite append_nil_r in Hsplit. subst w.
    destruct (string_snoc body Hne) as (w' & c & Hbody').
    assert (Hcw : isWhiteSpace c = true /\ allChars isWhiteSpace w' = true).
    { rewrite Hbody', allChars_append in Hw. apply andb_prop in Hw as [Hw' Hc].
      simpl in Hc. rewrite andb_true_r in Hc. split; assumption. }
    assert (Hcn : notChar "}" c = true).
    { rewrite Hbody', allChars_append in Hbody.
      apply andb_prop in Hbody as [_ Hc]. simpl in Hc.
      rewrite andb_true_r in Hc. exact Hc. }
    destruct Hcw as [Hc Hw'].
    eexists. split.
    + rewrite Hbody' at 1. rewrite append_assoc, append_cons, append_nil_l.
      apply greedyClass_one_back; [exact Hw'|exact Hc|reflexivity| |].
      * rewrite rmatch_Seq, rmatch_Group. reflexivity.
      * rewrite rmatch_Seq, rmatch_Group, rmatch_Plus_class, Hcn.
        rewrite greedyClass_stop by reflexivity.
        rewrite Hclose. unfold K. reflexivity.
    + cbn [index text groups]. split; [reflexivity|]. split; [exact Htext|].
      unfold group1. cbn [groups getCapture setCapture Nat.eqb].
      cbn [default from_option id].
      change (String c ("}}" +:+ rest)) with (String c EmptyString +:+ ("}}" +:+ rest)).
      rewrite len_minus_append, substringTo_prefix.
      unfold trim. rewrite Htrim. simpl trimStart. rewrite Hc. reflexivity.
  - (* the group takes the body without its leading white space *)
    assert (Hct : notChar "}" c = true /\ allChars (notChar "}") t = true).
    { rewrite Hsplit, allChars_append in Hbody.
      apply andb_prop in Hbody as [_ Hb]. simpl in Hb.
      apply andb_prop in Hb. exact Hb. }
    destruct Hct as [Hc Ht].
    eexists. split.
    + rewrite Hsplit at 1. rewrite append_assoc.
      apply greedyClass_longest; [exact Hw| |].
      * rewrite append_cons. exact Hhead.
      * rewrite rmatch_Seq, rmatch_Group, append_cons, rmatch_Plus_class, Hc.
        erewrite greedyClass_longest; [reflexivity|exact Ht|reflexivity|].
        rewrite Hclose. unfold K. reflexivity.
    + cbn [index text groups]. split; [reflexivity|]. split; [exact Htext|].
      unfold group1. cbn [groups getCapture setCapture Nat.eqb].
      cbn [default from_option id].
      rewrite <- append_cons, len_minus_append, substringTo_prefix.
      unfold trim. rewrite Htrim.
      rewrite (trimStart_headFails (String c t)) by exact Hhead. reflexivity.
Qed.

Lemma matchHere_other_start (idx : nat) (c : ascii) (s : string) :
  Ascii.eqb "{" c = false -> matchHere variableRegex idx (String c s) = None.
Proof.
  intros Hc. unfold matchHere, variableRegex. rewrite rmatch_Seq.
  cbn [Lit]. rewrite rmatch_Seq, rmatch_Chr_cons, Hc. reflexivity.
Qed.

Lemma matchHere_empty (idx : nat) : matchHere variableRegex idx EmptyString = None.
Proof. reflexivity. Qed.

Lemma white_is_not_open (c : ascii) :
  isWhiteSpace c = true -> Ascii.eqb "{" c = false.
Proof.
  intros H. destruct (Ascii.eqb_spec "{" c) as [<-|]; [discriminate|reflexivity].
Qed.

Lemma matchAllFrom_white (ws : string) :
  allChars isWhiteSpace ws = true ->
  forall fuel idx, matchAllFrom variableRegex fuel idx ws = [].
Proof.
  induction ws as [|c ws IH]; intros Hws fuel idx.
  - destruct fuel; reflexivity.
  - simpl in Hws. apply andb_prop in Hws as [Hc Hws].
    destruct fuel as [|fuel]; [reflexivity|]. cbn [matchAllFrom].
    rewrite matchHere_other_start by (apply white_is_not_open; exact Hc).
    apply IH. exact Hws.
Qed.

Lemma matchAllFrom_skip_white (ws tail : string) :
  allChars isWhiteSpace ws = true ->
  forall fuel idx,
    matchAllFrom variableRegex (len ws + fuel) idx (ws +:+ tail)
    = matchAllFrom variableRegex fuel (idx + len ws) tail.
Proof.
  induction ws as [|c ws IH]; intros Hws fuel idx.
  - rewrite append_nil_l. simpl. rewrite Nat.add_0_r. reflexivity.
  - simpl in Hws. apply andb_prop in Hws as [Hc Hws].
    rewrite append_cons, len_cons. cbn [plus matchAllFrom].
    rewrite matchHere_other_start by (apply white_is_not_open; exact Hc).
    rewrite (IH Hws). f_equal. lia.
Qed.

Lemma substringFrom_prefix (a b : string) : substringFrom (len a) (a +:+ b) = b.
Proof.
  induction a as [|x a IH]; [destruct b; reflexivity|].
  rewrite append_cons, len_cons. cbn [substringFrom]. exact IH.
Qed.

(** A text that is one placeholder between white space has exactly one
    match. *)
Lemma matchAll_whole_placeholder (ws1 body ws2 : string) :
  allChars isWhiteSpace ws1 = true ->
  allChars isWhiteSpace ws2 = true ->
  body <> EmptyString ->
  allChars (notChar "}") body = true ->
  exists m,
    matchAll variableRegex (ws1 +:+ "{{" +:+ body +:+ "}}" +:+ ws2) = [m]
    /\ text m = "{{" +:+ body +:+ "}}"
    /\ trim (group1 m) = trim body.
Proof.
  intros Hws1 Hws2 Hne Hbody. unfold matchAll.
  destruct (matchHere_placeholder (0 + len ws1) body ws2 Hne Hbody)
    as (m & Hm & _ & Htext & Hgroup).
  exists m. split; [|split; assumption].
  set (tail := "{{" +:+ body +:+ "}}" +:+ ws2) in *.
  replace (S (len (ws1 +:+ tail))) with (len ws1 + S (len tail))
    by (rewrite len_append; lia).
  rewrite (matchAllFrom_skip_white ws1 tail Hws1).
  cbn [matchAllFrom]. rewrite Hm.
  assert (Hlen : len (text m) = S (S (len body + 2))).
  { rewrite Htext, !append_cons, append_nil_l, !len_cons, len_append.
    reflexivity. }
  rewrite Hlen. f_equal.
  assert (Htail : tail = text m +:+ ws2).
  { subst tail. rewrite Htext, !append_assoc. reflexivity. }
  destruct tail as [|c tail'] eqn:Htl; [discriminate|].
  rewrite <- Hlen, Htail, substringFrom_prefix.
  apply matchAllFrom_white. exact Hws2.
Qed.

(** Reversal and trimming. *)
Lemma rev_onto_spec (s acc : string) : rev_onto s acc = rev s +:+ acc.
Proof.
  unfold rev. revert acc. induction s as [|c s IH]; intros acc; [reflexivity|].
  cbn [rev_onto]. rewrite IH, (IH (String c EmptyString)), append_assoc.
  reflexivity.
Qed.

Lemma rev_cons (c : ascii) (s : string) :
  rev (String c s) = rev s +:+ String c EmptyString.
Proof. unfold rev at 1. cbn [rev_onto]. apply rev_onto_spec. Qed.

Lemma rev_append (a b : string) : rev (a +:+ b) = rev b +:+ rev a.
Proof.
  induction a as [|c a IH].
  - rewrite append_nil_l. unfold rev at 3. cbn [rev_onto].
    rewrite append_nil_r. reflexivity.
  - rewrite append_cons, !rev_cons, IH, append_assoc. reflexivity.
Qed.

Lemma rev_involutive (a : string) : rev (rev a) = a.
Proof.
  induction a as [|c a IH]; [reflexivity|].
  rewrite rev_cons, rev_append, IH. reflexivity.
Qed.

Lemma allChars_rev (p : ascii -> bool) (s : string) :
  allChars p (rev s) = allChars p s.
Proof.
  induction s as [|c s IH]; [reflexivity|].
  rewrite rev_cons, allChars_append, IH. simpl.
  rewrite andb_true_r, andb_comm. reflexivity.
Qed.

Lemma trimStart_skip (w s : string) :
  allChars isWhiteSpace w = true -> trimStart (w +:+ s) = trimStart s.
Proof.
  induction w as [|c w IH]; intros Hw; [reflexivity|].
  simpl in Hw. apply andb_prop in Hw as [Hc Hw].
  rewrite append_cons. cbn [trimStart]. rewrite Hc. auto.
Qed.

Lemma trim_whole_placeholder (ws1 body ws2 : string) :
  allChars isWhiteSpace ws1 = true ->
  allChars isWhiteSpace ws2 = true ->
  trim (ws1 +:+ "{{" +:+ body +:+ "}}" +:+ ws2) = "{{" +:+ body +:+ "}}".
Proof.
  intros Hws1 Hws2. unfold trim, trimEnd.
  rewrite trimStart_skip by exact Hws1.
  rewrite (trimStart_headFails ("{{" +:+ body +:+ "}}" +:+ ws2)) by reflexivity.
  replace ("{{" +:+ body +:+ "}}" +:+ ws2)
    with (("{{" +:+ body +:+ "}}") +:+ ws2)
    by (rewrite !append_assoc; reflexivity).
  rewrite rev_append, trimStart_skip by (rewrite allChars_rev; exact Hws2).
  rewrite trimStart_headFails; [apply rev_involutive|].
  replace ("{{" +:+ body +:+ "}}") with (("{{" +:+ body) +:+ "}}")
    by (rewrite !append_assoc; reflexivity).
  rewrite rev_append. reflexivity.
Qed.


End Matcher.

(** ** Resolved input mappings: keys and empty objects *)

Section ResolvedKeys.
Import Js InputUtils Fixtures.

Variable get : value -> string -> value.
Variable evaluate : string -> result value.

Lemma keys_setField (k : string) (v : value) (fs : list (string * value)) :
  keys (setField k v fs)
  = if hasField k fs then keys fs else keys fs ++ [k].
Proof.
  unfold hasField. induction fs as [|[k' v'] fs IH]; simpl; [reflexivity|].
  destruct (String.eqb_spec k' k) as [->|Hne]; simpl; [reflexivity|].
  rewrite IH. destruct (getField k fs); reflexivity.
Qed.

Lemma hasField_elem_of (k : string) (fs : list (string * value)) :
  hasField k fs = true <-> k ∈ keys fs.
Proof.
  unfold hasField, keys. induction fs as [|[k' v'] fs IH]; simpl.
  - split; [discriminate|]. intros H. inversion H.
  - destruct (String.eqb_spec k' k) as [->|Hne].
    + split; [intros _; left | reflexivity].
    + rewrite IH. split; [intros H; right; exact H|].
      intros H. inversion H; subst; [congruence|assumption].
Qed.

Lemma elem_of_keys_setField (k k0 : string) (v : value)
      (fs : list (string * value)) :
  k0 ∈ keys (setField k v fs) <-> k0 = k \/ k0 ∈ keys fs.
Proof.
  rewrite keys_setField. destruct (hasField k fs) eqn:Hk.
  - apply hasField_elem_of in Hk. split; [tauto|]. intros [->|H]; assumption.
  - rewrite elem_of_app, list_elem_of_singleton. tauto.
Qed.

Lemma getField_setField_eq (k : string) (v : value)
      (fs : list (string * value)) :
  getField k (setField k v fs) = Some v.
Proof.
  induction fs as [|[k' v'] fs IH]; simpl.
  - rewrite String.eqb_refl. reflexivity.
  - destruct (String.eqb_spec k' k) as [->|Hne]; simpl.
    + rewrite String.eqb_refl. reflexivity.
    + destruct (String.eqb_spec k' k); [congruence|exact IH].
Qed.

Lemma getField_setField_ne (k k0 : string) (v : value)
      (fs : list (string * value)) :
  k0 <> k -> getField k0 (setField k v fs) = getField k0 fs.
Proof.
  intros Hne. induction fs as [|[k' v'] fs IH]; simpl.
  - destruct (String.eqb_spec k k0); [congruence|reflexivity].
  - destruct (String.eqb_spec k' k) as [->|Hk]; simpl.
    + destruct (String.eqb_spec k k0); [congruence|reflexivity].
    + destruct (String.eqb_spec k' k0); [reflexivity|exact IH].
Qed.

Lemma getField_Some_elem_of (k : string) (v : value)
      (fs : list (string * value)) :
  getField k fs = Some v -> (k, v) ∈ fs.
Proof.
  induction fs as [|[k' v'] fs IH]; simpl; [discriminate|].
  destruct (String.eqb_spec k' k) as [->|Hne].
  - intros [= ->]. left.
  - intros H. right. auto.
Qed.

(** Assignment, for a key that does not name the prototype, defines the
    property; for the key of the prototype it leaves an object without
    such a property as it is. *)
Lemma assignField_other (k : string) (v : value) (fs : list (string * value)) :
  k <> protoKey -> assignField k v fs = setField k v fs.
Proof.
  intros Hk. unfold assignField.
  destruct (String.eqb_spec k protoKey); [contradiction|reflexivity].
Qed.

Lemma assignField_proto (v : value) (fs : list (string * value)) :
  protoKey ∉ keys fs -> assignField protoKey v fs = fs.
Proof.
  intros Hk. unfold assignField. rewrite String.eqb_refl.
  destruct (hasField protoKey fs) eqn:Hhas; [|reflexivity].
  apply hasField_elem_of in Hhas. contradiction.
Qed.

Lemma assignField_keeps_proto_out (k : string) (v : value)
      (fs : list (string * value)) :
  protoKey ∉ keys fs -> protoKey ∉ keys (assignField k v fs).
Proof.
  intros Hout. destruct (String.eqb_spec k protoKey) as [->|Hk].
  - rewrite assignField_proto by exact Hout. exact Hout.
  - rewrite assignField_other by exact Hk. rewrite elem_of_keys_setField.
    intros [H|H]; [congruence|contradiction].
Qed.

Lemma assignable_true (k : string) : assignable k = true <-> k <> protoKey.
Proof.
  unfold assignable. rewrite negb_true_iff.
  destruct (String.eqb_spec k protoKey); split; congruence.
Qed.

(** The key set after the loop: the keys it started with and the keys of
    the entries it went through, but for the key of the prototype. *)
Lemma parseEntries_keys (fs : list (string * value)) (outputs : value) :
  forall acc m,
    protoKey ∉ keys acc ->
    parseEntries get evaluate fs outputs acc = Ok m ->
    forall k, k ∈ keys m <-> k ∈ keys acc \/ (k ∈ keys fs /\ k <> protoKey).
Proof.
  induction fs as [|[key x] fs IH]; simpl; intros acc m Hout Hm k.
  - injection Hm as <-. split; [tauto|].
    intros [H|[H _]]; [exact H|inversion H].
  - destruct (parseInput get evaluate x outputs) as [y|e] eqn:Hy;
      simpl in Hm; [|discriminate].
    rewrite (IH _ _ (assignField_keeps_proto_out key y acc Hout) Hm k).
    rewrite elem_of_cons.
    destruct (String.eqb_spec key protoKey) as [->|Hkey].
    + rewrite assignField_proto by exact Hout. split.
      * intros [H|[H Hk]]; [left; exact H|right; split; [right; exact H|exact Hk]].
      * intros [H|[[->|H] Hk]]; [left; exact H|contradiction|right; split; assumption].
    + rewrite assignField_other by exact Hkey.
      rewrite elem_of_keys_setField. split.
      * intros [[->|H]|[H Hk]];
          [right; split; [left; reflexivity|exact Hkey]|left; exact H
          |right; split; [right; exact H|exact Hk]].
      * intros [H|[[->|H] Hk]];
          [left; right; exact H|left; left; reflexivity
          |right; split; assumption].
Qed.

Lemma NoDup_app_drop_middle {A : Type} (l : list A) (x : A) (k : list A) :
  NoDup (l ++ x :: k) -> NoDup (l ++ k).
Proof.
  rewrite !NoDup_app, NoDup_cons. intros (Hl & Hdisj & _ & Hk).
  split; [exact Hl|]. split; [|exact Hk].
  intros y Hy Hin. apply (Hdisj y Hy). right. exact Hin.
Qed.

(** With distinct keys, as in any object, the keys come out in the order of
    the input. *)
Lemma parseEntries_keys_order (fs : list (string * value)) (outputs : value) :
  forall acc m,
    NoDup (keys acc ++ keys fs) ->
    protoKey ∉ keys acc ->
    parseEntries get evaluate fs outputs acc = Ok m ->
    keys m = keys acc ++ List.filter assignable (keys fs).
Proof.
  induction fs as [|[key x] fs IH]; simpl; intros acc m Hnd Hout Hm.
  - injection Hm as <-. rewrite app_nil_r. reflexivity.
  - destruct (parseInput get evaluate x outputs) as [y|e] eqn:Hy;
      simpl in Hm; [|discriminate].
    destruct (String.eqb_spec key protoKey) as [->|Hkey].
    + rewrite assignField_proto in Hm by exact Hout.
      change (assignable protoKey) with false. cbn iota.
      apply (IH _ _ (NoDup_app_drop_middle _ _ _ Hnd)
               Hout Hm).
    + rewrite assignField_other in Hm by exact Hkey.
      assert (Hfresh : hasField key acc = false).
      { destruct (hasField key acc) eqn:Hk; [|reflexivity].
        apply hasField_elem_of in Hk. apply NoDup_app in Hnd as (_ & Hdisj & _).
        exfalso. apply (Hdisj key Hk). left. }
      assert (Hkeys : keys (setField key y acc) = keys acc ++ [key]).
      { rewrite keys_setField, Hfresh. reflexivity. }
      assert (Hout' : protoKey ∉ keys (setField key y acc)).
      { rewrite Hkeys, elem_of_app, list_elem_of_singleton.
        intros [H|H]; [contradiction|congruence]. }
      rewrite (IH _ _ ltac:(rewrite Hkeys, <- app_assoc; exact Hnd) Hout' Hm).
      rewrite Hkeys, <- app_assoc.
      apply assignable_true in Hkey. rewrite Hkey. reflexivity.
Qed.

(** Every entry under a key other than the key of the prototype is
    resolved by [parseInput] and stored under its key. *)
Lemma parseEntries_lookup (fs : list (string * value)) (outputs : value) :
  forall acc m,
    NoDup (keys fs) ->
    parseEntries get evaluate fs outputs acc = Ok m ->
    forall k x, k <> protoKey -> getField k fs = Some x ->
      exists y, parseInput get evaluate x outputs = Ok y /\ getField k m = Some y.
Proof.
  induction fs as [|[key x0] fs IH]; simpl; intros acc m Hnd Hm k x Hproto Hk;
    [discriminate|].
  destruct (parseInput get evaluate x0 outputs) as [y0|e] eqn:Hy;
    simpl in Hm; [|discriminate].
  apply NoDup_cons in Hnd as [Hnotin Hnd].
  destruct (String.eqb_spec key k) as [->|Hne].
  - injection Hk as <-. exists y0. split; [exact Hy|].
    assert (Hstay : forall fs' acc' m',
               k ∉ keys fs' ->
               parseEntries get evaluate fs' outputs acc' = Ok m' ->
               getField k m' = getField k acc').
    { clear -Hproto. induction fs' as [|[k1 x1] fs' IH']; simpl;
        intros acc' m' Hn Hm'.
      - injection Hm' as <-. reflexivity.
      - destruct (parseInput get evaluate x1 outputs) as [y1|e1];
          simpl in Hm'; [|discriminate].
        rewrite (IH' _ _ ltac:(intros H; apply Hn; right; exact H) Hm').
        unfold assignField. destruct (String.eqb k1 protoKey && _);
          [reflexivity|].
        apply getField_setField_ne. intros ->. apply Hn. left. }
    rewrite (Hstay _ _ _ Hnotin Hm), assignField_other by exact Hproto.
    apply getField_setField_eq.
  - eapply IH; eauto.
Qed.

(** The object case of [parseInput] runs the same loop as
    [parseStepInputs]. *)
Lemma parseInput_object (fs : list (string * value)) (outputs : value) :
  parseInput get evaluate (JObj fs) outputs
  = match fs with
    | [] => Ok JUndefined
    | _ :: _ => JObj <$> parseEntries get evaluate fs outputs []
    end.
Proof.
  assert (Hloop : forall l prev,
             (fix each (fs prev : list (string * value))
                : result (list (string * value)) :=
                match fs with
                | [] => Ok prev
                | (key, x) :: fs' =>
                    y ← parseInput get evaluate x outputs;
                    each fs' (assignField key y prev)
                end) l prev
             = parseEntries get evaluate l outputs prev).
  { induction l as [|[key x] l IH]; intros prev; simpl; [reflexivity|].
    destruct (parseInput get evaluate x outputs); simpl; [apply IH|reflexivity]. }
  destruct fs as [|f fs]; [reflexivity|].
  rewrite <- Hloop. reflexivity.
Qed.

Lemma proto_not_in_empty : protoKey ∉ keys [].
Proof. intros H. inversion H. Qed.

(** Keys and bindings of the mapping [parseStepInputs] returns. *)
Lemma parseStepInputs_resolved
      (inputs : list (string * value)) (outputs : value)
      (parsedInputs : list (string * value)) :
  parseStepInputs get evaluate inputs outputs = Ok parsedInputs ->
  (forall k, k ∈ keys parsedInputs <-> k ∈ keys inputs /\ k <> protoKey)
  /\ (NoDup (keys inputs) ->
      keys parsedInputs = List.filter assignable (keys inputs)
      /\ forall k, k <> protoKey ->
                   getField k inputs = Some (JObj []) ->
                   getField k parsedInputs = Some JUndefined).
Proof.
  unfold parseStepInputs. intros Hm. split.
  - intros k. rewrite (parseEntries_keys _ _ _ _ proto_not_in_empty Hm k).
    simpl. split; [intros [H|H]; [inversion H|exact H]|tauto].
  - intros Hnd. split.
    + exact (parseEntries_keys_order _ _ [] _ Hnd proto_not_in_empty Hm).
    + intros k Hproto Hk.
      destruct (parseEntries_lookup _ _ _ _ Hnd Hm k _ Hproto Hk)
        as (y & Hy & Hget).
      simpl in Hy. injection Hy as <-. exact Hget.
Qed.


(** C4 (amended).  An empty object resolves to [undefined]; its parent,
    whether a nested object or the top-level mapping, keeps the key and
    binds it to [undefined]: the key is not removed.  The keys of the
    resolved parent are the keys of the parent in their order, but for an
    own key [__proto__], which an assignment does not create. *)
Theorem empty_object_resolves_to_undefined_under_its_key
        (outputs : value) (parent : list (string * value)) (k : string) :
  NoDup (keys parent) ->
  k <> protoKey ->
  getField k parent = Some (JObj []) ->
  parseInput get evaluate (JObj []) outputs = Ok JUndefined
  /\ (forall resolved,
        parseInput get evaluate (JObj parent) outputs = Ok resolved ->
        exists fields,
          resolved = JObj fields
          /\ keys fields = List.filter assignable (keys parent)
          /\ getField k fields = Some JUndefined)
  /\ (forall parsedInputs,
        parseStepInputs get evaluate parent outputs = Ok parsedInputs ->
        keys parsedInputs = List.filter assignable (keys parent)
        /\ getField k parsedInputs = Some JUndefined).
Proof.
  intros Hnd Hproto Hk. split; [reflexivity|]. split.
  - intros resolved. rewrite parseInput_object.
    destruct parent as [|f parent']; [discriminate|].
    destruct (parseEntries get evaluate (f :: parent') outputs [])
      as [fields|e] eqn:Hfields; [|discriminate].
    intros [= <-]. exists fields. split; [reflexivity|].
    destruct (parseStepInputs_resolved _ _ _ Hfields) as [_ Hkeys].
    destruct (Hkeys Hnd) as [Horder Hundef]. split; [exact Horder|].
    apply Hundef; assumption.
  - intros parsedInputs Hparsed.
    destruct (parseStepInputs_resolved _ _ _ Hparsed) as [_ Hkeys].
    destruct (Hkeys Hnd) as [Horder Hundef]. split; [exact Horder|].
    apply Hundef; assumption.
Qed.

End ResolvedKeys.



(** C4 (as stated) fails: the key of an empty object is still there after
    resolution, bound to [undefined]. *)
Lemma empty_object_key_is_not_omitted :
  InputUtils.parseStepInputs Lodash.get Fixtures.sampleEvaluate
    [("filter", Js.JObj [])] (Js.JObj [])
  = Js.Ok [("filter", Js.JUndefined)]
  /\ Js.hasField "filter" [("filter", Js.JUndefined)] = true
  /\ InputUtils.parseInput Lodash.get Fixtures.sampleEvaluate
       (Js.JObj [("body", Js.JObj [("filter", Js.JObj [])])]) (Js.JObj [])
     = Js.Ok (Js.JObj [("body", Js.JObj [("filter", Js.JUndefined)])]).
Proof. vm_compute. repeat split; reflexivity. Qed.

Lemma empty_object_resolves_to_undefined_witness :
  InputUtils.parseInput Lodash.get Fixtures.sampleEvaluate (Js.JObj [])
    (Js.JObj [])
  = Js.Ok Js.JUndefined
  /\ (forall resolved,
        InputUtils.parseInput Lodash.get Fixtures.sampleEvaluate
          (Js.JObj [("filter", Js.JObj [])]) (Js.JObj []) = Js.Ok resolved ->
        exists fields,
          resolved = Js.JObj fields
          /\ Js.keys fields
             = List.filter Js.assignable (Js.keys [("filter", Js.JObj [])])
          /\ Js.getField "filter" fields = Some Js.JUndefined)
  /\ (forall parsedInputs,
        InputUtils.parseStepInputs Lodash.get Fixtures.sampleEvaluate
          [("filter", Js.JObj [])] (Js.JObj []) = Js.Ok parsedInputs ->
        Js.keys parsedInputs
        = List.filter Js.assignable (Js.keys [("filter", Js.JObj [])])
        /\ Js.getField "filter" parsedInputs = Some Js.JUndefined).
Proof.
  apply (empty_object_resolves_to_undefined_under_its_key
           Lodash.get Fixtures.sampleEvaluate (Js.JObj [])
           [("filter", Js.JObj [])] "filter").
  - vm_compute. apply NoDup_cons. split; [intros H; inversion H|apply NoDup_nil_2].
  - discriminate.
  - reflexivity.
Defined.

(** ** The resolver returns whenever the evaluator does *)

Section Totality.
Import JsString Js Regex InputUtils.

Variable get : value -> string -> value.
Variable evaluate : string -> result value.

(** Induction on values, through arrays and objects. *)
Lemma value_nested_ind (P : value -> Prop) :
  P JUndefined -> P JNull -> (forall b, P (JBool b)) -> (forall n, P (JNum n)) ->
  (forall s, P (JStr s)) -> (forall iso text, P (JDate iso text)) ->
  (forall items, Forall P items -> P (JArr items)) ->
  (forall fields, Forall (fun kv => P (snd kv)) fields -> P (JObj fields)) ->
  forall v, P v.
Proof.
  intros Hu Hn Hb Hz Hs Hd Ha Ho. fix IH 1.
  intros [| |b|n|s|iso text|items|fields];
    [exact Hu|exact Hn|apply Hb|apply Hz|apply Hs|apply Hd| |].
  - apply Ha. induction items as [|x items IHitems]; constructor;
      [apply IH|exact IHitems].
  - apply Ho. induction fields as [|[k x] fields IHfields]; constructor;
      [apply IH|exact IHfields].
Qed.

(** In every case other than the whole-placeholder one, resolving a string
    produces a string. *)
Lemma parseString_shape (input : string) (outputs v : value) :
  parseString get evaluate input outputs = Ok v ->
  (exists m,
      matchAll variableRegex input = [m] /\ trim input = text m
      /\ calculateExpression get evaluate (trim (group1 m)) outputs = Ok v)
  \/ exists t, v = JStr t.
Proof.
  unfold parseString.
  assert (Hother : JStr <$> replaceVariables get evaluate
                               (matchAll variableRegex input) outputs input
                   = Ok v -> exists t, v = JStr t).
  { destruct (replaceVariables _ _ _ _) as [t|e]; simpl; [|discriminate].
    intros [= <-]. eauto. }
  destruct (matchAll variableRegex input) as [|m [|m' rest]] eqn:Hall;
    try (intros H; right; exact (Hother H)).
  destruct (String.eqb_spec (trim input) (text m)) as [Heq|Hne].
  - intros H. left. exists m. repeat split; assumption.
  - intros H. right. exact (Hother H).
Qed.

Hypothesis evaluate_total : forall expression, exists v, evaluate expression = Ok v.

Lemma calculateExpression_total (input : string) (references : value) :
  exists v, calculateExpression get evaluate input references = Ok v.
Proof.
  unfold calculateExpression.
  destruct (matchAll operatorsRegex input) as [|op [|op' rest]];
    try apply evaluate_total.
  destruct (String.eqb _ _); [eauto|apply evaluate_total].
Qed.

Lemma replaceVariables_total (variables : list Match) (outputs : value) :
  forall prev, exists t, replaceVariables get evaluate variables outputs prev = Ok t.
Proof.
  induction variables as [|m rest IH]; intros prev; simpl; [eauto|].
  destruct (calculateExpression_total (trim (group1 m)) outputs) as [v ->].
  simpl. apply IH.
Qed.

Lemma parseString_total (input : string) (outputs : value) :
  exists v, parseString get evaluate input outputs = Ok v.
Proof.
  unfold parseString.
  assert (Hother : exists v, JStr <$> replaceVariables get evaluate
                               (matchAll variableRegex input) outputs input
                             = Ok v).
  { destruct (replaceVariables_total (matchAll variableRegex input) outputs input)
      as [t ->]. simpl. eauto. }
  destruct (matchAll variableRegex input) as [|m [|m' rest]]; try exact Hother.
  destruct (String.eqb _ _); [apply calculateExpression_total|exact Hother].
Qed.

Lemma parseEntries_total (fields : list (string * value)) (outputs : value) :
  Forall (fun kv => exists r, parseInput get evaluate (snd kv) outputs = Ok r) fields ->
  forall acc, exists m, parseEntries get evaluate fields outputs acc = Ok m.
Proof.
  induction 1 as [|[k x] fields [y Hy] _ IH]; intros acc; simpl; [eauto|].
  simpl in Hy. rewrite Hy. simpl. apply IH.
Qed.

Lemma parseInput_total (outputs : value) :
  forall input, exists r, parseInput get evaluate input outputs = Ok r.
Proof.
  induction input as [| |b|n|s|iso text|items IH|fields IH]
    using value_nested_ind.
  - simpl. eauto.
  - simpl. eauto.
  - simpl. destruct (negb b); eauto.
  - simpl. destruct (negb _); eauto.
  - cbn [parseInput]. destruct (negb (truthy (JStr s))); [eauto|].
    apply parseString_total.
  - simpl. eauto.
  - cbn [parseInput truthy negb].
    induction IH as [|x items [y Hy] _ IHitems]; [simpl; eauto|].
    rewrite Hy. destruct IHitems as [r Hr].
    match type of Hr with
    | context [?f items] =>
        destruct (f items) as [ys|e] eqn:Hys; [|discriminate]
    end.
    simpl. eauto.
  - rewrite parseInput_object. destruct fields as [|f fields]; [eauto|].
    destruct (parseEntries_total _ outputs IH []) as [m ->]. simpl. eauto.
Qed.

Lemma parseStepInputs_total (inputs : list (string * value)) (outputs : value) :
  exists parsedInputs, parseStepInputs get evaluate inputs outputs = Ok parsedInputs.
Proof.
  apply parseEntries_total. apply Forall_forall. intros kv _.
  apply parseInput_total.
Qed.
End Totality.

Lemma parseStepInputs_total_witness :
  exists parsedInputs,
    InputUtils.parseStepInputs Lodash.get (fun _ => Js.Ok Js.JNull)
      [("text", Js.JStr "{{ 1 + 1 }}")] (Js.JObj [])
    = Js.Ok parsedInputs.
Proof.
  apply (parseStepInputs_total Lodash.get (fun _ => Js.Ok Js.JNull)).
  intros expression. eauto.
Defined.

(** ** Placeholders and expressions *)

Section Placeholders.
Import JsString Js Regex InputUtils Specs Fixtures.

Variable get : value -> string -> value.
Variable evaluate : string -> result value.

(** A string that is exactly one placeholder, possibly between white space,
    resolves to the value of the placeholder's expression, as it is. *)
Lemma whole_placeholder_resolves_to_its_value
      (ws1 body ws2 : string) (outputs : value) :
  allChars isWhiteSpace ws1 = true ->
  allChars isWhiteSpace ws2 = true ->
  body <> EmptyString ->
  allChars (notChar "}") body = true ->
  parseInput get evaluate (JStr (ws1 +:+ "{{" +:+ body +:+ "}}" +:+ ws2)) outputs
  = calculateExpression get evaluate (trim body) outputs.
Proof.
  intros Hws1 Hws2 Hne Hbody.
  destruct (matchAll_whole_placeholder ws1 body ws2 Hws1 Hws2 Hne Hbody)
    as (m & Hall & Htext & Hgroup).
  cbn [parseInput truthy].
  assert (Hnonempty : String.eqb (ws1 +:+ "{{" +:+ body +:+ "}}" +:+ ws2)
                        EmptyString = false).
  { destruct ws1; reflexivity. }
  rewrite Hnonempty. cbn [negb]. unfold parseString.
  rewrite Hall, (trim_whole_placeholder ws1 body ws2 Hws1 Hws2), Htext.
  rewrite String.eqb_refl, Hgroup. reflexivity.
Qed.


(** A string that is one placeholder around a bare path resolves to the
    value found at that path, with its type. *)
Lemma whole_placeholder_keeps_type :
  parseInput Lodash.get evaluate (JStr "{{ foo.bar }}") fooBag = Ok (JNum 5).
Proof. vm_compute. reflexivity. Qed.

Lemma whole_placeholder_keeps_object :
  parseInput Lodash.get evaluate (JStr "  {{step.user}} ")
    (JObj [("step", JObj [("user", JObj [("name", JStr "ann")])])])
  = Ok (JObj [("name", JStr "ann")]).
Proof. vm_compute. reflexivity. Qed.

(** A placeholder inside other text is replaced by the text of its value. *)
Lemma embedded_placeholder_is_stringified :
  parseInput Lodash.get evaluate (JStr "Value: {{ foo.bar }}") fooBag
  = Ok (JStr "Value: 5").
Proof. vm_compute. reflexivity. Qed.

Lemma two_placeholders_are_replaced :
  parseInput Lodash.get evaluate (JStr "{{ foo.bar }} > {{ foo.baz }}") fooBag
  = Ok (JStr "5 > 3").
Proof. vm_compute. reflexivity. Qed.

(** A string without placeholder is returned as it is. *)
Lemma no_placeholder_is_identity :
  parseInput Lodash.get evaluate (JStr "plain } text {{ }") fooBag
  = Ok (JStr "plain } text {{ }").
Proof. vm_compute. reflexivity. Qed.

(** The path tokens of an expression with an operator are replaced by their
    values before the evaluator is called. *)
Lemma subtraction_is_substituted :
  substituteOperators Lodash.get "foo.bar - foo.baz" fooBag = "5 - 3"
  /\ calculateExpression Lodash.get evaluate "foo.bar - foo.baz" fooBag
     = evaluate "5 - 3".
Proof. vm_compute. split; reflexivity. Qed.

(** "foo.bar - foo.baz" against [{ foo: { bar: 5, baz: 3 } }] is 2, when
    the evaluator computes the subtraction. *)
Lemma subtraction_resolves_to_two :
  evaluate "5 - 3" = Ok (JNum 2) ->
  parseInput Lodash.get evaluate (JStr "{{ foo.bar - foo.baz }}") fooBag = Ok (JNum 2).
Proof. intros H. vm_compute. exact H. Qed.

(** Strings and objects are put between double quotes, objects as JSON. *)
Lemma string_operand_is_quoted :
  substituteOperators Lodash.get "uppercase(user.name)"
    (JObj [("user", JObj [("name", JStr "ann")])])
  = "uppercase(" +:+ dquote +:+ "ann" +:+ dquote +:+ ")".
Proof. vm_compute. reflexivity. Qed.

(** A token inside a quoted literal is left alone when no token outside
    quotes has the same text. *)
Lemma quoted_token_is_skipped :
  substituteOperators Lodash.get "concat('a.b', foo.bar)" fooBag = "concat('a.b', 5)".
Proof. vm_compute. reflexivity. Qed.

(** C3 (the code departs from the claim).  The placeholders are replaced
    one after the other by [String.prototype.replace] on the text built so
    far, so a value is read as a replacement template and the first
    occurrence of a placeholder's text is the one replaced:
    - with [a.x] holding the text of the second placeholder, the second
      placeholder stays and the value of [a.y] lands where [a.x] was;
    - with [a.z] holding a dollar sign followed by an ampersand, the
      placeholder is replaced by itself. *)
Theorem placeholder_values_are_replacement_templates :
  let bag :=
    JObj [("a", JObj [("x", JStr "{{ a.y }}"); ("y", JStr "Y");
                      ("z", JStr "$&")])] in
  parseInput Lodash.get evaluate (JStr "{{ a.x }} and {{ a.y }}") bag
  = Ok (JStr "Y and {{ a.y }}")
  /\ parseInput Lodash.get evaluate (JStr "Price: {{ a.z }}") bag
     = Ok (JStr "Price: {{ a.z }}").
Proof. vm_compute. split; reflexivity. Qed.

(** C7 (the code departs from the claim).  The token outside the quotes is
    replaced by a [replace] on the whole expression, which hits the first
    occurrence of its text: the one inside the quoted literal.  The
    evaluator receives the literal changed and the token unresolved. *)
Theorem token_in_quotes_is_replaced_instead_of_token_outside :
  substituteOperators Lodash.get "concat('foo.bar=', foo.bar)" fooBag
  = "concat('5=', foo.bar)"
  /\ calculateExpression Lodash.get evaluate "concat('foo.bar=', foo.bar)" fooBag
     = evaluate "concat('5=', foo.bar)".
Proof. vm_compute. split; reflexivity. Qed.

End Placeholders.

Lemma whole_placeholder_witness :
  InputUtils.parseInput Lodash.get Fixtures.sampleEvaluate
    (Js.JStr (" " +:+ "{{" +:+ " foo.bar - foo.baz " +:+ "}}" +:+ " "))
    Fixtures.fooBag
  = InputUtils.calculateExpression Lodash.get Fixtures.sampleEvaluate
      (JsString.trim " foo.bar - foo.baz ") Fixtures.fooBag.
Proof.
  apply (whole_placeholder_resolves_to_its_value Lodash.get Fixtures.sampleEvaluate
           " " " foo.bar - foo.baz " " " Fixtures.fooBag);
    [reflexivity|reflexivity|discriminate|reflexivity].
Defined.

Lemma subtraction_resolves_to_two_witness :
  InputUtils.parseInput Lodash.get Fixtures.sampleEvaluate
    (Js.JStr "{{ foo.bar - foo.baz }}") Fixtures.fooBag
  = Js.Ok (Js.JNum 2).
Proof.
  apply (subtraction_resolves_to_two Fixtures.sampleEvaluate).
  reflexivity.
Defined.

(** ** The [extract] function *)

Section ExtractFunction.
Import JsString Js Regex InputUtils Specs.

Lemma escapeTemplate_escaped (t : string) : EscapedSource (escapeTemplate t).
Proof.
  induction t as [|c t IH]; simpl; [constructor|].
  destruct (isRegExpSpecial c) eqn:Hc; constructor; assumption.
Qed.

Lemma wildcards_other (b : bool) (c : ascii) (rest : string) :
  Ascii.eqb c "\" = false ->
  wildcards b (String c rest)
  = if b && Ascii.eqb c "*" then wildcards true rest
    else String c (wildcards false rest).
Proof.
  intros Hc. simpl. rewrite Hc. simpl.
  destruct rest as [|c2 [|c3 [|c4 [|c5 [|c6 rest']]]]]; reflexivity.
Qed.

Lemma special_backslash : isRegExpSpecial "\" = true.
Proof. reflexivity. Qed.
Lemma special_star : isRegExpSpecial "*" = true.
Proof. reflexivity. Qed.

Lemma plain_not (c d : ascii) :
  isRegExpSpecial c = false -> isRegExpSpecial d = true -> Ascii.eqb c d = false.
Proof.
  intros Hc Hd. destruct (Ascii.eqb_spec c d) as [->|]; congruence.
Qed.

(** Escaped text never starts with a bare star. *)
Lemma escaped_head (s : string) :
  EscapedSource s ->
  match s with
  | String c _ => Ascii.eqb c "*" = false
  | EmptyString => True
  end.
Proof.
  intros H. destruct H; auto.
  apply plain_not; auto.
Qed.


Lemma wildcards_special (c : ascii) (s : string) :
  isRegExpSpecial c = true -> EscapedSource s ->
  wildcards false (String c s) = String c (wildcards false s).
Proof.
  intros Hc Hs. destruct (Ascii.eqb c "\") eqn:Hbs.
  - apply escaped_head in Hs. simpl. rewrite Hbs.
    destruct s as [|c2 [|c3 [|c4 [|c5 [|c6 rest']]]]]; try reflexivity.
    rewrite Hs. reflexivity.
  - rewrite wildcards_other by exact Hbs. reflexivity.
Qed.

Lemma escaped_tail (c : ascii) (s : string) :
  EscapedSource (String "\" (String c s)) -> EscapedSource s.
Proof.
  intros H. inversion H; subst; [discriminate|assumption].
Qed.

Lemma wildcards_pattern_source (n : nat) :
  forall s b, len s <= n -> EscapedSource s -> PatternSource (wildcards b s).
Proof.
  induction n as [|n IH]; intros s b Hlen Hs.
  - destruct s; [constructor|simpl in Hlen; lia].
  - destruct Hs as [|c s Hc Hs|c s Hc Hs].
    + constructor.
    + rewrite wildcards_other by (apply plain_not; auto).
      rewrite (plain_not c "*") by auto. rewrite andb_false_r.
      constructor; [exact Hc|]. apply IH; [simpl in Hlen; lia|exact Hs].
    + assert (Hfall : PatternSource
                        (String "\" (wildcards false (String c s)))).
      { rewrite wildcards_special by assumption.
        constructor; [exact Hc|]. apply IH; [simpl in Hlen; lia|exact Hs]. }
      assert (Hb : b && Ascii.eqb "\" "*" = false) by apply andb_false_r.
      cbn [wildcards]. rewrite Hb.
      destruct s as [|c3 [|c4 [|c5 [|c6 rest']]]]; try exact Hfall.
      match goal with |- context [if ?t then _ else _] => destruct t eqn:Ht end;
        [|exact Hfall].
      repeat (apply andb_prop in Ht as [Ht ?]).
      repeat match goal with
             | H : Ascii.eqb _ _ = true |- _ => apply Ascii.eqb_eq in H; subst
             end.
      apply source_group. apply IH; [simpl in Hlen |- *; lia|].
      apply escaped_tail in Hs. apply escaped_tail in Hs. exact Hs.
Qed.

Lemma parseRegExp_total (s : string) :
  PatternSource s -> forall n, is_Some (parseRegExp n s).
Proof.
  induction 1 as [|c s Hc Hs IH|c s Hc Hs IH|s Hs IH]; intros n.
  - simpl. eauto.
  - cbn [parseRegExp].
    rewrite (plain_not c "\") by auto. rewrite (plain_not c "(") by auto.
    rewrite Hc. destruct (IH n) as [[r m] ->]. simpl. eauto.
  - cbn [parseRegExp]. rewrite Hc. destruct (IH n) as [[r m] ->]. simpl. eauto.
  - change ("(.+)" +:+ s) with (String "(" (String "." (String "+" (String ")" s)))).
    cbn [parseRegExp]. simpl.
    destruct (IH (S n)) as [[r m] ->]. simpl. eauto.
Qed.

Lemma templateSource_compiles (template : string) :
  is_Some (parseRegExp 0 (templateSource template)).
Proof.
  apply parseRegExp_total. unfold templateSource.
  eapply wildcards_pattern_source; [reflexivity|apply escapeTemplate_escaped].
Qed.

Lemma templateMatches_spec (template str : string) :
  templateMatches template str = true
  <-> MatchesIn (templateRegex template) str.
Proof.
  unfold templateMatches, templateRegex.
  destruct (templateSource_compiles template) as [[re ngroups] ->].
  rewrite bool_decide_eq_true. split.
  - intros [m Hm]. exact (exec_Some _ _ _ Hm).
  - intros Hyes. destruct (exec re str) as [m|] eqn:Hm; [eauto|].
    apply exec_None in Hm. contradiction.
Qed.

(** C9.  When the template, its [***] wildcards turned into capturing
    groups, does not match anywhere in [str], [extract] returns the empty
    string: not [str], not [null], and no error is raised. *)
Theorem extract_without_match_is_empty (str template replace : string) :
  ~ MatchesIn (templateRegex template) str ->
  extract str template replace = Ok EmptyString.
Proof.
  unfold templateRegex, extract. fold (templateSource template).
  destruct (templateSource_compiles template) as [[re ngroups] ->].
  intros Hno. apply exec_None in Hno. rewrite Hno. reflexivity.
Qed.

(** When the template matches, the first match is replaced. *)
Lemma extract_with_match (str template replace : string) :
  templateMatches template str = true ->
  exists re ngroups,
    parseRegExp 0 (templateSource template) = Some (re, ngroups)
    /\ extract str template replace = Ok (replaceFirst re ngroups str replace).
Proof.
  unfold templateMatches, extract. fold (templateSource template).
  destruct (templateSource_compiles template) as [[re ngroups] ->].
  intros Hyes. apply bool_decide_eq_true in Hyes as [m Hm].
  exists re, ngroups. rewrite Hm. split; reflexivity.
Qed.

Lemma extract_examples :
  extract "hello world" "hello ***" "$1" = Ok "world"
  /\ extract "a+b=c" "***+***=***" "$3-$2-$1" = Ok "c-b-a"
  /\ extract "hello world" "bye ***" "$1" = Ok EmptyString
  /\ templateSource "a.b***c" = "a\.b(.+)c".
Proof. vm_compute. repeat split; reflexivity. Qed.

End ExtractFunction.

Lemma extract_without_match_witness :
  InputUtils.extract "hello world" "bye ***" "$1" = Js.Ok EmptyString.
Proof.
  apply (extract_without_match_is_empty "hello world" "bye ***" "$1").
  apply exec_None. vm_compute. reflexivity.
Defined.

(** ** Trigger coordinator and action-tree executor *)

Section Executor.
Import Js RunnerModel RunnerService RunnerSpecs.

Variable w : World.

Lemma bindM_eq {A B : Type} (m : M A) (f : A -> M B) (st : State) :
  (m ≫= f) st
  = match m st with
    | Resolved a st' => f a st'
    | Rejected e st' => Rejected e st'
    | OutOfFuel => OutOfFuel
    end.
Proof. reflexivity. Qed.

Lemma emit_eq (e : Event) (st : State) :
  emit e st = Resolved tt (withEvents st [e]).
Proof. reflexivity. Qed.

Lemma withEvents_app (st : State) (a b : list Event) :
  withEvents (withEvents st a) b = withEvents st (a ++ b).
Proof. unfold withEvents. simpl. rewrite <- app_assoc. reflexivity. Qed.

Lemma resolvedCredentials_sound (credentialsId : option string) resolved :
  resolvedCredentials w credentialsId = Some resolved ->
  forall (onError : M unit) (st : State),
    getCredentialsAndIntegrationAccount w credentialsId onError st
    = Resolved resolved st.
Proof.
  unfold resolvedCredentials, getCredentialsAndIntegrationAccount.
  intros H onError st.
  destruct (truthyStr credentialsId); [|injection H as <-; reflexivity].
  destruct (accountCredentials w !! _) as [ac|]; [|discriminate].
  destruct (truthyStr (credentialsAesKey w)); [|discriminate].
  rewrite bindM_eq.
  destruct (decryptCredentials w _ _) as [u|e]; [|discriminate].
  injection H as <-. reflexivity.
Qed.

(** One unfolding of the executor on a node whose operation answered. *)
Lemma runWorkflowActionsTree_answered
      (fuel : nat) (workflowAction : WorkflowAction)
      (previousOutputs : list (string * value)) (workflowRun : WorkflowRun)
      (st : State) (integrationAction : IntegrationAction)
      (integration : Integration) resolved
      (inputs : list (string * value)) (runResponse : RunResponse) :
  integrationActions w !! wa_integrationAction workflowAction
  = Some integrationAction ->
  integrations w !! ia_integration integrationAction = Some integration ->
  resolvedCredentials w (wa_credentials workflowAction) = Some resolved ->
  InputUtils.parseStepInputs (lodashGet w) (evaluate w) (wa_inputs workflowAction)
    (JObj previousOutputs) = Ok inputs ->
  runOperation w (actionRunOptions integration integrationAction inputs resolved)
  = Answer runResponse ->
  let opts := actionRunOptions integration integrationAction inputs resolved in
  let nextActionInputs :=
    setField (wa_id workflowAction) (JObj (rr_outputs runResponse))
      previousOutputs in
  let st' :=
    withEvents st
      (completedNodeEvents integration integrationAction workflowAction
         workflowRun opts) in
  runWorkflowActionsTree w (S fuel) workflowAction previousOutputs workflowRun st
  = match rr_sleepUntil runResponse with
    | Some sleepUntil =>
        emit (SleptWorkflowRun
                {| ws_workflowRun := run_id workflowRun;
                   ws_workflowAction := wa_id workflowAction;
                   ws_nextActionInputs := Some nextActionInputs;
                   ws_sleepUntil := sleepUntil |}) st'
    | None =>
        forEach
          (List.filter (conditionMet runResponse)
             (default [] (wa_nextActions workflowAction)))
          (fun workflowNextAction =>
             match findWorkflowActionById w (na_action workflowNextAction) with
             | None =>
                 throw (Error ("WorkflowAction "
                               +:+ na_action workflowNextAction
                               +:+ " not found"))
             | Some nextAction =>
                 runWorkflowActionsTree w fuel nextAction nextActionInputs
                   workflowRun
             end) st'
    end.
Proof.
  intros Hia Hint Hcred Hinputs Hrun opts nextActionInputs st'.
  cbn [runWorkflowActionsTree].
  rewrite bindM_eq, emit_eq. rewrite Hia, Hint.
  rewrite bindM_eq, emit_eq, withEvents_app.
  rewrite bindM_eq.
  rewrite (resolvedCredentials_sound _ _ Hcred).
  destruct resolved as [[credentials accountCredential] integrationAccount].
  rewrite Hinputs.
  rewrite bindM_eq, emit_eq, withEvents_app.
  change {| ro_definition := definitionKey integration;
            ro_integration := integration;
            ro_integrationAccount := integrationAccount;
            ro_operation := OfAction integrationAction;
            ro_inputs := inputs;
            ro_credentials := credentials;
            ro_accountCredential := accountCredential |}
    with (actionRunOptions integration integrationAction inputs
            (credentials, accountCredential, integrationAccount)).
  rewrite Hrun.
  rewrite bindM_eq, emit_eq, withEvents_app.
  destruct (rr_sleepUntil runResponse); reflexivity.
Qed.

(** *** Calls that leave the cursors alone *)

Lemma keeps_ret {A : Type} (a : A) : keepsCursors (ret a).
Proof. intros st. reflexivity. Qed.

Lemma keeps_throw {A : Type} (e : exn) : keepsCursors (@throw A e).
Proof. intros st. reflexivity. Qed.

Lemma keeps_emit (e : Event) : keepsCursors (emit e).
Proof. intros st. reflexivity. Qed.

Lemma keeps_lift {A : Type} (r : result A) : keepsCursors (lift r).
Proof. destruct r; intros st; reflexivity. Qed.

Lemma keeps_bind {A B : Type} (m : M A) (f : A -> M B) :
  keepsCursors m -> (forall a, keepsCursors (f a)) -> keepsCursors (m ≫= f).
Proof.
  intros Hm Hf st. rewrite bindM_eq. specialize (Hm st).
  destruct (m st) as [a st'|e st'|]; [|exact Hm|exact I].
  specialize (Hf a st'). destruct (f a st'); congruence.
Qed.

Lemma keeps_createRun workflow startedBy trigger :
  keepsCursors (createRun workflow startedBy trigger).
Proof. intros st. reflexivity. Qed.

Lemma keeps_promiseAll (promises : list (M unit)) :
  Forall keepsCursors promises -> keepsCursors (promiseAll promises).
Proof.
  induction 1 as [|p rest Hp _ IH]; intros st; simpl; [reflexivity|].
  specialize (Hp st). destruct (p st) as [[] st'|e st'|]; [| |exact I].
  - specialize (IH st'). destruct (promiseAll rest st'); congruence.
  - specialize (IH st'). destruct (promiseAll rest st'); try exact I; congruence.
Qed.

Lemma keeps_forEach {A : Type} (xs : list A) (body : A -> M unit) :
  (forall x, keepsCursors (body x)) -> keepsCursors (forEach xs body).
Proof.
  intros Hbody. induction xs as [|x xs IH]; simpl.
  - apply keeps_ret.
  - apply keeps_bind; [apply Hbody|intros _; exact IH].
Qed.

Lemma keeps_getCredentials (credentialsId : option string) (onError : M unit) :
  keepsCursors onError ->
  keepsCursors (getCredentialsAndIntegrationAccount w credentialsId onError).
Proof.
  intros HonError. unfold getCredentialsAndIntegrationAccount.
  destruct (truthyStr credentialsId); [|apply keeps_ret].
  destruct (accountCredentials w !! _) as [ac|].
  - destruct (truthyStr (credentialsAesKey w)); [|apply keeps_throw].
    apply keeps_bind; [apply keeps_lift|intros u; apply keeps_ret].
  - apply keeps_bind; [exact HonError|intros _; apply keeps_throw].
Qed.

Lemma keeps_onActionFailure (cascade : string -> M unit)
      workflowId workflowRun workflowAction message response :
  (forall wf, keepsCursors (cascade wf)) ->
  keepsCursors (onActionFailure cascade workflowId workflowRun workflowAction
                  message response).
Proof.
  intros H. apply keeps_bind; [apply keeps_emit|intros _; apply H].
Qed.

Lemma keeps_onTriggerFailure (cascade : string -> M unit)
      workflowId workflowRun message response :
  (forall wf, keepsCursors (cascade wf)) ->
  keepsCursors (onTriggerFailure cascade workflowId workflowRun
                  message response).
Proof.
  intros H. apply keeps_bind; [apply keeps_emit|intros _; apply H].
Qed.

Lemma keeps_outOfFuel {A : Type} : keepsCursors (fun _ : State => @OutOfFuel A).
Proof. intros st. exact I. Qed.

(** The executor never writes a cursor. *)
Lemma executor_keeps_cursors (fuel : nat) :
  (forall a bag run, keepsCursors (runWorkflowActionsTree w fuel a bag run))
  /\ (forall roots bags run, keepsCursors (runWorkflowActions w fuel roots bags run))
  /\ (forall wf, keepsCursors (runWorkflowOnFailure w fuel wf)).
Proof.
  induction fuel as [|fuel (IHtree & IHactions & IHfailure)].
  - repeat split; intros; apply keeps_outOfFuel.
  - assert (Htree : forall a bag run,
               keepsCursors (runWorkflowActionsTree w (S fuel) a bag run)).
    { intros a bag run. cbn [runWorkflowActionsTree].
      apply keeps_bind; [apply keeps_emit|intros _].
      destruct (integrationActions w !! _) as [ia|]; [|apply keeps_throw].
      destruct (integrations w !! _) as [integ|]; [|apply keeps_throw].
      apply keeps_bind; [apply keeps_emit|intros _].
      apply keeps_bind.
      { apply keeps_getCredentials, keeps_onActionFailure, IHfailure. }
      intros [[credentials accountCredential] integrationAccount].
      destruct (InputUtils.parseStepInputs _ _ _) as [inputs|e].
      2:{ apply keeps_bind; [|intros _; apply keeps_emit].
          apply keeps_onActionFailure, IHfailure. }
      apply keeps_bind; [apply keeps_emit|intros _].
      destruct (runOperation w _) as [rr|message response].
      2:{ apply keeps_bind; [|intros _; apply keeps_emit].
          apply keeps_onActionFailure, IHfailure. }
      apply keeps_bind; [apply keeps_emit|intros _].
      destruct (rr_sleepUntil rr); [apply keeps_emit|].
      apply keeps_forEach. intros edge.
      destruct (findWorkflowActionById w _); [apply IHtree|apply keeps_throw]. }
    repeat split.
    + exact Htree.
    + intros roots bags run. cbn [runWorkflowActions].
      apply keeps_bind; [|intros _; apply keeps_emit].
      apply keeps_forEach. intros bag. apply keeps_promiseAll.
      apply Forall_map, Forall_forall. intros a _. apply IHtree.
    + intros wf. cbn [runWorkflowOnFailure].
      destruct (workflows w !! wf) as [workflow|]; [|apply keeps_ret].
      destruct (truthyStr _); [|apply keeps_ret].
      apply keeps_bind; [apply keeps_createRun|intros run; apply IHactions].
Qed.


(** *** Trigger dedup *)

Lemma indexOfId_Some (id : string) (triggerIds : list string) (k : nat) :
  indexOfId id triggerIds = Some k
  <-> triggerIds !! k = Some id
      /\ forall j, j < k -> triggerIds !! j <> Some id.
Proof.
  revert k. induction triggerIds as [|x rest IH]; intros k; simpl.
  - split; [discriminate|]. intros [H _]. discriminate.
  - destruct (String.eqb_spec x id) as [->|Hne].
    + split.
      * intros [= <-]. split; [reflexivity|]. intros j Hj. lia.
      * intros [Hk Hfirst]. destruct k as [|k]; [reflexivity|].
        exfalso. apply (Hfirst 0); [lia|reflexivity].
    + destruct (indexOfId id rest) as [i|]; simpl.
      * split.
        -- intros [= <-]. destruct (IH i) as [[Hk Hfirst] _]; [reflexivity|].
           split; [exact Hk|].
           intros [|j] Hj; simpl; [congruence|]. apply Hfirst. lia.
        -- intros [Hk Hfirst]. destruct k as [|k]; simpl in Hk; [congruence|].
           f_equal. assert (Hi' : Some i = Some k); [|congruence].
           apply IH. split; [exact Hk|].
           intros j Hj. apply (Hfirst (S j)). lia.
      * split; [discriminate|]. intros [Hk Hfirst].
        destruct k as [|k]; simpl in Hk; [congruence|].
        assert (Hi' : @None nat = Some k); [|congruence].
        apply IH. split; [exact Hk|]. intros j Hj. apply (Hfirst (S j)). lia.
Qed.

Lemma indexOfId_None (id : string) (triggerIds : list string) :
  indexOfId id triggerIds = None <-> id ∉ triggerIds.
Proof.
  induction triggerIds as [|x rest IH]; simpl.
  - split; [intros _ H; inversion H|reflexivity].
  - destruct (String.eqb_spec x id) as [->|Hne].
    + split; [discriminate|]. intros H. exfalso. apply H. left.
    + destruct (indexOfId id rest) as [i|]; simpl.
      * split; [discriminate|]. intros H. exfalso.
        assert (Hin : id ∉ rest) by (intros Hin; apply H; right; exact Hin).
        apply IH in Hin. discriminate.
      * split; [|reflexivity]. intros _ Hin.
        apply elem_of_cons in Hin as [->|Hin]; [congruence|].
        destruct IH as [IH _]. exact (IH eq_refl Hin).
Qed.


Lemma selectNewItems_nil (lastId : option string) :
  selectNewItems lastId [] = [].
Proof.
  unfold selectNewItems. destruct (truthyStr lastId); reflexivity.
Qed.

Lemma keeps_populateTrigger definition outputs opts :
  keepsCursors (populateTrigger w definition outputs opts).
Proof.
  unfold populateTrigger.
  destruct (match ro_operation opts with
            | OfTrigger t => it_triggerPopulate t
            | OfAction _ => None
            end) as [tp|]; [|apply keeps_ret].
  destruct (integrationActionByKey w _) as [ia|]; [|apply keeps_ret].
  apply keeps_bind; [apply keeps_lift|intros inputs].
  apply keeps_bind; [apply keeps_emit|intros _].
  destruct (runOperation w _); [apply keeps_ret|apply keeps_throw].
Qed.

Lemma keeps_populateItems definition opts newItems :
  keepsCursors (populateItems w definition opts newItems).
Proof.
  induction newItems as [|item rest IH]; simpl; [apply keeps_ret|].
  apply keeps_bind; [apply keeps_populateTrigger|intros outputs].
  apply keeps_bind; [exact IH|intros rest']. apply keeps_ret.
Qed.

Lemma keeps_resolved {A : Type} (m : M A) (st st' : State) (a : A) :
  keepsCursors m -> m st = Resolved a st' -> cursors st' = cursors st.
Proof. intros H Hm. specialize (H st). rewrite Hm in H. exact H. Qed.

Lemma keeps_rejected {A : Type} (m : M A) (st st' : State) (e : exn) :
  keepsCursors m -> m st = Rejected e st' -> cursors st' = cursors st.
Proof. intros H Hm. specialize (H st). rewrite Hm in H. exact H. Qed.

(** The dedup of an empty poll finds nothing new, so a poll with a new
    item has a newest item. *)
Lemma selectNewItems_newest (lastId : option string)
      (triggerItems : list TriggerItem) :
  selectNewItems lastId triggerItems <> [] ->
  exists newest older, triggerItems = newest :: older.
Proof.
  destruct triggerItems as [|newest older]; [|eauto].
  rewrite selectNewItems_nil. congruence.
Qed.

(** Enriching the new items takes no fuel: it resolves or rejects. *)
Lemma populateTrigger_terminates definition outputs opts (st : State) :
  populateTrigger w definition outputs opts st <> OutOfFuel.
Proof.
  unfold populateTrigger.
  destruct (match ro_operation opts with
            | OfTrigger t => it_triggerPopulate t
            | OfAction _ => None
            end) as [tp|]; [|discriminate].
  destruct (integrationActionByKey w _) as [ia|]; [|discriminate].
  rewrite bindM_eq.
  destruct (InputUtils.parseStepInputs _ _ _ _) as [inputs|e];
    [|discriminate].
  cbn [lift]. unfold ret at 1. rewrite bindM_eq, emit_eq.
  destruct (runOperation w _); discriminate.
Qed.

Lemma populateItems_terminates definition opts newItems :
  forall st, populateItems w definition opts newItems st <> OutOfFuel.
Proof.
  induction newItems as [|item rest IH]; intros st; simpl; [discriminate|].
  rewrite bindM_eq.
  pose proof (populateTrigger_terminates definition (ti_item item) opts st)
    as Hone.
  destruct (populateTrigger w definition (ti_item item) opts st)
    as [outputs st1|e st1|]; [|discriminate|congruence].
  rewrite bindM_eq. specialize (IH st1).
  destruct (populateItems w definition opts rest st1)
    as [rest' st2|e st2|]; [discriminate|discriminate|congruence].
Qed.

Lemma populateStep_terminates (populate : bool) definition opts newItems
      (st : State) :
  (if populate then populateItems w definition opts newItems
   else ret newItems) st = OutOfFuel -> False.
Proof.
  destruct populate; [apply populateItems_terminates|discriminate].
Qed.

(** The check up to the end of its poll. *)
Lemma runWorkflowTriggerCheck_poll
      (fuel : nat) (workflowTrigger : WorkflowTrigger) (startedBy : StartedBy)
      (st : State) (integrationTrigger : IntegrationTrigger)
      (integration : Integration)
      (resolved : list (string * value) * option AccountCredential
                  * option IntegrationAccount)
      (inputs : list (string * value)) (runResponse : RunResponse) :
  polls w workflowTrigger integrationTrigger integration resolved inputs
    runResponse ->
  let opts := triggerRunOptions integration integrationTrigger inputs resolved in
  let workflowRun := {| run_id := runsCreated st |} in
  let triggerItems :=
    extractTriggerItems w (default EmptyString (it_idKey integrationTrigger))
      (rr_outputs runResponse) in
  let polled := polledState workflowTrigger startedBy opts st in
  runWorkflowTriggerCheck w fuel workflowTrigger startedBy st
  = match selectNewItems (wt_lastId workflowTrigger) triggerItems with
    | [] =>
        Resolved tt
          (withEvents polled
             [ Logged LDebug ("Trigger condition not satisfied for trigger "
                              +:+ wt_id workflowTrigger);
               MarkedTriggerAsCompleted workflowRun false
                 (take 1 (triggerIdsOf triggerItems)) ])
    | newItem :: rest =>
        match (if truthyStr (it_triggerPopulate integrationTrigger
                             ≫= tp_operationId)
               then populateItems w (definitionKey integration) opts
                      (newItem :: rest)
               else ret (newItem :: rest))
                (withEvents polled
                   [ Logged LLog ("Trigger condition satisfied for trigger "
                                  +:+ wt_id workflowTrigger) ]) with
        | Resolved populated st2 =>
            match triggerIdsOf triggerItems with
            | newest :: _ =>
                runWorkflowActions w fuel
                  (findRootActions w (wt_workflow workflowTrigger))
                  (map (triggerOutputsOf workflowTrigger) (reverse populated))
                  workflowRun
                  (recordedState workflowTrigger workflowRun
                     (triggerIdsOf triggerItems) newest st2)
            | [] =>
                runWorkflowActions w fuel
                  (findRootActions w (wt_workflow workflowTrigger))
                  (map (triggerOutputsOf workflowTrigger) (reverse populated))
                  workflowRun
                  (withEvents st2
                     [MarkedTriggerAsCompleted workflowRun true []])
            end
        | Rejected e st2 => Rejected e st2
        | OutOfFuel => OutOfFuel
        end
    end.
Proof.
  intros (Hroots & Htrigger & HidKey & Hintegration & Hcred & Hinputs & Hrun).
  intros opts workflowRun triggerItems polled.
  subst opts workflowRun triggerItems polled.
  unfold runWorkflowTriggerCheck, triggerIdsOf.
  rewrite bindM_eq, emit_eq, Htrigger, HidKey, Hintegration.
  destruct (findRootActions w (wt_workflow workflowTrigger)) as [|root roots];
    [congruence|].
  cbn [negb]. rewrite bindM_eq. unfold createRun at 1.
  rewrite bindM_eq, (resolvedCredentials_sound _ _ Hcred).
  destruct resolved as [[credentials accountCredential] integrationAccount].
  rewrite Hinputs, bindM_eq, emit_eq.
  unfold triggerRunOptions in Hrun. cbn [fst snd] in Hrun. rewrite Hrun.
  unfold triggerRunOptions, polledState, withEvents.
  cbn [fst snd events runsCreated cursors]. rewrite <- !app_assoc.
  cbn [app].
  destruct (selectNewItems (wt_lastId workflowTrigger) _)
    as [|newItem rest] eqn:Hselect.
  - rewrite bindM_eq, !emit_eq. unfold withEvents.
    cbn [events runsCreated cursors]. rewrite <- !app_assoc. reflexivity.
  - rewrite bindM_eq, emit_eq, bindM_eq. unfold withEvents.
    cbn [events runsCreated cursors]. rewrite <- !app_assoc. cbn [app].
    match goal with
    | |- match ?m ?s with _ => _ end = match ?m' ?s' with _ => _ end =>
        change (m' s') with (m s); destruct (m s) as [populated st2|e st2|]
    end; [|reflexivity|reflexivity].
    rewrite bindM_eq, emit_eq, bindM_eq.
    destruct (map (fun item => idToString (ti_id item)) _)
      as [|newest olderIds]; [reflexivity|].
    unfold updateTriggerLastId at 1. unfold recordedState, withEvents.
    cbn [events runsCreated cursors]. rewrite <- !app_assoc. reflexivity.
Qed.

(** Without a new item the check records an unsatisfied trigger and stops:
    no cursor is written and no action runs. *)
Lemma runWorkflowTriggerCheck_nothing_new
      (fuel : nat) (workflowTrigger : WorkflowTrigger) (startedBy : StartedBy)
      (st : State) (integrationTrigger : IntegrationTrigger)
      (integration : Integration)
      (resolved : list (string * value) * option AccountCredential
                  * option IntegrationAccount)
      (inputs : list (string * value)) (runResponse : RunResponse) :
  polls w workflowTrigger integrationTrigger integration resolved inputs
    runResponse ->
  let triggerItems :=
    extractTriggerItems w (default EmptyString (it_idKey integrationTrigger))
      (rr_outputs runResponse) in
  selectNewItems (wt_lastId workflowTrigger) triggerItems = [] ->
  runWorkflowTriggerCheck w fuel workflowTrigger startedBy st
  = Resolved tt
      (withEvents
         (polledState workflowTrigger startedBy
            (triggerRunOptions integration integrationTrigger inputs resolved)
            st)
         [ Logged LDebug ("Trigger condition not satisfied for trigger "
                          +:+ wt_id workflowTrigger);
           MarkedTriggerAsCompleted {| run_id := runsCreated st |} false
             (take 1 (triggerIdsOf triggerItems)) ]).
Proof.
  intros Hpolls triggerItems Hnone. subst triggerItems.
  rewrite (runWorkflowTriggerCheck_poll fuel _ startedBy st _ _ _ _ _ Hpolls).
  cbv zeta. rewrite Hnone. reflexivity.
Qed.

(** With a new item: when enriching the items fails, the check rejects
    with the cursor as it was; otherwise the poll is recorded, the id of
    the newest polled item is stored as the cursor, and only then the root
    actions run, on the new items from the oldest to the newest. *)
Lemma runWorkflowTriggerCheck_new_items
      (fuel : nat) (workflowTrigger : WorkflowTrigger) (startedBy : StartedBy)
      (st : State) (integrationTrigger : IntegrationTrigger)
      (integration : Integration)
      (resolved : list (string * value) * option AccountCredential
                  * option IntegrationAccount)
      (inputs : list (string * value)) (runResponse : RunResponse) :
  polls w workflowTrigger integrationTrigger integration resolved inputs
    runResponse ->
  let opts := triggerRunOptions integration integrationTrigger inputs resolved in
  let workflowRun := {| run_id := runsCreated st |} in
  let triggerItems :=
    extractTriggerItems w (default EmptyString (it_idKey integrationTrigger))
      (rr_outputs runResponse) in
  let newItems := selectNewItems (wt_lastId workflowTrigger) triggerItems in
  newItems <> [] ->
  exists newest older,
    triggerItems = newest :: older
    /\ match (if truthyStr (it_triggerPopulate integrationTrigger
                            ≫= tp_operationId)
              then populateItems w (definitionKey integration) opts newItems
              else ret newItems)
               (withEvents (polledState workflowTrigger startedBy opts st)
                  [ Logged LLog ("Trigger condition satisfied for trigger "
                                 +:+ wt_id workflowTrigger) ]) with
       | Resolved populated st2 =>
           cursors st2 = cursors st
           /\ runWorkflowTriggerCheck w fuel workflowTrigger startedBy st
              = runWorkflowActions w fuel
                  (findRootActions w (wt_workflow workflowTrigger))
                  (map (triggerOutputsOf workflowTrigger) (reverse populated))
                  workflowRun
                  (recordedState workflowTrigger workflowRun
                     (triggerIdsOf triggerItems) (idToString (ti_id newest))
                     st2)
       | Rejected e st2 =>
           cursors st2 = cursors st
           /\ runWorkflowTriggerCheck w fuel workflowTrigger startedBy st
              = Rejected e st2
       | OutOfFuel => False
       end.
Proof.
  intros Hpolls opts workflowRun triggerItems newItems Hnew.
  destruct (selectNewItems_newest _ _ Hnew) as (newest & older & Hitems).
  exists newest, older. split; [exact Hitems|].
  rewrite (runWorkflowTriggerCheck_poll fuel _ startedBy st _ _ _ _ _ Hpolls).
  cbv zeta. fold opts triggerItems newItems.
  destruct newItems as [|newItem rest] eqn:Hselect; [congruence|].
  match goal with
  | |- match ?m ?s with _ => _ end =>
      assert (Hkeeps : keepsCursors m);
        [|specialize (Hkeeps s);
          destruct (m s) as [populated st2|e st2|] eqn:Hpopulate]
  end.
  - destruct (truthyStr _); [apply keeps_populateItems|apply keeps_ret].
  - split; [exact Hkeeps|]. rewrite Hitems. reflexivity.
  - split; [exact Hkeeps|reflexivity].
  - exact (populateStep_terminates _ _ _ _ _ Hpopulate).
Qed.

(** *** Failures inside the executor *)

(** A rejected iteration ends a sequential loop: the remaining elements are
    never visited. *)
Lemma forEach_rejected {A : Type} (x : A) (xs : list A) (body : A -> M unit)
      (e : exn) (st st' : State) :
  body x st = Rejected e st' ->
  forEach (x :: xs) body st = Rejected e st'.
Proof. intros H. cbn [forEach]. rewrite bindM_eq, H. reflexivity. Qed.

Lemma forEach_resolved {A : Type} (x : A) (xs : list A) (body : A -> M unit)
      (st st' : State) :
  body x st = Resolved tt st' ->
  forEach (x :: xs) body st = forEach xs body st'.
Proof. intros H. cbn [forEach]. rewrite bindM_eq, H. reflexivity. Qed.



(** The run is marked completed after every seeded bag has been worked
    through, and only if none of the calls rejected. *)
Lemma runWorkflowActions_marks_completed_last
      (fuel : nat) (rootActions : list WorkflowAction)
      (triggerOutputsList : list (list (string * value)))
      (workflowRun : WorkflowRun) (st st' : State) :
  runWorkflowActions w (S fuel) rootActions triggerOutputsList workflowRun st
  = Resolved tt st' ->
  exists st'',
    forEach triggerOutputsList
      (fun triggerOutputs =>
         promiseAll
           (map (fun action =>
                   runWorkflowActionsTree w fuel action triggerOutputs
                     workflowRun) rootActions)) st
    = Resolved tt st''
    /\ st' = withEvents st'' [MarkedWorkflowRunAsCompleted workflowRun].
Proof.
  cbn [runWorkflowActions]. rewrite bindM_eq.
  destruct (forEach triggerOutputsList _ st) as [[] st''|e st''|];
    [|discriminate|discriminate].
  rewrite emit_eq. intros [= <-]. exists st''. split; reflexivity.
Qed.

(** C1.  A trigger check that polls its items (newest first) selects the
    new ones as follows:
    - with a cursor found at position [k] (its first occurrence), exactly
      the first [k] items are new;
    - with a cursor that is not among the polled ids, all items are new;
    - without a cursor, exactly the newest item is new.
    Without a new item the check records an unsatisfied trigger and
    resolves, the cursors as they were.  With a new item and no populate
    operation, the check records the poll, stores the id of the newest
    polled item as the cursor of the trigger and only then runs the root
    actions on the new items, oldest first; so the cursor is the id of the
    newest polled item when the check resolves, with or without populate
    operation, and also when the actions reject. *)
Theorem trigger_dedup_and_cursor
        (fuel : nat) (workflowTrigger : WorkflowTrigger) (startedBy : StartedBy)
        (st : State) (integrationTrigger : IntegrationTrigger)
        (integration : Integration)
        (resolved : list (string * value) * option AccountCredential
                    * option IntegrationAccount)
        (inputs : list (string * value)) (runResponse : RunResponse) :
  polls w workflowTrigger integrationTrigger integration resolved inputs
    runResponse ->
  let opts := triggerRunOptions integration integrationTrigger inputs resolved in
  let workflowRun := {| run_id := runsCreated st |} in
  let polled := polledState workflowTrigger startedBy opts st in
  let triggerItems :=
    extractTriggerItems w (default EmptyString (it_idKey integrationTrigger))
      (rr_outputs runResponse) in
  let triggerIds := triggerIdsOf triggerItems in
  let newItems := selectNewItems (wt_lastId workflowTrigger) triggerItems in
  let check := runWorkflowTriggerCheck w fuel workflowTrigger startedBy st in
  (forall lastId k,
      hasCursor workflowTrigger = true ->
      wt_lastId workflowTrigger = Some lastId ->
      triggerIds !! k = Some lastId ->
      (forall j, j < k -> triggerIds !! j <> Some lastId) ->
      newItems = take k triggerItems)
  /\ (forall lastId,
        hasCursor workflowTrigger = true ->
        wt_lastId workflowTrigger = Some lastId ->
        lastId ∉ triggerIds ->
        newItems = triggerItems)
  /\ (hasCursor workflowTrigger = false ->
      newItems = match triggerItems with
                 | [] => []
                 | newest :: _ => [newest]
                 end)
  /\ (newItems = [] ->
      check
      = Resolved tt
          (withEvents polled
             [ Logged LDebug ("Trigger condition not satisfied for trigger "
                              +:+ wt_id workflowTrigger);
               MarkedTriggerAsCompleted workflowRun false
                 (take 1 triggerIds) ]))
  /\ (newItems <> [] ->
      exists newest older,
        triggerItems = newest :: older
        /\ (truthyStr (it_triggerPopulate integrationTrigger ≫= tp_operationId)
            = false ->
            check
            = runWorkflowActions w fuel
                (findRootActions w (wt_workflow workflowTrigger))
                (map (triggerOutputsOf workflowTrigger) (reverse newItems))
                workflowRun
                (recordedState workflowTrigger workflowRun triggerIds
                   (idToString (ti_id newest))
                   (withEvents polled
                      [ Logged LLog
                          ("Trigger condition satisfied for trigger "
                           +:+ wt_id workflowTrigger) ]))
            /\ forall e st',
                 check = Rejected e st' ->
                 cursors st'
                 = <[wt_id workflowTrigger := idToString (ti_id newest)]>
                     (cursors st))
        /\ (forall st',
              check = Resolved tt st' ->
              cursors st'
              = <[wt_id workflowTrigger := idToString (ti_id newest)]>
                  (cursors st))).
Proof.
  intros Hpolls opts workflowRun polled triggerItems triggerIds newItems check.
  split; [|split; [|split; [|split]]].
  - subst newItems triggerIds. unfold hasCursor, selectNewItems, triggerIdsOf.
    intros lastId k Hcursor HlastId Hk Hfirst. rewrite Hcursor, HlastId. simpl.
    rewrite (proj2 (indexOfId_Some lastId _ k) (conj Hk Hfirst)). reflexivity.
  - subst newItems triggerIds. unfold hasCursor, selectNewItems, triggerIdsOf.
    intros lastId Hcursor HlastId Hnotin. rewrite Hcursor, HlastId. simpl.
    rewrite (proj2 (indexOfId_None lastId _) Hnotin). reflexivity.
  - subst newItems. unfold hasCursor, selectNewItems.
    intros Hcursor. rewrite Hcursor. destruct triggerItems; reflexivity.
  - intros Hnone.
    exact (runWorkflowTriggerCheck_nothing_new fuel _ startedBy st _ _ _ _ _
             Hpolls Hnone).
  - intros Hnew.
    destruct (runWorkflowTriggerCheck_new_items fuel _ startedBy st _ _ _ _ _
                Hpolls Hnew) as (newest & older & Hitems & Hcheck).
    fold opts triggerItems newItems triggerIds check in Hcheck.
    exists newest, older. split; [exact Hitems|]. split.
    + intros Hpopulate. rewrite Hpopulate in Hcheck. unfold ret in Hcheck.
      destruct Hcheck as [_ Hcheck]. split; [exact Hcheck|].
      intros e st' Hrejected. rewrite Hcheck in Hrejected.
      etransitivity;
        [exact (keeps_rejected _ _ _ _
                  (proj1 (proj2 (executor_keeps_cursors fuel)) _ _ _)
                  Hrejected)
        |reflexivity].
    + intros st' Hresolved.
      match type of Hcheck with
      | match ?populate with _ => _ end =>
          destruct populate as [populated st2|e st2|]; [| |contradiction]
      end.
      * destruct Hcheck as [Hcursors Hcheck]. rewrite Hcheck in Hresolved.
        etransitivity;
          [exact (keeps_resolved _ _ _ _
                    (proj1 (proj2 (executor_keeps_cursors fuel)) _ _ _)
                    Hresolved)
          |].
        unfold recordedState. cbn [cursors]. rewrite Hcursors. reflexivity.
      * destruct Hcheck as [_ Hcheck]. rewrite Hcheck in Hresolved.
        discriminate.
Qed.

(** C5.  A node whose operation answers with a [sleepUntil] instant halts
    its branch: the call resolves having persisted exactly one continuation,
    which holds the bag extended with the node's output, and no successor
    has run.  Waking that continuation up runs every declared successor
    that is stored, each with exactly that bag, whatever the conditions of
    the edges, and then marks the run completed. *)
Theorem sleeping_node_halts_and_resumes_with_same_bag
        (fuel : nat) (workflowAction : WorkflowAction)
        (previousOutputs : list (string * value)) (workflowRun : WorkflowRun)
        (st : State) (integrationAction : IntegrationAction)
        (integration : Integration) resolved
        (inputs : list (string * value)) (runResponse : RunResponse)
        (sleepUntil : string) :
  integrationActions w !! wa_integrationAction workflowAction
  = Some integrationAction ->
  integrations w !! ia_integration integrationAction = Some integration ->
  resolvedCredentials w (wa_credentials workflowAction) = Some resolved ->
  InputUtils.parseStepInputs (lodashGet w) (evaluate w) (wa_inputs workflowAction)
    (JObj previousOutputs) = Ok inputs ->
  runOperation w (actionRunOptions integration integrationAction inputs resolved)
  = Answer runResponse ->
  rr_sleepUntil runResponse = Some sleepUntil ->
  let nextActionInputs :=
    setField (wa_id workflowAction) (JObj (rr_outputs runResponse))
      previousOutputs in
  let workflowSleep :=
    {| ws_workflowRun := run_id workflowRun;
       ws_workflowAction := wa_id workflowAction;
       ws_nextActionInputs := Some nextActionInputs;
       ws_sleepUntil := sleepUntil |} in
  runWorkflowActionsTree w (S fuel) workflowAction previousOutputs workflowRun st
  = Resolved tt
      (withEvents st
         (completedNodeEvents integration integrationAction workflowAction
            workflowRun
            (actionRunOptions integration integrationAction inputs resolved)
          ++ [SleptWorkflowRun workflowSleep]))
  /\ forall fuel' st' nextActions,
       findWorkflowActionById w (wa_id workflowAction) = Some workflowAction ->
       wa_nextActions workflowAction = Some nextActions ->
       run_id workflowRun < runsCreated st' ->
       let resumed := findWorkflowActionsByIds w (map na_action nextActions) in
       wakeUpWorkflowRun w fuel' workflowSleep st'
       = (promiseAll
            (map (fun action =>
                    runWorkflowActionsTree w fuel' action nextActionInputs
                      workflowRun) resumed)
          ≫= fun _ => emit (MarkedWorkflowRunAsCompleted workflowRun))
           (withEvents st' [WokeUpWorkflowRun workflowRun])
       /\ forall edge successor,
            In edge nextActions ->
            findWorkflowActionById w (na_action edge) = Some successor ->
            In successor resumed.
Proof.
  intros Hia Hint Hcred Hinputs Hrun Hsleep nextActionInputs workflowSleep.
  split.
  - rewrite (runWorkflowActionsTree_answered _ _ _ _ _ _ _ _ _ _
               Hia Hint Hcred Hinputs Hrun).
    rewrite Hsleep, emit_eq, withEvents_app. reflexivity.
  - intros fuel' st' nextActions Hfound Hnext Hcreated resumed. split.
    + subst workflowSleep. unfold wakeUpWorkflowRun.
      rewrite bindM_eq. unfold findRunById.
      cbn [ws_workflowRun ws_workflowAction ws_nextActionInputs].
      apply Nat.ltb_lt in Hcreated. rewrite Hcreated, Hfound.
      rewrite bindM_eq, emit_eq, Hnext. destruct workflowRun. reflexivity.
    + intros edge successor Hedge Hsuccessor. subst resumed.
      unfold findWorkflowActionsByIds, findWorkflowActionById in *.
      apply List.find_some in Hsuccessor as [Hstored Hid].
      apply List.filter_In. split; [exact Hstored|].
      apply existsb_exists. exists (na_action edge). split; [|exact Hid].
      apply in_map. exact Hedge.
Qed.

(** C6.  After a node whose operation answered without [sleepUntil]: an
    edge without condition is always selected, an edge with a condition is
    selected exactly when the condition is the string form of the branch
    condition the operation returned, and the call goes on with the targets
    of the selected edges only, in order. *)
Theorem selected_edges_are_the_only_ones_followed
        (fuel : nat) (workflowAction : WorkflowAction)
        (previousOutputs : list (string * value)) (workflowRun : WorkflowRun)
        (st : State) (integrationAction : IntegrationAction)
        (integration : Integration) resolved
        (inputs : list (string * value)) (runResponse : RunResponse) :
  integrationActions w !! wa_integrationAction workflowAction
  = Some integrationAction ->
  integrations w !! ia_integration integrationAction = Some integration ->
  resolvedCredentials w (wa_credentials workflowAction) = Some resolved ->
  InputUtils.parseStepInputs (lodashGet w) (evaluate w) (wa_inputs workflowAction)
    (JObj previousOutputs) = Ok inputs ->
  runOperation w (actionRunOptions integration integrationAction inputs resolved)
  = Answer runResponse ->
  rr_sleepUntil runResponse = None ->
  let nextActionInputs :=
    setField (wa_id workflowAction) (JObj (rr_outputs runResponse))
      previousOutputs in
  let selected :=
    List.filter (conditionMet runResponse)
      (default [] (wa_nextActions workflowAction)) in
  (forall edge, hasCondition edge = false -> conditionMet runResponse edge = true)
  /\ (forall edge condition,
        hasCondition edge = true ->
        na_condition edge = Some condition ->
        (conditionMet runResponse edge = true
         <-> condition = toString (rr_condition runResponse)))
  /\ (forall edge,
        In edge selected
        <-> In edge (default [] (wa_nextActions workflowAction))
            /\ (hasCondition edge = false
                \/ na_condition edge
                   = Some (toString (rr_condition runResponse))))
  /\ runWorkflowActionsTree w (S fuel) workflowAction previousOutputs
       workflowRun st
     = forEach selected
         (fun edge =>
            match findWorkflowActionById w (na_action edge) with
            | None =>
                throw (Error ("WorkflowAction " +:+ na_action edge
                              +:+ " not found"))
            | Some nextAction =>
                runWorkflowActionsTree w fuel nextAction nextActionInputs
                  workflowRun
            end)
         (withEvents st
            (completedNodeEvents integration integrationAction workflowAction
               workflowRun
               (actionRunOptions integration integrationAction inputs
                  resolved))).
Proof.
  intros Hia Hint Hcred Hinputs Hrun Hsleep nextActionInputs selected.
  assert (Hno : forall edge,
             hasCondition edge = false -> conditionMet runResponse edge = true).
  { intros edge Hc. unfold conditionMet, hasCondition in *. rewrite Hc.
    reflexivity. }
  assert (Hyes : forall edge condition,
             hasCondition edge = true ->
             na_condition edge = Some condition ->
             (conditionMet runResponse edge = true
              <-> condition = toString (rr_condition runResponse))).
  { intros edge condition Hc Hcond. unfold conditionMet, hasCondition in *.
    rewrite Hc, Hcond. simpl. apply String.eqb_eq. }
  split; [exact Hno|]. split; [exact Hyes|]. split.
  - intros edge. subst selected. rewrite List.filter_In. split.
    + intros [Hin Hmet]. split; [exact Hin|].
      destruct (hasCondition edge) eqn:Hc; [right|left; reflexivity].
      pose proof Hc as Hc'. unfold hasCondition in Hc'.
      destruct (na_condition edge) as [condition|] eqn:Hcond; [|discriminate].
      f_equal. apply (Hyes edge condition); assumption.
    + intros [Hin [Hc|Hcond]]; (split; [exact Hin|]).
      * apply Hno. exact Hc.
      * destruct (hasCondition edge) eqn:Hc; [|apply Hno; exact Hc].
        apply (Hyes edge _ Hc Hcond). reflexivity.
  - rewrite (runWorkflowActionsTree_answered _ _ _ _ _ _ _ _ _ _
               Hia Hint Hcred Hinputs Hrun).
    rewrite Hsleep. reflexivity.
Qed.

End Executor.

(** ** The executor on the sample installation *)

Section SampleRuns.
Import Js RunnerModel RunnerService RunnerSpecs Fixtures.

(** C2 (the code departs from the claim).  In workflow wf1 the node A has
    the successors B and C, and the credentials B refers to are gone.  The
    failure of B is recorded, but then the call rejects: C, the sibling of
    B, never starts, and the run is never marked completed. *)
Theorem missing_credentials_abort_the_siblings_and_the_run (fuel : nat) :
  startWorkflowRun sampleWorld (4 + fuel) "wf1" [] run0 started
  = Rejected (NotFoundException "Account credentials not found")
      (withEvents started
         (completedNode nodeA "send"
          ++ [ Logged LLog "Running workflow action B for workflow wf1";
               AddedRunningAction run0
                 {| ra_workflowAction := "B"; ra_integrationName := "Slack";
                    ra_operationName := "send" |};
               MarkedActionAsFailed run0
                 {| ra_workflowAction := "B"; ra_integrationName := "Slack";
                    ra_operationName := "send" |}
                 "Credentials not found" None ])).
Proof. vm_compute. reflexivity. Qed.

(** By contrast, when the operation of a node fails (E in workflow wf2),
    the call returns: the sibling F runs and the run is marked completed. *)
Lemma failed_operation_stops_its_branch_only (fuel : nat) :
  startWorkflowRun sampleWorld (4 + fuel) "wf2" [] run0 started
  = Resolved tt
      (withEvents started
         (completedNode nodeD "send"
          ++ startedNode nodeE "broken"
          ++ [ MarkedActionAsFailed run0
                 {| ra_workflowAction := "E"; ra_integrationName := "Slack";
                    ra_operationName := "broken" |}
                 "Request failed" None;
               Logged LError "Run WorkflowAction E failed with error undefined" ]
          ++ completedNode nodeF "send"
          ++ [ MarkedWorkflowRunAsCompleted run0 ])).
Proof. vm_compute. reflexivity. Qed.

(** The same holds when the inputs of a node do not resolve. *)
Lemma unresolved_inputs_stop_their_branch_only :
  let bad :=
    {| wa_id := "E"; wa_owner := "user-1"; wa_workflow := "wf2";
       wa_integrationAction := "send-id";
       wa_inputs := [("text", JStr "{{ 1 + }}")];
       wa_credentials := None; wa_isRootAction := false;
       wa_nextActions := Some [] |} in
  let world :=
    {| integrations := integrations sampleWorld;
       integrationActions := integrationActions sampleWorld;
       integrationActionByKey := integrationActionByKey sampleWorld;
       integrationTriggers := integrationTriggers sampleWorld;
       integrationAccounts := integrationAccounts sampleWorld;
       accountCredentials := accountCredentials sampleWorld;
       workflows := workflows sampleWorld;
       workflowActions := [nodeD; bad; nodeF];
       credentialsAesKey := credentialsAesKey sampleWorld;
       decryptCredentials := decryptCredentials sampleWorld;
       runOperation := runOperation sampleWorld;
       lodashGet := lodashGet sampleWorld;
       evaluate := evaluate sampleWorld;
       extractTriggerItems := extractTriggerItems sampleWorld |} in
  startWorkflowRun world 10 "wf2" [] run0 started
  = Resolved tt
      (withEvents started
         (completedNode nodeD "send"
          ++ [ Logged LLog "Running workflow action E for workflow wf2";
               AddedRunningAction run0
                 {| ra_workflowAction := "E"; ra_integrationName := "Slack";
                    ra_operationName := "send" |};
               MarkedActionAsFailed run0
                 {| ra_workflowAction := "E"; ra_integrationName := "Slack";
                    ra_operationName := "send" |}
                 "Invalid inputs (Cannot evaluate 1 +)" None;
               Logged LError
                 "Parse step inputs for E failed with error Cannot evaluate 1 +" ]
          ++ completedNode nodeF "send"
          ++ [ MarkedWorkflowRunAsCompleted run0 ])).
Proof. vm_compute. reflexivity. Qed.

End SampleRuns.

Lemma trigger_dedup_and_cursor_witness :
  RunnerService.selectNewItems (Some "m1") Fixtures.polled
  = take 2 Fixtures.polled
  /\ RunnerService.runWorkflowTriggerCheck Fixtures.sampleWorld 10
       (Fixtures.sampleTrigger (Some "m1")) RunnerModel.ByTrigger
       RunnerModel.initialState
     = RunnerService.runWorkflowActions Fixtures.sampleWorld 10
         [Fixtures.nodeK]
         [ [("trigger-1", Js.JObj [("id", Js.JStr "m2")])];
           [("trigger-1", Js.JObj [("id", Js.JStr "m3")])] ]
         Fixtures.run0
         {| RunnerModel.events :=
              [ RunnerModel.Logged RunnerModel.LDebug
                  "Checking for trigger trigger-1";
                RunnerModel.CreatedRun Fixtures.run0 "wf4"
                  RunnerModel.ByTrigger (Some "trigger-1");
                RunnerModel.RanOperation
                  (RunnerSpecs.triggerRunOptions Fixtures.slack
                     Fixtures.pollTrigger [] Fixtures.noCredentials);
                RunnerModel.Logged RunnerModel.LLog
                  "Trigger condition satisfied for trigger trigger-1";
                RunnerModel.MarkedTriggerAsCompleted Fixtures.run0 true
                  ["m3"; "m2"; "m1"];
                RunnerModel.UpdatedTriggerLastId "trigger-1" "m3" ];
            RunnerModel.runsCreated := 1;
            RunnerModel.cursors := {[ "trigger-1" := "m3" ]} |}
  /\ exists st',
       RunnerService.runWorkflowTriggerCheck Fixtures.sampleWorld 10
         (Fixtures.sampleTrigger (Some "m1")) RunnerModel.ByTrigger
         RunnerModel.initialState = RunnerModel.Resolved tt st'
       /\ RunnerModel.cursors st' = {[ "trigger-1" := "m3" ]}.
Proof.
  assert (Hpolls : RunnerSpecs.polls Fixtures.sampleWorld
                     (Fixtures.sampleTrigger (Some "m1")) Fixtures.pollTrigger
                     Fixtures.slack Fixtures.noCredentials []
                     Fixtures.polledResponse).
  { repeat split; try reflexivity. vm_compute. discriminate. }
  destruct (trigger_dedup_and_cursor Fixtures.sampleWorld 10
              (Fixtures.sampleTrigger (Some "m1")) RunnerModel.ByTrigger
              RunnerModel.initialState Fixtures.pollTrigger Fixtures.slack
              Fixtures.noCredentials [] Fixtures.polledResponse Hpolls)
    as (Hfound & _ & _ & _ & Hnew).
  destruct (Hnew ltac:(vm_compute; discriminate))
    as (newest & older & Hitems & Hdispatch & Hresolved).
  injection Hitems as <- <-.
  destruct (Hdispatch eq_refl) as [Hcheck _].
  split; [|split].
  - apply (Hfound "m1" 2); try reflexivity.
    intros [|[|j]] Hj; [discriminate|discriminate|lia].
  - etransitivity; [exact Hcheck|]. vm_compute. reflexivity.
  - assert (Hruns : exists st',
               RunnerService.runWorkflowTriggerCheck Fixtures.sampleWorld 10
                 (Fixtures.sampleTrigger (Some "m1")) RunnerModel.ByTrigger
                 RunnerModel.initialState = RunnerModel.Resolved tt st').
    { vm_compute. eexists. reflexivity. }
    destruct Hruns as [st' Hruns]. exists st'. split; [exact Hruns|].
    rewrite (Hresolved st' Hruns). vm_compute. reflexivity.
Defined.

Lemma sleeping_node_witness :
  RunnerService.runWorkflowActionsTree Fixtures.sampleWorld 1 Fixtures.nodeS []
    Fixtures.run0 Fixtures.started
  = RunnerModel.Resolved tt
      (RunnerSpecs.withEvents Fixtures.started
         (Fixtures.completedNode Fixtures.nodeS "delay"
          ++ [ RunnerModel.SleptWorkflowRun
                 {| RunnerModel.ws_workflowRun := 0;
                    RunnerModel.ws_workflowAction := "S";
                    RunnerModel.ws_nextActionInputs :=
                      Some [("S", Js.JObj [("waited", Js.JBool true)])];
                    RunnerModel.ws_sleepUntil := "2030-01-01T00:00:00.000Z" |} ]))
  /\ RunnerService.wakeUpWorkflowRun Fixtures.sampleWorld 5
       {| RunnerModel.ws_workflowRun := 0;
          RunnerModel.ws_workflowAction := "S";
          RunnerModel.ws_nextActionInputs :=
            Some [("S", Js.JObj [("waited", Js.JBool true)])];
          RunnerModel.ws_sleepUntil := "2030-01-01T00:00:00.000Z" |}
       Fixtures.started
     = RunnerModel.Resolved tt
         (RunnerSpecs.withEvents Fixtures.started
            ([ RunnerModel.WokeUpWorkflowRun Fixtures.run0 ]
             ++ Fixtures.completedNode Fixtures.nodeT "send"
             ++ [ RunnerModel.MarkedWorkflowRunAsCompleted Fixtures.run0 ])).
Proof.
  destruct (sleeping_node_halts_and_resumes_with_same_bag
              Fixtures.sampleWorld 0 Fixtures.nodeS [] Fixtures.run0
              Fixtures.started (Fixtures.operation "delay") Fixtures.slack
              Fixtures.noCredentials [] _ "2030-01-01T00:00:00.000Z"
              eq_refl eq_refl eq_refl eq_refl eq_refl eq_refl)
    as [Hhalt Hwake].
  split.
  - etransitivity; [exact Hhalt|]. reflexivity.
  - destruct (Hwake 5 Fixtures.started [Fixtures.edge "T" (Some "never")]
                eq_refl eq_refl ltac:(simpl; lia)) as [Hresume _].
    etransitivity; [exact Hresume|]. vm_compute. reflexivity.
Defined.

Lemma selected_edges_witness :
  RunnerService.conditionMet
    {| RunnerModel.rr_outputs := [("found", Js.JBool true)];
       RunnerModel.rr_condition := Js.JBool true;
       RunnerModel.rr_sleepUntil := None |}
    (Fixtures.edge "K3" None) = true
  /\ RunnerService.runWorkflowActionsTree Fixtures.sampleWorld 2 Fixtures.nodeK
       [] Fixtures.run0 Fixtures.started
     = RunnerModel.Resolved tt
         (RunnerSpecs.withEvents Fixtures.started
            (Fixtures.completedNode Fixtures.nodeK "check"
             ++ Fixtures.completedNode Fixtures.nodeK1 "send"
             ++ Fixtures.completedNode Fixtures.nodeK3 "send")).
Proof.
  destruct (selected_edges_are_the_only_ones_followed
              Fixtures.sampleWorld 1 Fixtures.nodeK [] Fixtures.run0
              Fixtures.started (Fixtures.operation "check") Fixtures.slack
              Fixtures.noCredentials [] _
              eq_refl eq_refl eq_refl eq_refl eq_refl eq_refl)
    as (Hno & Hyes & Hselected & Hnext).
  split.
  - apply Hno. reflexivity.
  - etransitivity; [exact Hnext|]. vm_compute. reflexivity.
Defined.

(** ** More about the matcher: what a match is, and literal patterns *)

Section MatcherMore.
Import JsString JsText Js Regex InputUtils Specs.

Lemma matchHere_Some (r : regex) (idx : nat) (s : string) (m : Match) :
  matchHere r idx s = Some m ->
  index m = idx /\ exists rest, s = text m +:+ rest /\ Accepts r (text m).
Proof.
  unfold matchHere. intros H.
  apply rmatch_sound in H as (a & rest & cs' & -> & Ha & Hm).
  injection Hm as <-. cbn [index text].
  rewrite len_minus_append, substringTo_prefix. eauto.
Qed.

Lemma matchAllFrom_In (r : regex) (fuel : nat) :
  forall idx s m,
    In m (matchAllFrom r fuel idx s) ->
    Accepts r (text m)
    /\ exists before after,
         s = before +:+ text m +:+ after /\ index m = idx + len before.
Proof.
  induction fuel as [|fuel IH]; intros idx s m Hin; [destruct Hin|].
  cbn [matchAllFrom] in Hin.
  destruct (matchHere r idx s) as [m0|] eqn:Hm0.
  - destruct (matchHere_Some _ _ _ _ Hm0) as (Hidx & rest & Hs & Hacc).
    destruct Hin as [<-|Hin].
    + split; [exact Hacc|]. exists EmptyString, rest.
      rewrite append_nil_l. split; [exact Hs|]. cbn. lia.
    + destruct (len (text m0)) as [|n] eqn:Hn.
      * destruct s as [|c s']; [destruct Hin|].
        apply IH in Hin as (Ha & before & after & Hs' & Hi).
        split; [exact Ha|]. exists (String c before), after.
        rewrite append_cons, <- Hs'. split; [reflexivity|].
        rewrite len_cons. lia.
      * rewrite Hs in Hin. rewrite <- Hn in Hin.
        rewrite substringFrom_prefix in Hin.
        apply IH in Hin as (Ha & before & after & Hs' & Hi).
        split; [exact Ha|]. exists (text m0 +:+ before), after.
        rewrite append_assoc, <- Hs'. split; [exact Hs|].
        rewrite len_append. lia.
  - destruct s as [|c s']; [destruct Hin|].
    apply IH in Hin as (Ha & before & after & Hs' & Hi).
    split; [exact Ha|]. exists (String c before), after.
    rewrite append_cons, <- Hs'. split; [reflexivity|].
    rewrite len_cons. lia.
Qed.

Lemma matchAll_In (r : regex) (s : string) (m : Match) :
  In m (matchAll r s) ->
  Accepts r (text m)
  /\ exists before after, s = before +:+ text m +:+ after.
Proof.
  intros Hin. apply matchAllFrom_In in Hin as (Ha & before & after & Hs & _).
  eauto.
Qed.

Lemma MatchesIn_tail (r : regex) (c : ascii) (s : string) :
  MatchesIn r s -> MatchesIn r (String c s).
Proof.
  intros (before & a & after & -> & Ha).
  exists (String c before), a, after. split; [reflexivity|exact Ha].
Qed.

Lemma matchAllFrom_no_match (r : regex) (fuel : nat) :
  forall idx s, ~ MatchesIn r s -> matchAllFrom r fuel idx s = [].
Proof.
  induction fuel as [|fuel IH]; intros idx s Hno; [reflexivity|].
  cbn [matchAllFrom].
  assert (Hm : matchHere r idx s = None).
  { apply matchHere_None. intros (a & rest & Hs & Ha). apply Hno.
    exists EmptyString, a, rest. split; assumption. }
  rewrite Hm. destruct s as [|c s']; [reflexivity|].
  apply IH. intros H. apply Hno, MatchesIn_tail, H.
Qed.

Lemma matchAll_no_match (r : regex) (s : string) :
  ~ MatchesIn r s -> matchAll r s = [].
Proof. apply matchAllFrom_no_match. Qed.

Lemma startsWith_spec (p s : string) :
  startsWith p s = true <-> exists rest, s = p +:+ rest.
Proof.
  revert s. induction p as [|a p IH]; intros s; cbn [startsWith].
  - split; [|reflexivity]. intros _. exists s. reflexivity.
  - destruct s as [|b s].
    + split; [discriminate|]. intros (rest & H). discriminate.
    + rewrite andb_true_iff, IH. split.
      * intros (Hab & rest & ->). apply Ascii.eqb_eq in Hab as ->.
        exists rest. reflexivity.
      * intros (rest & H). rewrite append_cons in H. injection H as -> ->.
        split; [apply Ascii.eqb_refl|eauto].
Qed.

Lemma indexOf_Some (p s : string) :
  forall i, indexOf p s = Some i ->
    exists before after, s = before +:+ p +:+ after /\ len before = i.
Proof.
  induction s as [|c s IH]; intros i; cbn [indexOf].
  - destruct (startsWith p EmptyString) eqn:Hp; [|discriminate].
    intros [= <-]. apply startsWith_spec in Hp as (rest & ->).
    exists EmptyString, rest. split; reflexivity.
  - destruct (startsWith p (String c s)) eqn:Hp.
    + intros [= <-]. apply startsWith_spec in Hp as (rest & ->).
      exists EmptyString, rest. split; reflexivity.
    + destruct (indexOf p s) as [j|]; [|discriminate].
      intros [= <-]. destruct (IH j eq_refl) as (before & after & -> & <-).
      exists (String c before), after. split; reflexivity.
Qed.

Lemma indexOf_None (p s : string) :
  indexOf p s = None ->
  forall before after, s <> before +:+ p +:+ after.
Proof.
  induction s as [|c s IH]; cbn [indexOf].
  - destruct (startsWith p EmptyString) eqn:Hp; [discriminate|].
    intros _ before after Hs. destruct before; [|discriminate].
    rewrite append_nil_l in Hs.
    assert (startsWith p EmptyString = true)
      by (apply startsWith_spec; eauto).
    congruence.
  - destruct (startsWith p (String c s)) eqn:Hp; [discriminate|].
    destruct (indexOf p s) as [j|]; [discriminate|].
    intros _ before after Hs. destruct before as [|c' before].
    + rewrite append_nil_l in Hs.
      assert (startsWith p (String c s) = true)
        by (apply startsWith_spec; eauto).
      congruence.
    + rewrite append_cons in Hs. injection Hs as _ Hs.
      exact (IH eq_refl before after Hs).
Qed.

Lemma includes_false (p s : string) :
  includes p s = false ->
  forall before after, s <> before +:+ p +:+ after.
Proof.
  unfold includes. destruct (indexOf p s) eqn:Hi; [discriminate|].
  intros _. apply indexOf_None, Hi.
Qed.

Lemma Accepts_Lit (t a : string) : Accepts (Lit t) a -> a = t.
Proof.
  revert a. induction t as [|c t IH]; intros a Ha; cbn [Lit] in Ha.
  - inversion Ha. reflexivity.
  - inversion Ha as [| |r1 r2 a1 a2 H1 H2| | |]; subst.
    inversion H1 as [|p c' Hc| | | |]; subst.
    apply Ascii.eqb_eq in Hc as <-. rewrite append_cons, append_nil_l.
    f_equal. apply IH, H2.
Qed.

(** A match of the placeholder pattern starts with two opening braces. *)
Lemma Accepts_variableRegex (a : string) :
  Accepts variableRegex a -> exists rest, a = "{{" +:+ rest.
Proof.
  unfold variableRegex. intros Ha.
  inversion Ha as [| |r1 r2 a1 a2 H1 H2| | |]; subst.
  apply (Accepts_Lit "{{") in H1 as ->. eauto.
Qed.

(** A match of the path pattern contains a dot. *)
Lemma Accepts_operatorsRegex (a : string) :
  Accepts operatorsRegex a -> exists b c, a = b +:+ "." +:+ c.
Proof.
  unfold operatorsRegex. intros Ha.
  inversion Ha as [| |r1 r2 a1 a2 H1 H2| | |]; subst.
  inversion H2 as [| |r3 r4 a3 a4 H3 H4| | |]; subst.
  inversion H3 as [|p c' Hc| | | |]; subst.
  apply Ascii.eqb_eq in Hc as <-. eauto.
Qed.

Lemma no_placeholder_without_braces (s : string) :
  includes "{{" s = false -> matchAll variableRegex s = [].
Proof.
  intros Hs. apply matchAll_no_match.
  intros (before & a & after & Heq & Ha).
  apply Accepts_variableRegex in Ha as (rest & ->).
  rewrite append_assoc in Heq.
  exact (includes_false _ _ Hs _ _ Heq).
Qed.

Lemma no_path_without_dot (s : string) :
  includes "." s = false -> matchAll operatorsRegex s = [].
Proof.
  intros Hs. apply matchAll_no_match.
  intros (before & a & after & Heq & Ha).
  apply Accepts_operatorsRegex in Ha as (b & c & ->).
  rewrite !append_assoc, <- (append_assoc before b) in Heq.
  exact (includes_false _ _ Hs _ _ Heq).
Qed.

(** *** Literal patterns *)

Lemma rmatch_Lit_startsWith {A : Type} (t s : string) (cs : captures)
      (k : string -> captures -> option A) :
  rmatch (Lit t) s cs k
  = if startsWith t s then k (substringFrom (len t) s) cs else None.
Proof.
  revert s. induction t as [|c t IH]; intros s; [reflexivity|].
  cbn [Lit]. rewrite rmatch_Seq. destruct s as [|b s]; [reflexivity|].
  rewrite rmatch_Chr_cons. cbn [startsWith].
  destruct (Ascii.eqb c b); [|reflexivity]. cbn [andb]. apply IH.
Qed.

Lemma matchHere_Lit (t : string) (idx : nat) (s : string) :
  matchHere (Lit t) idx s
  = if startsWith t s then Some (mkMatch idx t []) else None.
Proof.
  unfold matchHere. rewrite rmatch_Lit_startsWith.
  destruct (startsWith t s) eqn:Hp; [|reflexivity].
  apply startsWith_spec in Hp as (rest & ->).
  rewrite substringFrom_prefix, len_minus_append, substringTo_prefix.
  reflexivity.
Qed.

Lemma execFrom_Lit (t s : string) :
  forall idx,
    execFrom (Lit t) idx s
    = (fun i => mkMatch (idx + i) t []) <$> indexOf t s.
Proof.
  induction s as [|c s IH]; intros idx; cbn [execFrom indexOf];
    rewrite matchHere_Lit.
  - destruct (startsWith t EmptyString); cbn; [rewrite Nat.add_0_r|];
      reflexivity.
  - destruct (startsWith t (String c s)); cbn;
      [rewrite Nat.add_0_r; reflexivity|].
    rewrite IH. destruct (indexOf t s); cbn; [|reflexivity].
    do 2 f_equal. lia.
Qed.

(** Replacing the first match of a literal pattern is replacing the first
    occurrence of the literal. *)
Lemma replaceFirst_Lit (t s replacement : string) :
  replaceFirst (Lit t) 0 s replacement = JsString.replace s t replacement.
Proof.
  unfold replaceFirst, JsString.replace, exec. rewrite execFrom_Lit.
  destruct (indexOf t s); reflexivity.
Qed.

Lemma exec_Lit_is_Some (t s : string) :
  bool_decide (is_Some (exec (Lit t) s)) = includes t s.
Proof.
  unfold exec, includes. rewrite execFrom_Lit.
  destruct (indexOf t s); reflexivity.
Qed.

End MatcherMore.

(** ** The resolver on placeholder-free values, arrays and plain expressions *)

Section ResolverMore.
Import JsString JsText Js Regex InputUtils Specs MoreSpecs Fixtures.

Variable get : value -> string -> value.
Variable evaluate : string -> result value.

Lemma setField_fresh (k : string) (v : value) (fs : list (string * value)) :
  k ∉ keys fs -> setField k v fs = fs ++ [(k, v)].
Proof.
  induction fs as [|[k' v'] fs IH]; intros Hk; simpl; [reflexivity|].
  destruct (String.eqb_spec k' k) as [->|Hne].
  - exfalso. apply Hk. left.
  - rewrite IH; [reflexivity|]. intros H. apply Hk. right. exact H.
Qed.

Lemma parseEntries_fixed (fs : list (string * value)) (outputs : value) :
  Forall (fun kv => parseInput get evaluate (snd kv) outputs = Ok (snd kv)) fs ->
  forall acc,
    NoDup (keys acc ++ keys fs) ->
    protoKey ∉ keys fs ->
    parseEntries get evaluate fs outputs acc = Ok (acc ++ fs).
Proof.
  induction 1 as [|[k x] fs Hx _ IH]; intros acc Hnd Hproto; simpl.
  - rewrite app_nil_r. reflexivity.
  - simpl in Hx. rewrite Hx. simpl.
    assert (Hfresh : k ∉ keys acc).
    { simpl in Hnd. apply NoDup_app in Hnd as (_ & Hdis & _).
      intros Hin. apply (Hdis k Hin). left. }
    rewrite assignField_other
      by (intros ->; apply Hproto; left).
    rewrite setField_fresh by exact Hfresh.
    rewrite IH; [rewrite <- app_assoc; reflexivity| |].
    + unfold keys in *. rewrite map_app. simpl. rewrite <- app_assoc.
      exact Hnd.
    + intros Hin. apply Hproto. right. exact Hin.
Qed.

Lemma parseString_plain (s : string) (outputs : value) :
  includes "{{" s = false -> parseString get evaluate s outputs = Ok (JStr s).
Proof.
  intros Hs. unfold parseString.
  rewrite (no_placeholder_without_braces s Hs). reflexivity.
Qed.

Lemma parseInput_placeholderFree (outputs : value) :
  forall v, placeholderFree v = true -> parseInput get evaluate v outputs = Ok v.
Proof.
  induction v as [| |b|n|s|iso text|items IH|fields IH]
    using value_nested_ind; intros Hv.
  - reflexivity.
  - reflexivity.
  - destruct b; reflexivity.
  - simpl. destruct (negb _); reflexivity.
  - cbn [parseInput]. destruct (negb (truthy (JStr s))); [reflexivity|].
    apply parseString_plain. cbn [placeholderFree] in Hv.
    apply negb_true_iff, Hv.
  - discriminate.
  - cbn [parseInput truthy negb]. cbn [placeholderFree] in Hv.
    match goal with
    | |- JArr <$> ?f items = _ => assert (Hloop : f items = Ok items)
    end.
    { induction IH as [|x items Hx _ IHitems]; [reflexivity|].
      apply andb_true_iff in Hv as [Hv1 Hv2].
      rewrite (Hx Hv1). cbn. rewrite (IHitems Hv2). reflexivity. }
    rewrite Hloop. reflexivity.
  - rewrite parseInput_object. cbn [placeholderFree] in Hv.
    apply andb_true_iff in Hv as [Hv Hall].
    apply andb_true_iff in Hv as [Hv Hproto].
    apply andb_true_iff in Hv as [Hne Hnd].
    apply bool_decide_eq_true in Hnd.
    assert (Hout : protoKey ∉ keys fields).
    { intros Hin. apply hasField_elem_of in Hin. rewrite Hin in Hproto.
      discriminate. }
    assert (Hfix : Forall (fun kv => parseInput get evaluate (snd kv) outputs
                                     = Ok (snd kv)) fields).
    { clear Hne Hnd Hproto Hout. induction IH as [|[k x] fs Hx _ IHfs]; constructor.
      - apply andb_true_iff in Hall as [H1 _]. exact (Hx H1).
      - apply andb_true_iff in Hall as [_ H2]. exact (IHfs H2). }
    destruct fields as [|f fields]; [discriminate|].
    rewrite (parseEntries_fixed (f :: fields) outputs Hfix [] Hnd Hout).
    reflexivity.
Qed.

(** X1.  A value without placeholder is resolved to itself, whatever the
    outputs and without a call of the evaluator or a read of the outputs:
    strings without two opening braces in a row, numbers, booleans, and
    arrays and non-empty objects of such values, where no object has an
    own property [__proto__]. *)
Theorem value_without_placeholder_resolves_to_itself
        (v outputs : value) :
  placeholderFree v = true -> parseInput get evaluate v outputs = Ok v.
Proof. apply parseInput_placeholderFree. Qed.

(** The loop of [input.map((x) => parseInput(x, outputs))]. *)
Lemma parseInput_array (items : list value) (outputs : value) :
  forall v,
    parseInput get evaluate (JArr items) outputs = Ok v
    <-> exists items',
          v = JArr items'
          /\ Forall2 (fun x y => parseInput get evaluate x outputs = Ok y)
               items items'.
Proof.
  cbn [parseInput truthy negb].
  match goal with
  | |- forall v, JArr <$> ?f items = _ <-> _ => set (each := f)
  end.
  assert (Heach : forall xs ys,
             each xs = Ok ys
             <-> Forall2 (fun x y => parseInput get evaluate x outputs = Ok y)
                   xs ys).
  { induction xs as [|x xs IHxs]; intros ys; cbn.
    - split.
      + intros [= <-]. constructor.
      + intros H. inversion H. reflexivity.
    - destruct (parseInput get evaluate x outputs) as [y|e] eqn:Hy; cbn.
      + destruct (each xs) as [ys'|e] eqn:Hys; cbn.
        * split.
          -- intros [= <-]. constructor; [exact Hy|]. apply IHxs.
             reflexivity.
          -- intros H. inversion H as [|x0 y0 xs0 ys0 Hxy Hrest]; subst.
             rewrite Hy in Hxy. injection Hxy as <-. apply IHxs in Hrest.
             injection Hrest as <-. reflexivity.
        * split; [discriminate|].
          intros H. inversion H as [|x0 y0 xs0 ys0 Hxy Hrest]; subst.
          apply IHxs in Hrest. discriminate.
      + split; [discriminate|].
        intros H. inversion H as [|x0 y0 xs0 ys0 Hxy Hrest]; subst.
        rewrite Hy in Hxy. discriminate. }
  intros v. destruct (each items) as [ys|e] eqn:Hys; cbn.
  - split.
    + intros [= <-]. exists ys. split; [reflexivity|]. apply Heach, Hys.
    + intros (items' & -> & H). apply Heach in H.
      rewrite Hys in H. injection H as <-. reflexivity.
  - split; [discriminate|].
    intros (items' & -> & H). apply Heach in H. congruence.
Qed.

(** X2.  An array is resolved element by element: the result is an array
    of the same length whose elements are the resolved elements, in order;
    an empty array stays an empty array. *)
Theorem array_is_resolved_element_by_element
        (items : list value) (outputs v : value) :
  parseInput get evaluate (JArr items) outputs = Ok v
  <-> exists items',
        v = JArr items'
        /\ length items' = length items
        /\ forall i x, items !! i = Some x ->
             exists y, items' !! i = Some y
                       /\ parseInput get evaluate x outputs = Ok y.
Proof.
  rewrite parseInput_array. split.
  - intros (items' & -> & H). exists items'. split; [reflexivity|].
    split; [symmetry; eapply Forall2_length, H|].
    intros i x Hx.
    destruct (Forall2_lookup_l _ _ _ _ _ H Hx) as (y & Hy & Hxy). eauto.
  - intros (items' & -> & Hlen & H). exists items'. split; [reflexivity|].
    apply Forall2_same_length_lookup. split; [symmetry; exact Hlen|].
    intros i x y Hx Hy. destruct (H i x Hx) as (y' & Hy' & Hxy).
    congruence.
Qed.

(** X4.  An expression in which no dot occurs holds no path token: the
    evaluator receives it as it is, and the outputs are not read. *)
Theorem expression_without_dot_is_evaluated_as_it_is
        (input : string) (references : value) :
  includes "." input = false ->
  substituteOperators get input references = input
  /\ calculateExpression get evaluate input references = evaluate input.
Proof.
  intros Hdot. unfold calculateExpression, substituteOperators.
  rewrite (no_path_without_dot input Hdot). split; reflexivity.
Qed.

End ResolverMore.

Lemma value_without_placeholder_witness :
  InputUtils.parseInput Lodash.get Fixtures.sampleEvaluate
    (Js.JObj [("to", Js.JStr "a@b.c"); ("tags", Js.JArr [Js.JStr "{x}"; Js.JNum 1])])
    Fixtures.fooBag
  = Js.Ok (Js.JObj [("to", Js.JStr "a@b.c");
                    ("tags", Js.JArr [Js.JStr "{x}"; Js.JNum 1])]).
Proof.
  apply (value_without_placeholder_resolves_to_itself Lodash.get
           Fixtures.sampleEvaluate).
  vm_compute. reflexivity.
Defined.

Lemma expression_without_dot_witness :
  InputUtils.substituteOperators Lodash.get "5 - 3" Fixtures.fooBag = "5 - 3"
  /\ InputUtils.calculateExpression Lodash.get Fixtures.sampleEvaluate "5 - 3"
       Fixtures.fooBag
     = Fixtures.sampleEvaluate "5 - 3".
Proof.
  apply (expression_without_dot_is_evaluated_as_it_is Lodash.get
           Fixtures.sampleEvaluate).
  reflexivity.
Defined.

(** ** [extract] with a template that has no wildcard *)

Section ExtractLiteral.
Import JsString JsText Js Regex InputUtils Specs.

Lemma allChars_escapeTemplate (t : string) :
  allChars (notChar "*") t = true ->
  allChars (notChar "*") (escapeTemplate t) = true.
Proof.
  induction t as [|c t IH]; [reflexivity|]. cbn [allChars escapeTemplate].
  intros H. apply andb_true_iff in H as [Hc Ht].
  destruct (isRegExpSpecial c); cbn [allChars]; rewrite Hc, (IH Ht);
    reflexivity.
Qed.

(** Without a star in the text there is no wildcard to rewrite. *)
Lemma wildcards_without_star (s : string) :
  allChars (notChar "*") s = true -> wildcards false s = s.
Proof.
  induction s as [|c s IH]; [reflexivity|]. intros H.
  cbn [allChars] in H. apply andb_true_iff in H as [Hc Hs].
  specialize (IH Hs). cbn [wildcards andb].
  destruct s as [|c2 s2]; [reflexivity|].
  assert (Hc2 : Ascii.eqb c2 "*" = false).
  { cbn [allChars] in Hs. apply andb_true_iff in Hs as [H2 _].
    unfold notChar in H2. apply negb_true_iff in H2.
    rewrite Ascii.eqb_sym. exact H2. }
  rewrite IH.
  destruct s2 as [|c3 [|c4 [|c5 [|c6 rest']]]]; try reflexivity.
  rewrite Hc2, andb_false_r. reflexivity.
Qed.

(** The source of an escaped template compiles to the literal pattern of
    the template. *)
Lemma parseRegExp_escapeTemplate (t : string) :
  forall n, parseRegExp n (escapeTemplate t) = Some (Lit t, n).
Proof.
  induction t as [|c t IH]; intros n; [reflexivity|].
  cbn [escapeTemplate]. destruct (isRegExpSpecial c) eqn:Hc.
  - cbn [parseRegExp]. rewrite Ascii.eqb_refl, Hc, IH. reflexivity.
  - cbn [parseRegExp].
    rewrite (plain_not c "\" Hc eq_refl), (plain_not c "(" Hc eq_refl), Hc, IH.
    reflexivity.
Qed.

Lemma extract_literal (str template replace : string) :
  allChars (notChar "*") template = true ->
  extract str template replace
  = Ok (if includes template str
        then JsString.replace str template replace
        else EmptyString).
Proof.
  intros Hstar. unfold extract.
  rewrite (wildcards_without_star _ (allChars_escapeTemplate _ Hstar)).
  rewrite parseRegExp_escapeTemplate.
  rewrite replaceFirst_Lit. unfold exec, includes. rewrite execFrom_Lit.
  destruct (indexOf template str); reflexivity.
Qed.

(** X5.  With a template in which no star occurs, [extract] treats every
    character of the template literally, the syntax characters of regular
    expressions included: the result is the subject with the first
    occurrence of the template replaced (the replacement being read as a
    replacement pattern), and the empty string when the template does not
    occur in the subject. *)
Theorem extract_without_star_replaces_the_literal_template
        (str template replace : string) :
  allChars (notChar "*") template = true ->
  extract str template replace
  = Ok (if includes template str
        then JsString.replace str template replace
        else EmptyString).
Proof. apply extract_literal. Qed.

End ExtractLiteral.

Lemma extract_without_star_witness :
  InputUtils.extract "total (a.b): 5" "(a.b)" "[$&]"
  = Js.Ok (if JsText.includes "(a.b)" "total (a.b): 5"
           then JsString.replace "total (a.b): 5" "(a.b)" "[$&]"
           else EmptyString).
Proof.
  apply (extract_without_star_replaces_the_literal_template
           "total (a.b): 5" "(a.b)" "[$&]").
  reflexivity.
Defined.

(** ** More about the executor: cursors, credentials, failure cascades *)

Section ExecutorMore.
Import Js RunnerModel RunnerService RunnerSpecs MoreRunnerSpecs.

Variable w : World.

Lemma keeps_findRunById (id : nat) : keepsCursors (findRunById id).
Proof. intros st. reflexivity. Qed.

Lemma keeps_wakeUpWorkflowRun (fuel : nat) (workflowSleep : WorkflowSleep) :
  keepsCursors (wakeUpWorkflowRun w fuel workflowSleep).
Proof.
  unfold wakeUpWorkflowRun.
  apply keeps_bind; [apply keeps_findRunById|intros [run|]];
    [|apply keeps_ret].
  destruct (findWorkflowActionById w _) as [a|]; [|apply keeps_ret].
  apply keeps_bind; [apply keeps_emit|intros _].
  destruct (wa_nextActions a) as [next|]; [|apply keeps_throw].
  apply keeps_bind; [|intros _; apply keeps_emit].
  apply keeps_promiseAll, Forall_map, Forall_forall. intros a' _.
  apply (executor_keeps_cursors w fuel).
Qed.

Lemma keepsOther_keeps {A : Type} (trigger : string) (m : M A) :
  keepsCursors m -> keepsOtherCursors trigger m.
Proof.
  intros H st. specialize (H st).
  destruct (m st) as [a st'|e st'|]; [| |exact I]; intros other _;
    rewrite H; reflexivity.
Qed.

Lemma keepsOther_bind {A B : Type} (trigger : string) (m : M A)
      (f : A -> M B) :
  keepsOtherCursors trigger m ->
  (forall a, keepsOtherCursors trigger (f a)) ->
  keepsOtherCursors trigger (m ≫= f).
Proof.
  intros Hm Hf st. rewrite bindM_eq. specialize (Hm st).
  destruct (m st) as [a st'|e st'|]; [|exact Hm|exact I].
  specialize (Hf a st').
  destruct (f a st') as [b st''|e st''|]; [| |exact I];
    intros other Hne; rewrite (Hf other Hne); apply Hm, Hne.
Qed.

Lemma keepsOther_updateTriggerLastId (trigger lastId : string) :
  keepsOtherCursors trigger (updateTriggerLastId trigger lastId).
Proof.
  intros st other Hne. cbn. apply lookup_insert_ne. congruence.
Qed.

Lemma keepsOther_runWorkflowTriggerCheck
      (fuel : nat) (workflowTrigger : WorkflowTrigger) (startedBy : StartedBy) :
  keepsOtherCursors (wt_id workflowTrigger)
    (runWorkflowTriggerCheck w fuel workflowTrigger startedBy).
Proof.
  pose proof (executor_keeps_cursors w fuel) as (Htree & Hactions & Hfailure).
  set (t := wt_id workflowTrigger).
  assert (Hk : forall A (m : M A), keepsCursors m -> keepsOtherCursors t m)
    by (intros; apply keepsOther_keeps; assumption).
  unfold runWorkflowTriggerCheck.
  apply keepsOther_bind; [apply Hk, keeps_emit|intros _].
  destruct (findRootActions w _) as [|root roots]; [apply Hk, keeps_emit|].
  destruct (integrationTriggers w !! _) as [it|]; [|apply Hk, keeps_throw].
  destruct (negb _); [apply Hk, keeps_throw|].
  destruct (integrations w !! _) as [integ|]; [|apply Hk, keeps_throw].
  apply keepsOther_bind; [apply Hk, keeps_createRun|intros run].
  apply keepsOther_bind.
  { apply Hk, keeps_getCredentials, keeps_onTriggerFailure, Hfailure. }
  intros [[credentials accountCredential] integrationAccount].
  destruct (InputUtils.parseStepInputs _ _ _) as [inputs|e].
  2:{ apply Hk, keeps_bind; [|intros _; apply keeps_emit].
      apply keeps_onTriggerFailure, Hfailure. }
  apply keepsOther_bind; [apply Hk, keeps_emit|intros _].
  destruct (runOperation w _) as [rr|message response].
  2:{ apply Hk, keeps_bind; [|intros _; apply keeps_emit].
      apply keeps_onTriggerFailure, Hfailure. }
  destruct (selectNewItems _ _) as [|newItem newItems].
  { apply Hk, keeps_bind; [apply keeps_emit|intros _; apply keeps_emit]. }
  apply keepsOther_bind; [apply Hk, keeps_emit|intros _].
  apply keepsOther_bind.
  { apply Hk. destruct (truthyStr _); [apply keeps_populateItems|apply keeps_ret]. }
  intros items.
  apply keepsOther_bind; [apply Hk, keeps_emit|intros _].
  apply keepsOther_bind.
  { destruct (map _ _) as [|newest ids];
      [apply Hk, keeps_ret|apply keepsOther_updateTriggerLastId]. }
  intros _. apply Hk, Hactions.
Qed.

(** X7.  The cursor of a trigger is written by the check of that trigger
    and by nothing else: running an action tree, starting a run, the
    failure cascade and waking up a sleeping run leave every cursor as it
    was, and the check of a trigger leaves the cursors of all other
    triggers as they were (whether the call resolves or rejects). *)
Theorem cursor_is_written_by_the_check_of_its_trigger_only (fuel : nat) :
  (forall a bag run, keepsCursors (runWorkflowActionsTree w fuel a bag run))
  /\ (forall id bag run, keepsCursors (startWorkflowRun w fuel id bag run))
  /\ (forall wf, keepsCursors (runWorkflowOnFailure w fuel wf))
  /\ (forall sleep, keepsCursors (wakeUpWorkflowRun w fuel sleep))
  /\ (forall trigger startedBy,
         keepsOtherCursors (wt_id trigger)
           (runWorkflowTriggerCheck w fuel trigger startedBy)).
Proof.
  pose proof (executor_keeps_cursors w fuel) as (Htree & Hactions & Hfailure).
  repeat split.
  - exact Htree.
  - intros id bag run. apply Hactions.
  - exact Hfailure.
  - apply keeps_wakeUpWorkflowRun.
  - apply keepsOther_runWorkflowTriggerCheck.
Qed.

(** *** Two polls in a row *)

Lemma indexOfId_app_fresh (id : string) (freshIds oldIds : list string) :
  id ∉ freshIds ->
  indexOfId id (freshIds ++ id :: oldIds) = Some (length freshIds).
Proof.
  induction freshIds as [|x xs IH]; intros Hnotin; cbn [indexOfId app length].
  - rewrite String.eqb_refl. reflexivity.
  - destruct (String.eqb_spec x id) as [->|_].
    + exfalso. apply Hnotin. left.
    + rewrite IH; [reflexivity|]. intros H. apply Hnotin. right. exact H.
Qed.

(** X8.  Two polls in a row: when the cursor is the identifier of the
    newest item of the previous poll and the next poll returns new items
    in front of the items of the previous poll, the new items are exactly
    the ones selected; in particular, polling the same items again selects
    nothing. *)
Theorem next_poll_selects_the_items_in_front_of_the_previous_newest
        (newItems : list TriggerItem) (newest : TriggerItem)
        (older : list TriggerItem) :
  idToString (ti_id newest) <> EmptyString ->
  idToString (ti_id newest) ∉ triggerIdsOf newItems ->
  selectNewItems (Some (idToString (ti_id newest)))
    (newItems ++ newest :: older)
  = newItems
  /\ selectNewItems (Some (idToString (ti_id newest))) (newest :: older) = [].
Proof.
  intros Hne Hfresh.
  assert (Hgen : forall front,
             idToString (ti_id newest) ∉ triggerIdsOf front ->
             selectNewItems (Some (idToString (ti_id newest)))
               (front ++ newest :: older) = front).
  { intros front Hfront. unfold selectNewItems. cbn [truthyStr].
    destruct (String.eqb_spec (idToString (ti_id newest)) EmptyString)
      as [|_]; [contradiction|].
    cbn [negb].
    change (default EmptyString (Some (idToString (ti_id newest))))
      with (idToString (ti_id newest)).
    rewrite map_app. cbn [map].
    rewrite (indexOfId_app_fresh _ _ _ Hfront).
    unfold triggerIdsOf. rewrite length_map.
    apply take_app_length. }
  split; [exact (Hgen newItems Hfresh)|].
  apply (Hgen []). intros H. inversion H.
Qed.

(** *** Credentials *)

Lemma getField_app_singleton (k k' : string) (v' : value)
      (fs : list (string * value)) :
  getField k (fs ++ [(k', v')])
  = match getField k fs with
    | Some v => Some v
    | None => if String.eqb k' k then Some v' else None
    end.
Proof.
  induction fs as [|[k0 v0] fs IH]; cbn; [reflexivity|].
  destruct (String.eqb k0 k); [reflexivity|exact IH].
Qed.

(** In [{ ...a, ...b }] a key of [b] has the value of its last binding in
    [b]; every other key has its value in [a]. *)
Lemma getField_spread (k : string) (b : list (string * value)) :
  forall a,
    getField k (spread a b)
    = match getField k (reverse b) with
      | Some v => Some v
      | None => getField k a
      end.
Proof.
  unfold spread. induction b as [|[k' v'] b IH]; intros a; [reflexivity|].
  cbn [fold_left fst snd]. rewrite IH, reverse_cons, getField_app_singleton.
  destruct (getField k (reverse b)); [reflexivity|].
  destruct (String.eqb_spec k' k) as [->|Hne].
  - apply getField_setField_eq.
  - apply getField_setField_ne. congruence.
Qed.

Lemma getField_reverse (k : string) (fs : list (string * value)) :
  NoDup (keys fs) -> getField k (reverse fs) = getField k fs.
Proof.
  induction fs as [|[k' v'] fs IH]; intros Hnd; [reflexivity|].
  cbn [keys map fst] in Hnd. apply NoDup_cons in Hnd as [Hnotin Hnd].
  rewrite reverse_cons, getField_app_singleton, (IH Hnd). cbn [getField].
  destruct (String.eqb_spec k' k) as [->|Hne]; [|destruct (getField k fs); reflexivity].
  destruct (getField k fs) as [v|] eqn:Hget; [|reflexivity].
  exfalso. apply Hnotin.
  apply getField_Some_elem_of in Hget.
  apply list_elem_of_fmap. exists (k, v). split; [reflexivity|exact Hget].
Qed.

(** X10.  Credentials handed to an operation: when the stored record
    exists and its encrypted part decrypts, the call returns without
    running the failure handler and without touching the state, and in
    the merged credentials every decrypted field overrides the stored
    plain field of the same name, the other stored fields being kept. *)
Theorem decrypted_credentials_override_stored_fields
        (credentialsId : string) (accountCredential : AccountCredential)
        (unencryptedCredentials : list (string * value))
        (onError : M unit) (st : State) :
  credentialsId <> EmptyString ->
  accountCredentials w !! credentialsId = Some accountCredential ->
  truthyStr (credentialsAesKey w) = true ->
  decryptCredentials w (ac_encryptedCredentials accountCredential)
    (default EmptyString (credentialsAesKey w))
  = Ok unencryptedCredentials ->
  NoDup (keys unencryptedCredentials) ->
  exists credentials integrationAccount,
    getCredentialsAndIntegrationAccount w (Some credentialsId) onError st
    = Resolved (credentials, Some accountCredential, integrationAccount) st
    /\ forall k,
         getField k credentials
         = match getField k unencryptedCredentials with
           | Some v => Some v
           | None => getField k (ac_fields accountCredential)
           end.
Proof.
  intros Hne Hstored Hkey Hdecrypt Hnd.
  unfold getCredentialsAndIntegrationAccount. cbn [truthyStr].
  destruct (String.eqb_spec credentialsId EmptyString) as [|_]; [contradiction|].
  cbn [negb].
  change (default EmptyString (Some credentialsId)) with credentialsId.
  rewrite Hstored, Hkey, bindM_eq, Hdecrypt. cbn [lift].
  eexists _, _. split; [reflexivity|].
  intros k. rewrite getField_spread, (getField_reverse _ _ Hnd). reflexivity.
Qed.

(** *** A failure cascade that feeds itself *)

Lemma promiseAll_single_outOfFuel (p : M unit) (st : State) :
  p st = OutOfFuel -> promiseAll [p] st = OutOfFuel.
Proof. intros H. cbn [promiseAll]. rewrite H. reflexivity. Qed.

Lemma findRootActions_workflow (workflow : string) (a : WorkflowAction) :
  In a (findRootActions w workflow) -> wa_workflow a = workflow.
Proof.
  unfold findRootActions. intros H. apply filter_In in H as [_ H].
  apply andb_true_iff in H as [H _]. apply String.eqb_eq, H.
Qed.

Lemma failure_cycle_outOfFuel (loop : string -> Prop) :
  (forall id, loop id ->
     exists workflow target a,
       workflows w !! id = Some workflow
       /\ wf_runOnFailure workflow = Some target
       /\ target <> EmptyString
       /\ findRootActions w target = [a]
       /\ credentialsGone w a
       /\ loop target) ->
  forall fuel id st, loop id -> runWorkflowOnFailure w fuel id st = OutOfFuel.
Proof.
  intros Hloop fuel.
  induction fuel as [fuel IH] using lt_wf_ind. intros id st Hid.
  destruct fuel as [|f1]; [reflexivity|].
  destruct (Hloop id Hid)
    as (workflow & target & a & Hwf & Htarget & Hne & Hroots & Hgone & Hnext).
  destruct Hgone as ((ia & integ & Hia & Hint) & c & Hcred & Hc & Hnone).
  cbn [runWorkflowOnFailure]. rewrite Hwf, Htarget. cbn [truthyStr].
  destruct (String.eqb_spec target EmptyString) as [|_]; [contradiction|].
  cbn [negb]. change (default EmptyString (Some target)) with target.
  rewrite bindM_eq. unfold createRun at 1. rewrite Hroots.
  destruct f1 as [|f2]; [reflexivity|].
  cbn [runWorkflowActions]. rewrite bindM_eq.
  cbn [forEach]. rewrite bindM_eq. cbn [map].
  rewrite promiseAll_single_outOfFuel; [reflexivity|].
  destruct f2 as [|f3]; [reflexivity|].
  cbn [runWorkflowActionsTree].
  rewrite bindM_eq, emit_eq, Hia, Hint.
  rewrite bindM_eq, emit_eq, bindM_eq.
  unfold getCredentialsAndIntegrationAccount. rewrite Hcred.
  cbn [truthyStr].
  destruct (String.eqb_spec c EmptyString) as [|_]; [contradiction|].
  cbn [negb]. change (default EmptyString (Some c)) with c.
  rewrite Hnone, bindM_eq. unfold onActionFailure.
  rewrite bindM_eq, emit_eq.
  assert (Ha : wa_workflow a = target).
  { apply findRootActions_workflow. rewrite Hroots. left. reflexivity. }
  rewrite Ha, (IH f3 ltac:(lia) target _ Hnext). reflexivity.
Qed.

(** X13.  A failure cascade that feeds itself never returns.  When every
    workflow of a set names a failure workflow of the set, and the only
    root action of each of these failure workflows refers to credentials
    that are gone, then running the failure workflow of a member fails
    again and again: the call neither resolves nor rejects, whatever the
    number of steps allowed.  A workflow that is its own failure workflow
    is the smallest such set. *)
Theorem failure_cascade_that_feeds_itself_never_returns
        (loop : string -> Prop) :
  (forall id, loop id ->
     exists workflow target a,
       workflows w !! id = Some workflow
       /\ wf_runOnFailure workflow = Some target
       /\ target <> EmptyString
       /\ findRootActions w target = [a]
       /\ credentialsGone w a
       /\ loop target) ->
  forall fuel id st, loop id -> runWorkflowOnFailure w fuel id st = OutOfFuel.
Proof. apply failure_cycle_outOfFuel. Qed.

End ExecutorMore.

Lemma next_poll_witness :
  RunnerService.selectNewItems (Some "m3")
    (MoreFixtures.fresh ++ Fixtures.polled)
  = MoreFixtures.fresh
  /\ RunnerService.selectNewItems (Some "m3") Fixtures.polled = [].
Proof.
  apply (next_poll_selects_the_items_in_front_of_the_previous_newest
           MoreFixtures.fresh
           {| RunnerModel.ti_id := RunnerModel.IdString "m3";
              RunnerModel.ti_item := [("id", Js.JStr "m3")] |}
           [ {| RunnerModel.ti_id := RunnerModel.IdString "m2";
                RunnerModel.ti_item := [("id", Js.JStr "m2")] |};
             {| RunnerModel.ti_id := RunnerModel.IdString "m1";
                RunnerModel.ti_item := [("id", Js.JStr "m1")] |} ]).
  - discriminate.
  - vm_compute. intros H.
    repeat (apply elem_of_cons in H as [H|H]; [discriminate|]).
    inversion H.
Defined.

Lemma decrypted_credentials_witness :
  exists credentials integrationAccount,
    RunnerService.getCredentialsAndIntegrationAccount MoreFixtures.vaultWorld
      (Some "cred-1") (RunnerModel.ret tt) RunnerModel.initialState
    = RunnerModel.Resolved
        (credentials, Some MoreFixtures.storedCredential, integrationAccount)
        RunnerModel.initialState
    /\ forall k,
         Js.getField k credentials
         = match Js.getField k [("token", Js.JStr "fresh")] with
           | Some v => Some v
           | None => Js.getField k
                       (RunnerModel.ac_fields MoreFixtures.storedCredential)
           end.
Proof.
  apply (decrypted_credentials_override_stored_fields MoreFixtures.vaultWorld
           "cred-1" MoreFixtures.storedCredential
           [("token", Js.JStr "fresh")]).
  - discriminate.
  - reflexivity.
  - reflexivity.
  - reflexivity.
  - apply NoDup_cons. split; [intros H; inversion H|apply NoDup_nil_2].
Defined.

Lemma failure_cascade_witness :
  RunnerService.runWorkflowOnFailure MoreFixtures.loopWorld 1000 "wf9"
    RunnerModel.initialState
  = RunnerModel.OutOfFuel.
Proof.
  apply (failure_cascade_that_feeds_itself_never_returns MoreFixtures.loopWorld
           (fun id => id = "wf9")); [|reflexivity].
  intros id ->.
  exists MoreFixtures.selfHealing, "wf9", MoreFixtures.nodeL.
  split; [reflexivity|]. split; [reflexivity|]. split; [discriminate|].
  split; [reflexivity|]. split; [|reflexivity].
  split.
  - exists (Fixtures.operation "send"), Fixtures.slack.
    split; reflexivity.
  - exists "cred-gone". split; [reflexivity|]. split; [discriminate|reflexivity].
Defined.

(** ** The trigger check and failing nodes, in general *)

Section ExecutorOutcomes.
Import Js RunnerModel RunnerService RunnerSpecs.

Variable w : World.

(** X9.  What the trigger check does once its poll has answered, with
    or without a populate operation.  Without a new item it records an
    unsatisfied trigger with the newest polled identifier and resolves: no
    action runs and no cursor is written.  With new items it enriches them
    when a populate operation is configured; when that fails the check
    rejects, the cursors as they were; otherwise it records the poll with
    all polled identifiers, stores the newest identifier as the cursor of
    the trigger, and calls [runWorkflowActions] with the root actions and
    one bag per new item, the oldest new item first, each holding the item
    under the identifier of the trigger. *)
Theorem trigger_check_after_the_poll
        (fuel : nat) (workflowTrigger : WorkflowTrigger) (startedBy : StartedBy)
        (st : State) (integrationTrigger : IntegrationTrigger)
        (integration : Integration)
        (resolved : list (string * value) * option AccountCredential
                    * option IntegrationAccount)
        (inputs : list (string * value)) (runResponse : RunResponse) :
  polls w workflowTrigger integrationTrigger integration resolved inputs
    runResponse ->
  let opts := triggerRunOptions integration integrationTrigger inputs resolved in
  let workflowRun := {| run_id := runsCreated st |} in
  let polled := polledState workflowTrigger startedBy opts st in
  let triggerItems :=
    extractTriggerItems w (default EmptyString (it_idKey integrationTrigger))
      (rr_outputs runResponse) in
  let newItems := selectNewItems (wt_lastId workflowTrigger) triggerItems in
  let check := runWorkflowTriggerCheck w fuel workflowTrigger startedBy st in
  (newItems = [] ->
   check
   = Resolved tt
       (withEvents polled
          [ Logged LDebug ("Trigger condition not satisfied for trigger "
                           +:+ wt_id workflowTrigger);
            MarkedTriggerAsCompleted workflowRun false
              (take 1 (triggerIdsOf triggerItems)) ]))
  /\ (newItems <> [] ->
      exists newest older,
        triggerItems = newest :: older
        /\ match (if truthyStr (it_triggerPopulate integrationTrigger
                                ≫= tp_operationId)
                  then populateItems w (definitionKey integration) opts
                         newItems
                  else ret newItems)
                   (withEvents polled
                      [ Logged LLog
                          ("Trigger condition satisfied for trigger "
                           +:+ wt_id workflowTrigger) ]) with
           | Resolved populated st2 =>
               cursors st2 = cursors st
               /\ check
                  = runWorkflowActions w fuel
                      (findRootActions w (wt_workflow workflowTrigger))
                      (map (triggerOutputsOf workflowTrigger)
                         (reverse populated))
                      workflowRun
                      (recordedState workflowTrigger workflowRun
                         (triggerIdsOf triggerItems)
                         (idToString (ti_id newest)) st2)
           | Rejected e st2 =>
               cursors st2 = cursors st /\ check = Rejected e st2
           | OutOfFuel => False
           end).
Proof.
  intros Hpolls opts workflowRun polled triggerItems newItems check. split.
  - intros Hnone.
    exact (runWorkflowTriggerCheck_nothing_new w fuel _ startedBy st _ _ _ _ _
             Hpolls Hnone).
  - intros Hnew.
    exact (runWorkflowTriggerCheck_new_items w fuel _ startedBy st _ _ _ _ _
             Hpolls Hnew).
Qed.



End ExecutorOutcomes.

Lemma trigger_check_after_the_poll_witness :
  RunnerService.runWorkflowTriggerCheck MoreFixtures.populateWorld 10
    (Fixtures.sampleTrigger (Some "m2")) RunnerModel.ByTrigger
    RunnerModel.initialState
  = RunnerService.runWorkflowActions MoreFixtures.populateWorld 10
      [Fixtures.nodeK]
      [[("trigger-1", Js.JObj [("ok", Js.JBool true); ("id", Js.JStr "m3")])]]
      Fixtures.run0
      {| RunnerModel.events :=
           [ RunnerModel.Logged RunnerModel.LDebug
               "Checking for trigger trigger-1";
             RunnerModel.CreatedRun Fixtures.run0 "wf4"
               RunnerModel.ByTrigger (Some "trigger-1");
             RunnerModel.RanOperation MoreFixtures.populateOptions;
             RunnerModel.Logged RunnerModel.LLog
               "Trigger condition satisfied for trigger trigger-1";
             RunnerModel.RanOperation
               {| RunnerModel.ro_definition := "slack";
                  RunnerModel.ro_integration := Fixtures.slack;
                  RunnerModel.ro_integrationAccount := None;
                  RunnerModel.ro_operation :=
                    RunnerModel.OfAction (Fixtures.operation "send");
                  RunnerModel.ro_inputs := [];
                  RunnerModel.ro_credentials := [];
                  RunnerModel.ro_accountCredential := None |};
             RunnerModel.MarkedTriggerAsCompleted Fixtures.run0 true
               ["m3"; "m2"; "m1"];
             RunnerModel.UpdatedTriggerLastId "trigger-1" "m3" ];
         RunnerModel.runsCreated := 1;
         RunnerModel.cursors := {[ "trigger-1" := "m3" ]} |}
  /\ RunnerService.runWorkflowTriggerCheck Fixtures.sampleWorld 10
       (Fixtures.sampleTrigger (Some "m3")) RunnerModel.ByTrigger
       RunnerModel.initialState
     = RunnerModel.Resolved tt
         {| RunnerModel.events :=
              [ RunnerModel.Logged RunnerModel.LDebug
                  "Checking for trigger trigger-1";
                RunnerModel.CreatedRun Fixtures.run0 "wf4"
                  RunnerModel.ByTrigger (Some "trigger-1");
                RunnerModel.RanOperation
                  (RunnerSpecs.triggerRunOptions Fixtures.slack
                     Fixtures.pollTrigger [] Fixtures.noCredentials);
                RunnerModel.Logged RunnerModel.LDebug
                  "Trigger condition not satisfied for trigger trigger-1";
                RunnerModel.MarkedTriggerAsCompleted Fixtures.run0 false
                  ["m3"] ];
            RunnerModel.runsCreated := 1;
            RunnerModel.cursors := ∅ |}.
Proof.
  assert (Hpopulating : RunnerSpecs.polls MoreFixtures.populateWorld
                          (Fixtures.sampleTrigger (Some "m2"))
                          MoreFixtures.populatingTrigger Fixtures.slack
                          Fixtures.noCredentials [] Fixtures.polledResponse).
  { repeat split; try reflexivity. vm_compute. discriminate. }
  assert (Hplain : RunnerSpecs.polls Fixtures.sampleWorld
                     (Fixtures.sampleTrigger (Some "m3")) Fixtures.pollTrigger
                     Fixtures.slack Fixtures.noCredentials []
                     Fixtures.polledResponse).
  { repeat split; try reflexivity. vm_compute. discriminate. }
  split.
  - destruct (proj2 (trigger_check_after_the_poll MoreFixtures.populateWorld 10
                       (Fixtures.sampleTrigger (Some "m2"))
                       RunnerModel.ByTrigger RunnerModel.initialState
                       MoreFixtures.populatingTrigger Fixtures.slack
                       Fixtures.noCredentials [] Fixtures.polledResponse
                       Hpopulating)
                ltac:(vm_compute; discriminate))
      as (newest & older & Hitems & Hcheck).
    injection Hitems as <- <-.
    vm_compute in Hcheck. destruct Hcheck as [_ Hcheck].
    vm_compute. exact Hcheck.
  - etransitivity.
    + exact (proj1 (trigger_check_after_the_poll Fixtures.sampleWorld 10
                      (Fixtures.sampleTrigger (Some "m3"))
                      RunnerModel.ByTrigger RunnerModel.initialState
                      Fixtures.pollTrigger Fixtures.slack
                      Fixtures.noCredentials [] Fixtures.polledResponse
                      Hplain) eq_refl).
    + vm_compute. reflexivity.
Defined.



(** ** workflow.service.ts: failure targets and template settings *)

Section WorkflowServiceMore.
Import JsString JsText Js Regex InputUtils RunnerModel WorkflowService
       WorkflowTemplates WorkflowSpecs Fixtures.

Lemma updateOne_noSelfTarget
      (id : string) (record : WorkflowUpdate)
      (opts : option (Workflow -> bool)) (store : Store) :
  noSelfTarget store -> noSelfTarget (snd (updateOne id record opts store)).
Proof.
  intros Hinv. unfold updateOne, superUpdateOne.
  destruct (findById id opts store) as [workflow|] eqn:Hfound; [|exact Hinv].
  destruct (bool_decide _) eqn:Hself; [exact Hinv|].
  apply bool_decide_eq_false in Hself. cbv zeta. cbn [snd].
  assert (Hstored : store !! id = Some workflow).
  { unfold findById in Hfound.
    destruct (store !! id) as [stored|]; [|discriminate].
    destruct (default _ opts stored); [|discriminate].
    exact Hfound. }
  intros id' workflow' Hlookup. unfold Store in *.
  destruct (decide (id = id')) as [<-|Hne].
  - rewrite lookup_insert_eq in Hlookup. injection Hlookup as <-.
    cbn [applyUpdate wf_runOnFailure wf_id].
    destruct (up_runOnFailure record) as [target|] eqn:Htarget;
      [exact Hself|].
    exact (Hinv _ _ Hstored).
  - rewrite lookup_insert_ne in Hlookup by exact Hne.
    exact (Hinv _ _ Hlookup).
Qed.

(** X14.  No sequence of calls of [updateOne] makes a workflow its own
    failure workflow: when no stored workflow names itself as its
    [runOnFailure] target, this is still so after any number of updates,
    accepted or rejected. *)
Theorem updates_never_make_a_workflow_its_own_failure_workflow
        (calls : list (string * WorkflowUpdate * option (Workflow -> bool)))
        (store : Store) :
  noSelfTarget store -> noSelfTarget (updateAll calls store).
Proof.
  unfold updateAll. revert store.
  induction calls as [|[[id record] opts] calls IH]; intros store Hinv;
    [exact Hinv|].
  cbn [fold_left]. apply IH, updateOne_noSelfTarget, Hinv.
Qed.

(** *** Template fields *)

Lemma arrayIncludes_elem_of (arr : list string) (x : string) :
  arrayIncludes arr x = true <-> x ∈ arr.
Proof.
  unfold arrayIncludes. rewrite existsb_exists. split.
  - intros (y & Hin & Heq). apply String.eqb_eq in Heq as <-.
    apply list_elem_of_In, Hin.
  - intros Hin. exists x. split; [apply list_elem_of_In, Hin|].
    apply String.eqb_refl.
Qed.

Lemma arrayIncludes_not_elem_of (arr : list string) (x : string) :
  arrayIncludes arr x = false <-> x ∉ arr.
Proof.
  rewrite <- arrayIncludes_elem_of. destruct (arrayIncludes arr x); split;
    congruence.
Qed.

Lemma uniqueFrom_spec (arr : list string) :
  forall seen,
    NoDup (uniqueFrom seen arr)
    /\ forall x, x ∈ uniqueFrom seen arr <-> x ∈ arr /\ x ∉ seen.
Proof.
  induction arr as [|y arr IH]; intros seen; cbn [uniqueFrom].
  - split; [constructor|]. intros x. split.
    + intros H. inversion H.
    + intros [H _]. inversion H.
  - destruct (arrayIncludes seen y) eqn:Hy.
    + apply arrayIncludes_elem_of in Hy.
      destruct (IH seen) as [Hnd Hin]. split; [exact Hnd|].
      intros x. rewrite Hin, elem_of_cons. split; [tauto|].
      intros [[->|H] Hx]; [contradiction|tauto].
    + apply arrayIncludes_not_elem_of in Hy.
      destruct (IH (y :: seen)) as [Hnd Hin]. split.
      * constructor; [|exact Hnd]. rewrite Hin, elem_of_cons. tauto.
      * intros x. rewrite !elem_of_cons, Hin, elem_of_cons.
        destruct (decide (x = y)) as [->|Hne]; tauto.
Qed.

Lemma unique_NoDup (arr : list string) : NoDup (unique arr).
Proof. apply uniqueFrom_spec. Qed.

Lemma getTemplateFields_NoDup (inputs : list (string * value)) :
  NoDup (getTemplateFields inputs).
Proof. apply unique_NoDup. Qed.

(** The test "the template did not change" holds exactly when the two
    lists, which have no duplicates, have the same elements. *)
Lemma same_fields_test (new old : list string) :
  NoDup new -> NoDup old ->
  Nat.eqb (length new) (length old) && forallb (arrayIncludes old) new = true
  <-> forall f, f ∈ new <-> f ∈ old.
Proof.
  intros Hnew Hold. rewrite andb_true_iff, Nat.eqb_eq, forallb_forall.
  split.
  - intros [Hlen Hsub].
    assert (Hincl : forall x, x ∈ new -> x ∈ old).
    { intros x Hx. apply arrayIncludes_elem_of, Hsub, list_elem_of_In, Hx. }
    assert (Hperm : new ≡ₚ old).
    { apply submseteq_length_Permutation; [|lia].
      apply NoDup_submseteq; assumption. }
    intros f. rewrite Hperm. reflexivity.
  - intros Hsame.
    assert (Hperm : new ≡ₚ old) by (apply NoDup_Permutation; assumption).
    split.
    + rewrite Hperm. reflexivity.
    + intros x Hx. apply arrayIncludes_elem_of, Hsame, list_elem_of_In, Hx.
Qed.

(** X15.  [updateTemplateSettings] writes exactly when it returns [true],
    and it returns [false] exactly when the workflow is not a template
    and the new inputs name no template field, or when the new and the
    old inputs name the same template fields (in any order and number of
    uses).  In particular, saving the same inputs again writes nothing. *)
Theorem template_settings_are_written_iff_the_fields_changed
        (workflow : TemplateWorkflow) (inputs : list (string * value))
        (oldInputs : option (list (string * value))) :
  let newTemplateFields := getTemplateFields inputs in
  let oldTemplateFields := getTemplateFields (default [] oldInputs) in
  (fst (updateTemplateSettings workflow inputs oldInputs) = false
   <-> (default false (tw_isTemplate workflow) = false
        /\ newTemplateFields = [])
       \/ (forall f, f ∈ newTemplateFields <-> f ∈ oldTemplateFields))
  /\ (snd (updateTemplateSettings workflow inputs oldInputs) = None
      <-> fst (updateTemplateSettings workflow inputs oldInputs) = false)
  /\ updateTemplateSettings workflow inputs (Some inputs) = (false, None).
Proof.
  intros newTemplateFields oldTemplateFields.
  pose proof (same_fields_test newTemplateFields oldTemplateFields
                (getTemplateFields_NoDup _) (getTemplateFields_NoDup _))
    as Hsame.
  assert (Hfirst : negb (default false (tw_isTemplate workflow))
                   && Nat.eqb (length newTemplateFields) 0 = true
                   <-> default false (tw_isTemplate workflow) = false
                       /\ newTemplateFields = []).
  { rewrite andb_true_iff, negb_true_iff, Nat.eqb_eq.
    split; intros [H1 H2]; (split; [exact H1|]).
    - destruct newTemplateFields; [reflexivity|discriminate].
    - rewrite H2. reflexivity. }
  repeat split.
  - unfold updateTemplateSettings.
    fold newTemplateFields oldTemplateFields.
    destruct (negb _ && Nat.eqb (length newTemplateFields) 0) eqn:H1.
    + intros _. left. apply Hfirst. reflexivity.
    + destruct (Nat.eqb _ _ && forallb _ _) eqn:H2.
      * intros _. right. apply Hsame. reflexivity.
      * discriminate.
  - unfold updateTemplateSettings.
    fold newTemplateFields oldTemplateFields.
    intros [H|H].
    + apply Hfirst in H. rewrite H. reflexivity.
    + apply Hsame in H. rewrite H.
      destruct (negb _ && _); reflexivity.
  - unfold updateTemplateSettings.
    destruct (negb _ && _); [reflexivity|].
    destruct (Nat.eqb _ _ && forallb _ _); [reflexivity|discriminate].
  - unfold updateTemplateSettings.
    destruct (negb _ && _); [reflexivity|].
    destruct (Nat.eqb _ _ && forallb _ _); [reflexivity|discriminate].
  - unfold updateTemplateSettings.
    change (default [] (Some inputs)) with inputs.
    destruct (negb _ && _); [reflexivity|].
    assert (H : Nat.eqb (length (getTemplateFields inputs))
                  (length (getTemplateFields inputs))
                && forallb (arrayIncludes (getTemplateFields inputs))
                     (getTemplateFields inputs) = true).
    { apply same_fields_test; try apply getTemplateFields_NoDup. tauto. }
    rewrite H. reflexivity.
Qed.

(** *** The schema written *)

Lemma getField_deleteField (k field : string) (fs : list (string * value)) :
  getField k (deleteField field fs)
  = if String.eqb k field then None else getField k fs.
Proof.
  unfold deleteField. induction fs as [|[k' v'] fs IH]; cbn.
  - destruct (String.eqb k field); reflexivity.
  - destruct (String.eqb_spec k' field) as [->|Hne]; cbn.
    + rewrite IH. destruct (String.eqb_spec k field) as [->|Hk];
        [reflexivity|].
      destruct (String.eqb_spec field k); [congruence|reflexivity].
    + destruct (String.eqb_spec k' k) as [->|Hk'].
      * destruct (String.eqb_spec k field); [congruence|reflexivity].
      * exact IH.
Qed.

Lemma getField_fold_delete (k : string) (fields : list string) :
  forall props,
    getField k (fold_left (fun props field => deleteField field props)
                  fields props)
    = if arrayIncludes fields k then None else getField k props.
Proof.
  induction fields as [|f fields IH]; intros props; [reflexivity|].
  cbn [fold_left]. rewrite IH, getField_deleteField.
  unfold arrayIncludes. cbn [existsb].
  destruct (String.eqb k f); cbn [orb]; [|reflexivity].
  destruct (existsb _ fields); reflexivity.
Qed.

Lemma hasField_deleteField (k field : string) (fs : list (string * value)) :
  hasField k (deleteField field fs)
  = if String.eqb k field then false else hasField k fs.
Proof.
  unfold hasField. rewrite getField_deleteField.
  destruct (String.eqb k field); reflexivity.
Qed.

Lemma hasField_fold_delete (k : string) (fields : list string) :
  forall props,
    hasField k (fold_left (fun props field => deleteField field props)
                  fields props)
    = if arrayIncludes fields k then false else hasField k props.
Proof.
  intros props. unfold hasField. rewrite getField_fold_delete.
  destruct (arrayIncludes fields k); reflexivity.
Qed.

Lemma getField_assignField (k field : string) (v : value)
      (fs : list (string * value)) :
  getField k (assignField field v fs)
  = if String.eqb k field && (assignable k || hasField k fs) then Some v
    else getField k fs.
Proof.
  unfold assignField, assignable.
  destruct (String.eqb_spec k field) as [->|Hne]; cbn [andb].
  - destruct (String.eqb field protoKey); cbn [negb andb orb].
    + destruct (hasField field fs) eqn:Hhas; cbn [negb].
      * apply getField_setField_eq.
      * reflexivity.
    + apply getField_setField_eq.
  - destruct (String.eqb field protoKey && negb (hasField field fs));
      [reflexivity|].
    apply getField_setField_ne. congruence.
Qed.

Lemma getField_fold_assign (k : string) (v : value) (fields : list string) :
  forall props,
    getField k (fold_left (fun props field => assignField field v props)
                  fields props)
    = if arrayIncludes fields k && (assignable k || hasField k props)
      then Some v
      else getField k props.
Proof.
  induction fields as [|f fields IH]; intros props; [reflexivity|].
  cbn [fold_left]. rewrite IH.
  assert (Hhas : hasField k (assignField f v props)
                 = String.eqb k f && (assignable k || hasField k props)
                   || hasField k props).
  { unfold hasField. rewrite getField_assignField. fold (hasField k props).
    destruct (String.eqb k f && (assignable k || hasField k props));
      [reflexivity|].
    unfold hasField. destruct (getField k props); reflexivity. }
  rewrite Hhas, getField_assignField. unfold arrayIncludes. cbn [existsb].
  destruct (String.eqb k f), (existsb (String.eqb k) fields), (assignable k),
    (hasField k props); reflexivity.
Qed.

Lemma arrayIncludes_filter (p : string -> bool) (arr : list string)
      (x : string) :
  arrayIncludes (List.filter p arr) x = arrayIncludes arr x && p x.
Proof.
  unfold arrayIncludes. induction arr as [|y arr IH]; [reflexivity|].
  cbn [List.filter existsb].
  destruct (p y) eqn:Hpy; cbn [existsb]; rewrite IH;
    destruct (String.eqb_spec x y) as [->|Hne]; cbn [orb andb];
    rewrite ?Hpy, ?andb_false_r; reflexivity.
Qed.

Lemma getField_updatedProperties (k : string) (new old : list string)
      (properties : list (string * value)) :
  getField k (updatedProperties new old properties)
  = if arrayIncludes new k && negb (arrayIncludes old k)
    then if assignable k || hasField k properties
         then Some (JObj [("type", JStr "string")])
         else None
    else if arrayIncludes old k && negb (arrayIncludes new k) then None
    else getField k properties.
Proof.
  unfold updatedProperties, addedTemplateFields, deletedTemplateFields.
  rewrite getField_fold_assign, hasField_fold_delete, getField_fold_delete,
    !arrayIncludes_filter.
  destruct (arrayIncludes new k), (arrayIncludes old k); cbn [andb negb orb];
    try reflexivity.
  destruct (assignable k); cbn [orb]; [reflexivity|].
  unfold hasField. destruct (getField k properties); reflexivity.
Qed.

Lemma schemaProperties_setField (properties schema : list (string * value)) :
  schemaProperties (setField "properties" (JObj properties) schema)
  = properties.
Proof. unfold schemaProperties. rewrite getField_setField_eq. reflexivity. Qed.

(** X16.  What [updateTemplateSettings] writes: the workflow is marked as
    a template, and in the [properties] of the schema written every field
    that is new (named by the new inputs only) is a string property,
    every field that is gone (named by the old inputs only) is absent,
    and every other property is as it was in the stored schema; the other
    keys of the schema are kept.  The one new field that is no property
    afterwards is [__proto__] when the stored properties have no own
    property of that name: its assignment reaches the inherited setter. *)
Theorem template_schema_follows_the_fields
        (workflow : TemplateWorkflow) (inputs : list (string * value))
        (oldInputs : option (list (string * value)))
        (id : string) (patch : TemplatePatch) :
  updateTemplateSettings workflow inputs oldInputs = (true, Some (id, patch)) ->
  let newTemplateFields := getTemplateFields inputs in
  let oldTemplateFields := getTemplateFields (default [] oldInputs) in
  let stored :=
    default [("type", JStr "object")] (tw_templateSchema workflow) in
  id = tw_id workflow
  /\ patch_isTemplate patch = true
  /\ (forall k,
        getField k (schemaProperties (patch_templateSchema patch))
        = if arrayIncludes newTemplateFields k
             && negb (arrayIncludes oldTemplateFields k)
          then if assignable k || hasField k (schemaProperties stored)
               then Some (JObj [("type", JStr "string")])
               else None
          else if arrayIncludes oldTemplateFields k
                  && negb (arrayIncludes newTemplateFields k)
          then None
          else getField k (schemaProperties stored))
  /\ (forall k, k <> "properties" ->
        getField k (patch_templateSchema patch) = getField k stored).
Proof.
  intros Hrun newTemplateFields oldTemplateFields stored.
  unfold updateTemplateSettings in Hrun.
  fold newTemplateFields oldTemplateFields stored in Hrun.
  destruct (negb _ && _); [discriminate|].
  destruct (Nat.eqb _ _ && forallb _ _); [discriminate|].
  injection Hrun as <- <-. cbn [patch_isTemplate patch_templateSchema].
  split; [reflexivity|]. split; [reflexivity|]. split.
  - intros k. rewrite schemaProperties_setField.
    apply getField_updatedProperties.
  - intros k Hk. apply getField_setField_ne, Hk.
Qed.

End WorkflowServiceMore.

Lemma updates_never_self_target_witness :
  WorkflowSpecs.noSelfTarget
    (WorkflowSpecs.updateAll
       [ ("wf1", {| WorkflowService.up_name := None;
                    WorkflowService.up_runOnFailure := Some "wf1" |}, None);
         ("wf1", {| WorkflowService.up_name := Some "Digest";
                    WorkflowService.up_runOnFailure := Some "wf2" |}, None) ]
       (<["wf1" := Fixtures.sampleWorkflow]> ∅)).
Proof.
  apply (updates_never_make_a_workflow_its_own_failure_workflow _
           (<["wf1" := Fixtures.sampleWorkflow]> ∅)).
  intros id workflow Hlookup. unfold WorkflowService.Store in *.
  destruct (decide (id = "wf1")) as [->|Hne].
  - rewrite lookup_insert_eq in Hlookup. injection Hlookup as <-. discriminate.
  - rewrite lookup_insert_ne in Hlookup by congruence.
    rewrite lookup_empty in Hlookup. discriminate.
Defined.

Lemma template_schema_witness :
  exists patch,
    WorkflowTemplates.updateTemplateSettings
      {| WorkflowTemplates.tw_id := "wf1";
         WorkflowTemplates.tw_isTemplate := Some true;
         WorkflowTemplates.tw_templateSchema :=
           Some [ ("type", Js.JStr "object");
                  ("properties",
                   Js.JObj [ ("title", Js.JObj [("type", Js.JStr "string")]);
                             ("note", Js.JObj [("type", Js.JStr "string")]) ]) ] |}
      [ ("subject", Js.JStr "{{ template.title }}: {{template.amount}}");
        ("count", Js.JNum 2) ]
      (Some [ ("subject", Js.JStr "{{ template.title }}");
              ("body", Js.JStr "Note: {{ template.note }}") ])
    = (true, Some ("wf1", patch))
    /\ WorkflowTemplates.patch_isTemplate patch = true
    /\ Js.getField "amount"
         (WorkflowTemplates.schemaProperties
            (WorkflowTemplates.patch_templateSchema patch))
       = Some (Js.JObj [("type", Js.JStr "string")])
    /\ Js.getField "note"
         (WorkflowTemplates.schemaProperties
            (WorkflowTemplates.patch_templateSchema patch))
       = None
    /\ Js.getField "type" (WorkflowTemplates.patch_templateSchema patch)
       = Some (Js.JStr "object").
Proof.
  eexists. split; [reflexivity|].
  destruct (template_schema_follows_the_fields
              {| WorkflowTemplates.tw_id := "wf1";
                 WorkflowTemplates.tw_isTemplate := Some true;
                 WorkflowTemplates.tw_templateSchema :=
                   Some [ ("type", Js.JStr "object");
                          ("properties",
                           Js.JObj
                             [ ("title", Js.JObj [("type", Js.JStr "string")]);
                               ("note", Js.JObj [("type", Js.JStr "string")]) ]) ] |}
              [ ("subject", Js.JStr "{{ template.title }}: {{template.amount}}");
                ("count", Js.JNum 2) ]
              (Some [ ("subject", Js.JStr "{{ template.title }}");
                      ("body", Js.JStr "Note: {{ template.note }}") ])
              "wf1" _ eq_refl) as (_ & Htemplate & Hproperties & Hkeys).
  split; [exact Htemplate|]. split; [|split].
  - etransitivity; [apply Hproperties|]. reflexivity.
  - etransitivity; [apply Hproperties|]. reflexivity.
  - etransitivity; [apply Hkeys; discriminate|]. reflexivity.
Defined.

(** ** The OAuth strategy factory *)

Section OAuthFactory.
Import JsString JsText Js Regex Specs OAuthStrategyFactory OAuthSpecs.

Variable env : gmap string string.
Variable findOne : string -> option IntegrationAccount.
Variable importStrategy : string -> result CustomStrategyModule.

Lemma count_append (p : ascii -> bool) (a b : string) :
  count p (a +:+ b) = count p a + count p b.
Proof.
  induction a as [|c a IH]; [reflexivity|].
  rewrite append_cons. cbn [count]. rewrite IH. lia.
Qed.

Lemma count_none (p : ascii -> bool) (s : string) :
  count p s = 0 <-> allChars (fun c => negb (p c)) s = true.
Proof.
  induction s as [|c s IH]; cbn [count allChars]; [tauto|].
  destruct (p c); cbn [negb andb].
  - split; [lia|discriminate].
  - exact IH.
Qed.

Lemma toUpperChar_hyphen (c : ascii) :
  Ascii.eqb "-" (toUpperChar c) = Ascii.eqb "-" c.
Proof. destruct c as [[] [] [] [] [] [] [] []]; vm_compute; reflexivity. Qed.

Lemma count_hyphen_toUpperCase (s : string) :
  count (isChar "-") (toUpperCase s) = count (isChar "-") s.
Proof.
  unfold toUpperCase, isChar.
  induction s as [|c s IH]; [reflexivity|].
  cbn [mapChars count]. rewrite toUpperChar_hyphen, IH. reflexivity.
Qed.

Lemma count_replace_hyphen (s : string) :
  count (isChar "-") (JsString.replace s "-" "_")
  = pred (count (isChar "-") s).
Proof.
  unfold JsString.replace.
  destruct (indexOf "-" s) as [i|] eqn:Hi.
  - apply indexOf_Some in Hi as (before & after & -> & <-).
    rewrite substringTo_prefix.
    change (len before + len "-") with (len before + 1).
    replace (before +:+ "-" +:+ after) with ((before +:+ "-") +:+ after)
      by (rewrite append_assoc; reflexivity).
    replace (len before + 1) with (len (before +:+ "-"))
      by (rewrite len_append; reflexivity).
    rewrite substringFrom_prefix.
    change (getSubstitution "-" before after [] "_") with "_".
    rewrite !count_append. cbn. lia.
  - assert (Hnone : count (isChar "-") s = 0).
    { apply count_none. clear -Hi.
      induction s as [|c s IH]; [reflexivity|].
      cbn [indexOf startsWith] in Hi. cbn [allChars]. unfold isChar at 1.
      destruct (Ascii.eqb "-" c); [discriminate|]. cbn [negb andb].
      apply IH. destruct (indexOf "-" s); [discriminate|reflexivity]. }
    rewrite Hnone. reflexivity.
Qed.

(** X17.  The name of the environment variable that holds a client
    identifier or a consumer key is derived from the key in upper case
    with its first hyphen replaced by an underscore; every further hyphen
    stays.  So the prefix is free of hyphens exactly when the key has at
    most one. *)
Theorem env_prefix_replaces_the_first_hyphen_only (key : string) :
  envPrefix key = JsString.replace (toUpperCase key) "-" "_"
  /\ count (isChar "-") (envPrefix key) = pred (count (isChar "-") key)
  /\ (count (isChar "-") (envPrefix key) = 0
      <-> count (isChar "-") key <= 1).
Proof.
  assert (Hmodel : envPrefix key = JsString.replace (toUpperCase key) "-" "_")
    by apply replaceFirst_Lit.
  assert (Hcount : count (isChar "-") (envPrefix key)
                   = pred (count (isChar "-") key)).
  { rewrite Hmodel, count_replace_hyphen, count_hyphen_toUpperCase.
    reflexivity. }
  split; [exact Hmodel|]. split; [exact Hcount|]. rewrite Hcount. lia.
Qed.

(** *** The cache and the registries *)

Lemma strategyName_inj (key key' : string) :
  getOAuthStrategyName key = getOAuthStrategyName key' -> key = key'.
Proof. unfold getOAuthStrategyName. intros H. injection H as H. exact H. Qed.

Lemma registered_log (level : LogLevel) (line : string) (st : Factory) :
  cacheIsRegistered st -> cacheIsRegistered (log level line st).
Proof. intros H. exact H. Qed.

(** Registering a strategy for a key in all the places at once. *)
Lemma registered_insert (key : string) (account : IntegrationAccount)
      (strategy : Strategy) (st : Factory) (withRefresh : bool) :
  cacheIsRegistered st ->
  strategyAccount strategy = account ->
  (if withRefresh then True else account_authType account = oauth1) ->
  (account_authType account = oauth1 \/ account_authType account = oauth2) ->
  cacheIsRegistered
    (cacheSet key account
       ((if withRefresh then refreshUse (getOAuthStrategyName key) strategy
         else fun st => st)
          (passportUse (getOAuthStrategyName key) strategy st))).
Proof.
  intros Hinv Hacc Hkind Htype key' account' Hcached.
  assert (Hpass : passport
                    (cacheSet key account
                       ((if withRefresh
                         then refreshUse (getOAuthStrategyName key) strategy
                         else fun st => st)
                          (passportUse (getOAuthStrategyName key) strategy st)))
                  = <[getOAuthStrategyName key := strategy]> (passport st))
    by (destruct withRefresh; reflexivity).
  assert (Href : refresh
                   (cacheSet key account
                      ((if withRefresh
                        then refreshUse (getOAuthStrategyName key) strategy
                        else fun st => st)
                         (passportUse (getOAuthStrategyName key) strategy st)))
                 = if withRefresh
                   then <[getOAuthStrategyName key := strategy]> (refresh st)
                   else refresh st)
    by (destruct withRefresh; reflexivity).
  assert (Hcache : integrationStrategies
                     (cacheSet key account
                        ((if withRefresh
                          then refreshUse (getOAuthStrategyName key) strategy
                          else fun st => st)
                           (passportUse (getOAuthStrategyName key) strategy st)))
                   = <[key := account]> (integrationStrategies st))
    by (destruct withRefresh; reflexivity).
  rewrite Hpass, Href. rewrite Hcache in Hcached.
  destruct (decide (key = key')) as [<-|Hne].
  - rewrite lookup_insert_eq in Hcached. injection Hcached as <-.
    split; [exact Htype|]. exists strategy.
    rewrite lookup_insert_eq. split; [reflexivity|]. split; [exact Hacc|].
    intros H2. destruct withRefresh; [apply lookup_insert_eq|congruence].
  - rewrite lookup_insert_ne in Hcached by exact Hne.
    destruct (Hinv key' account' Hcached) as (Htype' & s & Hs & Hsa & Hs2).
    split; [exact Htype'|]. exists s.
    assert (Hname : getOAuthStrategyName key <> getOAuthStrategyName key').
    { intros H. apply Hne, strategyName_inj, H. }
    rewrite lookup_insert_ne by exact Hname.
    split; [exact Hs|]. split; [exact Hsa|].
    intros H2. destruct withRefresh;
      [rewrite lookup_insert_ne by exact Hname|]; exact (Hs2 H2).
Qed.

Lemma registered_registerOauth1Strategy
      (key : string) (account : IntegrationAccount)
      (custom : option CustomStrategyModule) (st : Factory) :
  account_authType account = oauth1 ->
  cacheIsRegistered st ->
  cacheIsRegistered (registerOauth1Strategy env key account custom st).
Proof.
  intros Htype Hinv. unfold registerOauth1Strategy.
  destruct (negb _ || negb _); [exact Hinv|].
  destruct (negb _ || negb _ || negb _ || negb _); [exact Hinv|].
  apply registered_log.
  match goal with
  | |- cacheIsRegistered (cacheSet _ _ (passportUse _ ?strategy _)) =>
      apply (registered_insert key account strategy st false Hinv eq_refl
               Htype)
  end.
  left. exact Htype.
Qed.

Lemma registered_registerOauth2Strategy
      (key : string) (account : IntegrationAccount)
      (custom : option CustomStrategyModule) (st : Factory) :
  account_authType account = oauth2 ->
  cacheIsRegistered st ->
  cacheIsRegistered (registerOauth2Strategy env key account custom st).
Proof.
  intros Htype Hinv. unfold registerOauth2Strategy.
  destruct (truthyStr _ && truthyStr _); [|exact Hinv].
  destruct (negb _ || negb _); [exact Hinv|].
  apply registered_log.
  match goal with
  | |- cacheIsRegistered (cacheSet _ _ (refreshUse _ ?strategy _)) =>
      apply (registered_insert key account strategy st true Hinv eq_refl I)
  end.
  right. exact Htype.
Qed.

Lemma registered_ensureStrategy (key : string) (st : Factory) :
  cacheIsRegistered st ->
  cacheIsRegistered (snd (ensureStrategy env findOne importStrategy key st)).
Proof.
  intros Hinv. unfold ensureStrategy.
  destruct (negb _); [exact Hinv|].
  destruct (integrationStrategies st !! key); [exact Hinv|].
  destruct (findOne key) as [account|]; [|exact Hinv].
  destruct (getCustomStrategy _ _) as [custom|e]; [|exact Hinv].
  cbn [snd]. destruct (account_authType account) eqn:Htype.
  - apply registered_registerOauth1Strategy; [exact Htype|exact Hinv].
  - apply registered_registerOauth2Strategy; [exact Htype|exact Hinv].
  - exact Hinv.
Qed.

(** X18.  Whatever calls of [ensureStrategy] a fresh factory has served,
    every account in its cache has its strategy: the account is an OAuth1
    or OAuth2 account, passport holds a strategy built for this account
    under the strategy name of the key, and for an OAuth2 account the
    token refresher holds the same strategy under the same name. *)
Theorem cached_accounts_have_their_strategy_registered
        (integrationAccountKeys : list string) :
  cacheIsRegistered
    (ensureStrategies env findOne importStrategy integrationAccountKeys
       emptyFactory).
Proof.
  unfold ensureStrategies.
  assert (Hgen : forall accountKeys st,
             cacheIsRegistered st ->
             cacheIsRegistered
               (fold_left
                  (fun st key =>
                     snd (ensureStrategy env findOne importStrategy key st))
                  accountKeys st)).
  { induction accountKeys as [|key accountKeys IH]; intros st Hinv;
      [exact Hinv|].
    cbn [fold_left]. apply IH, registered_ensureStrategy, Hinv. }
  apply Hgen. unfold cacheIsRegistered. intros key account Hcached.
  unfold emptyFactory in Hcached. cbn in Hcached.
  rewrite lookup_empty in Hcached. discriminate.
Qed.

Lemma ensureStrategy_cached (key : string) (st : Factory)
      (account : IntegrationAccount) :
  truthyStr (env !! "API_ENDPOINT") = true ->
  integrationStrategies st !! key = Some account ->
  ensureStrategy env findOne importStrategy key st = (Ok account, st).
Proof.
  intros Hendpoint Hcached. unfold ensureStrategy.
  rewrite Hendpoint, Hcached. reflexivity.
Qed.

(** X19.  What a successful call of [ensureStrategy] leaves behind.
    Either the account is cached, and then a further call for the key
    returns the same account and changes nothing, not even the log; or
    nothing was registered (the account is of another type, or its
    credentials or endpoints are not configured): the call has returned
    the account of the account service all the same, the registry of
    passport is as it was and the key is not cached. *)
Theorem ensureStrategy_returns_the_account_registered_or_not
        (integrationAccountKey : string) (st st' : Factory)
        (integrationAccount : IntegrationAccount) :
  ensureStrategy env findOne importStrategy integrationAccountKey st
  = (Ok integrationAccount, st') ->
  (integrationStrategies st' !! integrationAccountKey = Some integrationAccount
   /\ ensureStrategy env findOne importStrategy integrationAccountKey st'
      = (Ok integrationAccount, st'))
  \/ (integrationStrategies st' !! integrationAccountKey = None
      /\ passport st' = passport st
      /\ findOne integrationAccountKey = Some integrationAccount).
Proof.
  intros Hrun. unfold ensureStrategy in Hrun.
  destruct (truthyStr (env !! "API_ENDPOINT")) eqn:Hendpoint;
    [|discriminate].
  cbn [negb] in Hrun.
  assert (Hhit : integrationStrategies st' !! integrationAccountKey
                 = Some integrationAccount ->
                 integrationStrategies st' !! integrationAccountKey
                 = Some integrationAccount
                 /\ ensureStrategy env findOne importStrategy
                      integrationAccountKey st'
                    = (Ok integrationAccount, st')).
  { intros H. split; [exact H|].
    apply ensureStrategy_cached; assumption. }
  destruct (integrationStrategies st !! integrationAccountKey)
    as [cached|] eqn:Hcache.
  { injection Hrun as <- <-. left. apply Hhit, Hcache. }
  destruct (findOne integrationAccountKey) as [account|]; [|discriminate].
  destruct (getCustomStrategy _ _) as [custom|e]; [|discriminate].
  injection Hrun as <- <-.
  destruct (account_authType account).
  - unfold registerOauth1Strategy in *.
    destruct (negb _ || negb _);
      [right; repeat split; assumption|].
    destruct (negb _ || negb _ || negb _ || negb _);
      [right; repeat split; assumption|].
    left. apply Hhit. cbn. apply lookup_insert_eq.
  - unfold registerOauth2Strategy in *.
    destruct (truthyStr _ && truthyStr _);
      [|right; repeat split; assumption].
    destruct (negb _ || negb _);
      [right; repeat split; assumption|].
    left. apply Hhit. cbn. apply lookup_insert_eq.
  - right. repeat split; assumption.
Qed.

End OAuthFactory.

Lemma ensureStrategy_witness :
  OAuthStrategyFactory.ensureStrategy MoreFixtures.sampleEnv
    MoreFixtures.sampleFindOne MoreFixtures.sampleImportStrategy "git-hub"
    (snd (OAuthStrategyFactory.ensureStrategy MoreFixtures.sampleEnv
            MoreFixtures.sampleFindOne MoreFixtures.sampleImportStrategy
            "git-hub" OAuthStrategyFactory.emptyFactory))
  = (Js.Ok MoreFixtures.githubAccount,
     snd (OAuthStrategyFactory.ensureStrategy MoreFixtures.sampleEnv
            MoreFixtures.sampleFindOne MoreFixtures.sampleImportStrategy
            "git-hub" OAuthStrategyFactory.emptyFactory)).
Proof.
  destruct (ensureStrategy_returns_the_account_registered_or_not
              MoreFixtures.sampleEnv MoreFixtures.sampleFindOne
              MoreFixtures.sampleImportStrategy "git-hub"
              OAuthStrategyFactory.emptyFactory
              (snd (OAuthStrategyFactory.ensureStrategy MoreFixtures.sampleEnv
                      MoreFixtures.sampleFindOne
                      MoreFixtures.sampleImportStrategy "git-hub"
                      OAuthStrategyFactory.emptyFactory))
              MoreFixtures.githubAccount
              ltac:(vm_compute; reflexivity))
    as [[_ Hagain]|[Hnone _]].
  - exact Hagain.
  - vm_compute in Hnone. discriminate.
Defined.

(** ** The metadata document of "Create a post" *)

Section PostMetadata.
Import JsString JsText Js Regex Specs CreatePostAction.

Lemma Accepts_Star_class (p : ascii -> bool) (a : string) :
  Accepts (Star (Chr p)) a -> allChars p a = true.
Proof.
  intros H. remember (Star (Chr p)) as r eqn:Hr.
  induction H as [|p' c Hc|r1 r2 a b Ha _ Hb _| |r' a b Ha _ Hne Hb IHb|];
    try discriminate; [reflexivity|].
  injection Hr as ->. rewrite allChars_append, (IHb eq_refl), andb_true_r.
  inversion Ha as [|p' c Hc| | | |]; subst. cbn [allChars].
  rewrite Hc. reflexivity.
Qed.

Lemma Accepts_Plus_class (p : ascii -> bool) (a : string) :
  Accepts (Plus (Chr p)) a -> a <> EmptyString /\ allChars p a = true.
Proof.
  unfold Plus. intros H.
  inversion H as [| |r1 r2 a1 a2 H1 H2| | |]; subst.
  inversion H1 as [|p' c Hc| | | |]; subst.
  apply Accepts_Star_class in H2.
  rewrite append_cons, append_nil_l. split; [discriminate|].
  cbn [allChars]. rewrite Hc, H2. reflexivity.
Qed.

(** A match of the tag pattern is a hash sign followed by letters and
    digits, at least one. *)
Lemma Accepts_tagRegex (a : string) :
  Accepts tagRegex a ->
  exists tag,
    a = String "#" tag /\ tag <> EmptyString
    /\ allChars isAlphaNum tag = true.
Proof.
  unfold tagRegex. intros H.
  inversion H as [| |r1 r2 a1 a2 H1 H2| | |]; subst.
  inversion H1 as [|p' c Hc| | | |]; subst.
  apply Ascii.eqb_eq in Hc as <-.
  apply (Accepts_Plus_class isAlphaNum) in H2 as [Hne Hall].
  exists a2. rewrite append_cons, append_nil_l. auto.
Qed.

Lemma tagsOf_spec (content tag : string) :
  tag ∈ tagsOf content ->
  tag <> EmptyString
  /\ allChars isAlphaNum tag = true
  /\ exists before after, content = before +:+ "#" +:+ tag +:+ after.
Proof.
  unfold tagsOf. intros Hin.
  apply list_elem_of_fmap in Hin as (m & -> & Hm).
  apply list_elem_of_In, matchAll_In in Hm
    as (Hacc & before & after & Hcontent).
  apply Accepts_tagRegex in Hacc as (tag & Htext & Hne & Hall).
  rewrite Htext in *. cbn [substringFrom].
  split; [exact Hne|]. split; [exact Hall|].
  exists before, after. exact Hcontent.
Qed.

Lemma len_substringTo (n : nat) (s : string) : len (substringTo n s) <= n.
Proof.
  revert s. induction n as [|n IH]; intros [|c s]; cbn; try lia.
  specialize (IH s). unfold len in IH. lia.
Qed.

Lemma substringTo_substringFrom (n : nat) (s : string) :
  s = substringTo n s +:+ substringFrom n s.
Proof.
  revert s. induction n as [|n IH]; intros [|c s]; cbn [substringTo substringFrom];
    try reflexivity.
  rewrite append_cons, <- IH. reflexivity.
Qed.

Lemma mimeTypeOf_jpeg (imageUrl : option string) :
  mimeTypeOf imageUrl
  = if truthyStr imageUrl then Some "image/jpeg" else None.
Proof.
  unfold mimeTypeOf. destruct (truthyStr imageUrl); [|reflexivity].
  cbn [truthyStr negb orb].
  change (default EmptyString (Some ?x)) with x.
  match goal with
  | |- context [len ("image/" +:+ ?x)] =>
      replace (len ("image/" +:+ x)) with (6 + len x)
        by (rewrite len_append; reflexivity)
  end.
  cbn [existsb Nat.add Nat.eqb orb negb].
  destruct (negb (String.eqb _ EmptyString)); reflexivity.
Qed.

(** X20.  The MIME type written for the image of a post never depends on
    the extension of the image URL: the type computed from the extension
    always has more than four characters, so it is discarded, and the
    type is [image/jpeg] for every non-empty URL and [null] without one. *)
Theorem image_mime_type_is_always_jpeg (imageUrl : option string) :
  mimeTypeOf imageUrl
  = if truthyStr imageUrl then Some "image/jpeg" else None.
Proof. apply mimeTypeOf_jpeg. Qed.

(** X21.  Every tag of the metadata document is a non-empty run of
    letters and digits that follows a hash sign in the content of the
    document; the hash sign is not part of the tag. *)
Theorem post_tags_are_the_hashtags_of_the_content
        (uuid now : string) (inputs : PostInputs)
        (credentials : option PostCredentials) (data : Metadata) :
  buildMetadata uuid now inputs credentials = Ok data ->
  forall tag,
    tag ∈ tags data ->
    tag <> EmptyString
    /\ allChars isAlphaNum tag = true
    /\ exists before after,
         content data = before +:+ "#" +:+ tag +:+ after.
Proof.
  unfold buildMetadata. intros Hrun.
  destruct (negb _ || negb _); [discriminate|].
  destruct (negb _); [discriminate|].
  injection Hrun as <-. cbn [tags content]. intros tag. apply tagsOf_spec.
Qed.

(** X22.  A metadata document is built only with a refresh token, a
    profile and a content, all non-empty.  Its content, which is also
    its description, is the input content cut after 1000 characters.
    Either there is no image: no MIME type, no media, focus on text; or
    the image is the given URL, with one media entry for it, typed
    [image/jpeg] like the document, and the focus is on the image. *)
Theorem post_metadata_is_consistent
        (uuid now : string) (inputs : PostInputs)
        (credentials : option PostCredentials) (data : Metadata) :
  buildMetadata uuid now inputs credentials = Ok data ->
  (truthyStr (credentials ≫= cred_refreshToken) = true
   /\ truthyStr (credentials ≫= cred_profileId) = true
   /\ truthyStr (in_content inputs) = true)
  /\ (description data = content data
      /\ len (content data) <= 1000
      /\ exists rest,
           default EmptyString (in_content inputs) = content data +:+ rest)
  /\ ((truthyStr (in_imageUrl inputs) = false
       /\ image data = None /\ imageMimeType data = None
       /\ media data = [] /\ mainContentFocus data = "TEXT_ONLY")
      \/ exists imageUrl,
           in_imageUrl inputs = Some imageUrl /\ imageUrl <> EmptyString
           /\ image data = Some imageUrl
           /\ imageMimeType data = Some "image/jpeg"
           /\ media data = [ {| media_item := imageUrl;
                                media_type := Some "image/jpeg";
                                media_altTag := EmptyString |} ]
           /\ mainContentFocus data = "IMAGE").
Proof.
  unfold buildMetadata. remember 1000 as limit eqn:Hlimit. clear Hlimit.
  intros Hrun.
  destruct (truthyStr (credentials ≫= cred_refreshToken)); [|discriminate].
  destruct (truthyStr (credentials ≫= cred_profileId)); [|discriminate].
  destruct (truthyStr (in_content inputs)); [|discriminate].
  cbn [negb orb] in Hrun. injection Hrun as <-.
  cbn [description content image imageMimeType media mainContentFocus].
  rewrite mimeTypeOf_jpeg.
  split; [repeat split|]. split.
  - split; [reflexivity|]. split; [apply len_substringTo|].
    eexists. apply substringTo_substringFrom.
  - destruct (in_imageUrl inputs) as [imageUrl|]; cbn [truthyStr];
      [|left; repeat split].
    destruct (String.eqb_spec imageUrl EmptyString) as [->|Hne]; cbn [negb];
      [left; repeat split|].
    right. exists imageUrl. repeat split. exact Hne.
Qed.

End PostMetadata.

Lemma post_tags_witness :
  "proofs2" <> EmptyString
  /\ Specs.allChars CreatePostAction.isAlphaNum "proofs2" = true
  /\ exists before after,
       "Checked with #rocq, see #proofs2!"
       = before +:+ "#" +:+ "proofs2" +:+ after.
Proof.
  apply (post_tags_are_the_hashtags_of_the_content "id-1" "2030-01-01"
           {| CreatePostAction.in_content :=
                Some "Checked with #rocq, see #proofs2!";
              CreatePostAction.in_imageUrl := Some "https://img.example/a.png" |}
           (Some {| CreatePostAction.cred_refreshToken := Some "r";
                    CreatePostAction.cred_profileId := Some "0x01";
                    CreatePostAction.cred_handle := None |})
           _ eq_refl "proofs2").
  vm_compute. right. left.
Defined.

Lemma post_metadata_witness :
  exists data,
    CreatePostAction.buildMetadata "id-1" "2030-01-01"
      {| CreatePostAction.in_content :=
           Some "Checked with #rocq, see #proofs2!";
         CreatePostAction.in_imageUrl := Some "https://img.example/a.png" |}
      (Some {| CreatePostAction.cred_refreshToken := Some "r";
               CreatePostAction.cred_profileId := Some "0x01";
               CreatePostAction.cred_handle := None |})
    = Js.Ok data
    /\ CreatePostAction.imageMimeType data = Some "image/jpeg"
    /\ CreatePostAction.mainContentFocus data = "IMAGE"
    /\ JsString.len (CreatePostAction.content data) <= 1000.
Proof.
  eexists. split; [reflexivity|].
  destruct (post_metadata_is_consistent "id-1" "2030-01-01"
              {| CreatePostAction.in_content :=
                   Some "Checked with #rocq, see #proofs2!";
                 CreatePostAction.in_imageUrl :=
                   Some "https://img.example/a.png" |}
              (Some {| CreatePostAction.cred_refreshToken := Some "r";
                       CreatePostAction.cred_profileId := Some "0x01";
                       CreatePostAction.cred_handle := None |})
              _ eq_refl)
    as (_ & (_ & Hlen & _) & [(Hno & _)|(url & _ & _ & _ & Hmime & _ & Hfocus)]).
  - discriminate.
  - split; [exact Hmime|]. split; [exact Hfocus|exact Hlen].
Defined.

(** ** Items completed by a populate operation *)

Section Populate.
Import Js RunnerModel RunnerService RunnerSpecs.

Variable w : World.

Lemma populateItems_shape (definition : string) (opts : OperationRunOptions) :
  forall newItems st populated st',
    populateItems w definition opts newItems st = Resolved populated st' ->
    Forall2
      (fun old new =>
         ti_id new = ti_id old
         /\ exists populatedOutputs,
              ti_item new = spread populatedOutputs (ti_item old))
      newItems populated.
Proof.
  induction newItems as [|newItem rest IH]; intros st populated st' Hrun.
  - injection Hrun as <- _. constructor.
  - cbn [populateItems] in Hrun. rewrite bindM_eq in Hrun.
    destruct (populateTrigger w definition (ti_item newItem) opts st)
      as [populatedOutputs st1|e st1|]; [|discriminate|discriminate].
    rewrite bindM_eq in Hrun.
    destruct (populateItems w definition opts rest st1)
      as [rest' st2|e st2|] eqn:Hrest; [|discriminate|discriminate].
    injection Hrun as <- _. constructor; [|eapply IH, Hrest].
    split; [reflexivity|]. exists populatedOutputs. reflexivity.
Qed.

(** X23.  Completing the new items of a poll with the outputs of the
    populate operation keeps the items as they are polled: as many items,
    in the same order, with the same identifiers, and every field of a
    polled item keeps its value (the outputs of the populate operation
    only add the fields that the item does not have). *)
Theorem populate_keeps_the_polled_items_and_their_fields
        (definition : string) (opts : OperationRunOptions)
        (newItems populated : list TriggerItem) (st st' : State) :
  populateItems w definition opts newItems st = Resolved populated st' ->
  length populated = length newItems
  /\ forall i old,
       newItems !! i = Some old ->
       exists new,
         populated !! i = Some new
         /\ ti_id new = ti_id old
         /\ (NoDup (keys (ti_item old)) ->
             forall k v,
               getField k (ti_item old) = Some v ->
               getField k (ti_item new) = Some v).
Proof.
  intros Hrun. apply populateItems_shape in Hrun.
  split; [symmetry; eapply Forall2_length, Hrun|].
  intros i old Hold.
  destruct (Forall2_lookup_l _ _ _ _ _ Hrun Hold)
    as (new & Hnew & Hid & populatedOutputs & Hitem).
  exists new. split; [exact Hnew|]. split; [exact Hid|].
  intros Hnd k v Hk.
  rewrite Hitem, getField_spread, (getField_reverse _ _ Hnd), Hk.
  reflexivity.
Qed.

End Populate.

Lemma populate_witness :
  length
    [ {| RunnerModel.ti_id := RunnerModel.IdString "m3";
         RunnerModel.ti_item := [("ok", Js.JBool true); ("id", Js.JStr "m3")] |} ]
  = length (take 1 Fixtures.polled)
  /\ forall i old,
       take 1 Fixtures.polled !! i = Some old ->
       exists new,
         [ {| RunnerModel.ti_id := RunnerModel.IdString "m3";
              RunnerModel.ti_item :=
                [("ok", Js.JBool true); ("id", Js.JStr "m3")] |} ] !! i
         = Some new
         /\ RunnerModel.ti_id new = RunnerModel.ti_id old
         /\ (NoDup (Js.keys (RunnerModel.ti_item old)) ->
             forall k v,
               Js.getField k (RunnerModel.ti_item old) = Some v ->
               Js.getField k (RunnerModel.ti_item new) = Some v).
Proof.
  apply (populate_keeps_the_polled_items_and_their_fields
           MoreFixtures.populateWorld "slack" MoreFixtures.populateOptions
           (take 1 Fixtures.polled) _ RunnerModel.initialState
           (RunnerSpecs.withEvents RunnerModel.initialState
              [ RunnerModel.RanOperation
                  {| RunnerModel.ro_definition := "slack";
                     RunnerModel.ro_integration := Fixtures.slack;
                     RunnerModel.ro_integrationAccount := None;
                     RunnerModel.ro_operation :=
                       RunnerModel.OfAction (Fixtures.operation "send");
                     RunnerModel.ro_inputs := [];
                     RunnerModel.ro_credentials := [];
                     RunnerModel.ro_accountCredential := None |} ])).
  vm_compute. reflexivity.
Defined.

(** ** A placeholder alone, and a placeholder inside other text *)

Section EmbeddedPlaceholder.
Import JsString JsText Js Regex InputUtils Specs Fixtures.

Variable get : value -> string -> value.
Variable evaluate : string -> result value.

Lemma not_open_brace (c : ascii) :
  notChar "{" c = true -> Ascii.eqb "{" c = false.
Proof. unfold notChar. apply negb_true_iff. Qed.

Lemma matchAllFrom_skip_plain (plain tail : string) :
  allChars (notChar "{") plain = true ->
  forall fuel idx,
    matchAllFrom variableRegex (len plain + fuel) idx (plain +:+ tail)
    = matchAllFrom variableRegex fuel (idx + len plain) tail.
Proof.
  induction plain as [|c plain IH]; intros Hplain fuel idx.
  - rewrite append_nil_l. simpl. rewrite Nat.add_0_r. reflexivity.
  - simpl in Hplain. apply andb_prop in Hplain as [Hc Hplain].
    rewrite append_cons, len_cons. cbn [plus matchAllFrom].
    rewrite matchHere_other_start by (apply not_open_brace; exact Hc).
    rewrite (IH Hplain). f_equal. lia.
Qed.

Lemma matchAllFrom_plain (plain : string) :
  allChars (notChar "{") plain = true ->
  forall fuel idx, matchAllFrom variableRegex fuel idx plain = [].
Proof.
  induction plain as [|c plain IH]; intros Hplain fuel idx.
  - destruct fuel; reflexivity.
  - simpl in Hplain. apply andb_prop in Hplain as [Hc Hplain].
    destruct fuel as [|fuel]; [reflexivity|]. cbn [matchAllFrom].
    rewrite matchHere_other_start by (apply not_open_brace; exact Hc).
    apply IH. exact Hplain.
Qed.

(** A text with one placeholder and no other opening brace has exactly
    one match. *)
Lemma matchAll_embedded_placeholder (prefix body suffix : string) :
  allChars (notChar "{") prefix = true ->
  allChars (notChar "{") suffix = true ->
  body <> EmptyString ->
  allChars (notChar "}") body = true ->
  exists m,
    matchAll variableRegex (prefix +:+ "{{" +:+ body +:+ "}}" +:+ suffix) = [m]
    /\ text m = "{{" +:+ body +:+ "}}"
    /\ trim (group1 m) = trim body.
Proof.
  intros Hprefix Hsuffix Hne Hbody. unfold matchAll.
  destruct (matchHere_placeholder (0 + len prefix) body suffix Hne Hbody)
    as (m & Hm & _ & Htext & Hgroup).
  exists m. split; [|split; assumption].
  set (tail := "{{" +:+ body +:+ "}}" +:+ suffix) in *.
  replace (S (len (prefix +:+ tail))) with (len prefix + S (len tail))
    by (rewrite len_append; lia).
  rewrite (matchAllFrom_skip_plain prefix tail Hprefix).
  cbn [matchAllFrom]. rewrite Hm.
  assert (Hlen : len (text m) = S (S (len body + 2))).
  { rewrite Htext, !append_cons, append_nil_l, !len_cons, len_append.
    reflexivity. }
  rewrite Hlen. f_equal.
  assert (Htail : tail = text m +:+ suffix).
  { subst tail. rewrite Htext, !append_assoc. reflexivity. }
  destruct tail as [|c tail'] eqn:Htl; [discriminate|].
  rewrite <- Hlen, Htail, substringFrom_prefix.
  apply matchAllFrom_plain. exact Hsuffix.
Qed.

Lemma startsWith_other_head (c c' : ascii) (p s : string) :
  Ascii.eqb c c' = false -> startsWith (String c p) (String c' s) = false.
Proof. intros H. cbn [startsWith]. rewrite H. reflexivity. Qed.

Lemma startsWith_append (p s : string) : startsWith p (p +:+ s) = true.
Proof. apply startsWith_spec. eauto. Qed.

(** The first occurrence of a pattern after a prefix that does not hold
    its first character. *)
Lemma indexOf_after_prefix (c : ascii) (p prefix suffix : string) :
  allChars (notChar c) prefix = true ->
  indexOf (String c p) (prefix +:+ String c p +:+ suffix)
  = Some (len prefix).
Proof.
  induction prefix as [|c' prefix IH]; intros Hprefix.
  - rewrite append_nil_l.
    destruct (String c p +:+ suffix) as [|x rest] eqn:Hs; [discriminate|].
    cbn [indexOf]. rewrite <- Hs, startsWith_append. reflexivity.
  - cbn [allChars] in Hprefix. apply andb_prop in Hprefix as [Hc Hprefix].
    rewrite append_cons. cbn [indexOf].
    rewrite startsWith_other_head by (apply negb_true_iff, Hc).
    rewrite (IH Hprefix). reflexivity.
Qed.

(** A replacement text without dollar sign is inserted as it is. *)
Lemma getSubstitution_plain (matched before after : string)
      (captures : list (option string)) (template : string) :
  allChars (notChar "$") template = true ->
  getSubstitution matched before after captures template = template.
Proof.
  induction template as [|c template IH]; [reflexivity|].
  cbn [allChars]. intros H. apply andb_prop in H as [Hc Ht].
  assert (Hne : c <> "$"%char).
  { intros ->. discriminate. }
  rewrite <- (IH Ht) at 2. cbn [getSubstitution].
  destruct c as [[] [] [] [] [] [] [] []]; try reflexivity.
  contradiction Hne. reflexivity.
Qed.

Lemma replace_after_prefix (c : ascii) (p prefix suffix replacement : string) :
  allChars (notChar c) prefix = true ->
  allChars (notChar "$") replacement = true ->
  JsString.replace (prefix +:+ String c p +:+ suffix) (String c p) replacement
  = prefix +:+ replacement +:+ suffix.
Proof.
  intros Hprefix Hplain. unfold JsString.replace.
  rewrite (indexOf_after_prefix c p prefix suffix Hprefix).
  rewrite substringTo_prefix.
  replace (prefix +:+ String c p +:+ suffix)
    with ((prefix +:+ String c p) +:+ suffix)
    by (rewrite append_assoc; reflexivity).
  replace (len prefix + len (String c p)) with (len (prefix +:+ String c p))
    by (rewrite len_append; reflexivity).
  rewrite substringFrom_prefix, getSubstitution_plain by exact Hplain.
  reflexivity.
Qed.

(** X3.  A text that is just one placeholder, possibly between white
    space, resolves to the value of the expression of the placeholder as
    it is, with its type: a number stays a number and an object an
    object. *)
Theorem placeholder_alone_resolves_to_the_value_of_its_expression
        (ws1 body ws2 : string) (outputs : value) :
  allChars isWhiteSpace ws1 = true ->
  allChars isWhiteSpace ws2 = true ->
  body <> EmptyString ->
  allChars (notChar "}") body = true ->
  parseInput get evaluate (JStr (ws1 +:+ "{{" +:+ body +:+ "}}" +:+ ws2)) outputs
  = calculateExpression get evaluate (trim body) outputs.
Proof. apply whole_placeholder_resolves_to_its_value. Qed.

(** X24.  A text with one placeholder inside, and no other opening brace:
    unless the text is just the placeholder between white space, the
    result is the text with the placeholder replaced by the text of the
    value of its expression (objects as JSON, dates in ISO form, null and
    undefined as nothing), provided this text holds no dollar sign and
    every number in the value is a safe integer, which is printed with
    its decimal digits. *)
Theorem embedded_placeholder_is_replaced_by_the_text_of_its_value
        (prefix body suffix : string) (outputs v : value) :
  allChars (notChar "{") prefix = true ->
  allChars (notChar "{") suffix = true ->
  body <> EmptyString ->
  allChars (notChar "}") body = true ->
  trim (prefix +:+ "{{" +:+ body +:+ "}}" +:+ suffix)
  <> "{{" +:+ body +:+ "}}" ->
  calculateExpression get evaluate (trim body) outputs = Ok v ->
  safeNumbers v = true ->
  allChars (notChar "$") (toString (stringifyInput v)) = true ->
  parseInput get evaluate (JStr (prefix +:+ "{{" +:+ body +:+ "}}" +:+ suffix))
    outputs
  = Ok (JStr (prefix +:+ toString (stringifyInput v) +:+ suffix)).
Proof.
  intros Hprefix Hsuffix Hne Hbody Hwhole Hvalue _ Hplain.
  destruct (matchAll_embedded_placeholder prefix body suffix
              Hprefix Hsuffix Hne Hbody) as (m & Hall & Htext & Hgroup).
  cbn [parseInput truthy].
  assert (Hnonempty : String.eqb (prefix +:+ "{{" +:+ body +:+ "}}" +:+ suffix)
                        EmptyString = false).
  { destruct prefix; reflexivity. }
  rewrite Hnonempty. cbn [negb]. unfold parseString. rewrite Hall, Htext.
  destruct (String.eqb_spec
              (trim (prefix +:+ "{{" +:+ body +:+ "}}" +:+ suffix))
              ("{{" +:+ body +:+ "}}")) as [Heq|_]; [contradiction|].
  cbn [replaceVariables]. rewrite Hgroup, Hvalue, Htext. cbn.
  do 2 f_equal.
  replace (prefix +:+ "{{" +:+ body +:+ "}}" +:+ suffix)
    with (prefix +:+ ("{{" +:+ body +:+ "}}") +:+ suffix)
    by (rewrite !append_assoc; reflexivity).
  change ("{{" +:+ body +:+ "}}") with (String "{" (String "{" (body +:+ "}}"))).
  apply replace_after_prefix; assumption.
Qed.

End EmbeddedPlaceholder.

Lemma embedded_placeholder_witness :
  InputUtils.parseInput Lodash.get Fixtures.sampleEvaluate
    (Js.JStr ("Value: " +:+ "{{" +:+ " foo.bar " +:+ "}}" +:+ "!"))
    Fixtures.fooBag
  = Js.Ok (Js.JStr ("Value: "
                    +:+ Js.toString (InputUtils.stringifyInput (Js.JNum 5))
                    +:+ "!")).
Proof.
  apply (embedded_placeholder_is_replaced_by_the_text_of_its_value
           Lodash.get Fixtures.sampleEvaluate "Value: " " foo.bar " "!"
           Fixtures.fooBag (Js.JNum 5));
    [reflexivity|reflexivity|discriminate|reflexivity| |reflexivity
    |reflexivity|reflexivity].
  vm_compute. discriminate.
Defined.

Lemma placeholder_alone_witness :
  InputUtils.parseInput Lodash.get Fixtures.sampleEvaluate
    (Js.JStr ("  " +:+ "{{" +:+ "foo.bar - foo.baz" +:+ "}}" +:+ " "))
    Fixtures.fooBag
  = InputUtils.calculateExpression Lodash.get Fixtures.sampleEvaluate
      (JsString.trim "foo.bar - foo.baz") Fixtures.fooBag.
Proof.
  apply (placeholder_alone_resolves_to_the_value_of_its_expression
           Lodash.get Fixtures.sampleEvaluate "  " "foo.bar - foo.baz" " "
           Fixtures.fooBag);
    [reflexivity|reflexivity|discriminate|reflexivity].
Defined.
